(** * Reconciliation engine of telofy-app: [src/lib/services/syncService.ts]

    A shallow embedding of the sync service (identity mapping, objective
    phase, task phase, orchestrator and status publisher) together with
    the properties stated about it.

    Conventions of the embedding.
    - A JS [Map<string, V>] is a [gmap string V]; [new Map(pairs)] inserts
      the pairs from left to right, so a later pair overwrites an earlier
      one with the same key.
    - JS [number] is [Z]. A [Date] object is an instant or the Invalid
      Date; the ISO string a valid date prints to is identified with its
      instant, a [Z], and [toISOString] throws on the Invalid Date. A date
      field on the wire holds the [Date] that [new Date(s)] makes of its
      string.
    - An optional field ([x?: T], possibly [undefined]) is an [option].
    - Every awaited call of the API client either returns or throws an
      [Error] carrying a message; the backend itself is not part of the
      repository, so the client is verified against an arbitrary [Api].
    - [console.log], [console.warn] and [console.error] are not modelled. *)

From stdpp Require Import gmap strings list fin_maps pretty.
From Stdlib Require Import ZArith Ascii.

#[local] Set Warnings "-clear-no-such-hyp".

Local Open Scope Z_scope.

(** ** Strings *)

Module Str.

(** Case folding of the ASCII letters: what the [i] flag of the
    identifier pattern amounts to on [[0-9a-f]], and the lower-casing of
    the in-memory platform of the scenarios, whose names are ASCII.
    [String.prototype.toLowerCase] itself, which also folds the letters
    outside ASCII, is a field of [Api]. *)
Definition lowerAscii (c : ascii) : ascii :=
  let n := nat_of_ascii c in
  if ((65 <=? n) && (n <=? 90))%nat then ascii_of_nat (n + 32) else c.

Fixpoint toLowerCase (s : string) : string :=
  match s with
  | EmptyString => EmptyString
  | String c r => String (lowerAscii c) (toLowerCase r)
  end.

(** A JS string is truthy iff it is not empty. *)
Definition truthy (s : string) : bool :=
  match s with
  | EmptyString => false
  | String _ _ => true
  end.

(** Character class [[0-9a-f]] under the [i] flag. *)
Definition isHex (c : ascii) : bool :=
  let n := nat_of_ascii c in
  (((48 <=? n) && (n <=? 57)) || ((97 <=? n) && (n <=? 102))
   || ((65 <=? n) && (n <=? 70)))%nat.

Definition isDash (c : ascii) : bool := (nat_of_ascii c =? 45)%nat.

(** [hexRun n k s]: [s] starts with exactly [n] hex digits and the rest
    satisfies [k]. *)
Fixpoint hexRun (n : nat) (k : string -> bool) (s : string) : bool :=
  match n with
  | O => k s
  | S n' =>
      match s with
      | String c r => isHex c && hexRun n' k r
      | EmptyString => false
      end
  end.

Definition dash (k : string -> bool) (s : string) : bool :=
  match s with
  | String c r => isDash c && k r
  | EmptyString => false
  end.

Definition atEnd (s : string) : bool :=
  match s with
  | EmptyString => true
  | String _ _ => false
  end.

Definition quote : string := String (ascii_of_nat 34) EmptyString.

End Str.

(** [/^[0-9a-f]{8}-[0-9a-f]{4}-[0-9a-f]{4}-[0-9a-f]{4}-[0-9a-f]{12}$/i.test(id)] *)
Definition isValidUUID (id : string) : bool :=
  Str.hexRun 8 (Str.dash (Str.hexRun 4 (Str.dash (Str.hexRun 4
    (Str.dash (Str.hexRun 4 (Str.dash (Str.hexRun 12 Str.atEnd)))))))) id.

(** [new Map(pairs)]: left-to-right insertion. *)
Definition jsMap {V : Type} (pairs : list (string * V)) : gmap string V :=
  foldl (fun m kv => <[kv.1 := kv.2]> m) ∅ pairs.

(** [a || b] on optional strings: [a] when it is defined and not empty. *)
Definition orElse (a b : option string) : option string :=
  match a with
  | Some s => if Str.truthy s then Some s else b
  | None => b
  end.

(** ** Dates *)

(** A [Date] object: the instant it holds, in milliseconds, or the
    Invalid Date. *)
Inductive Date :=
| Instant (ms : Z)
| InvalidDate.

(** ** Local entities ([src/lib/types], reconstructed from their use) *)

Module Pillar.
Record t := mk {
  id : string;
  name : string;
  description : option string;
  weight : Z;
  progress : Z }.
End Pillar.

Module Metric.
Record t := mk {
  id : string;
  name : string;
  unit : string;
  type : string;
  target : option Z;
  targetDirection : option string;
  current : option Z;
  history : list Z;
  source : string;
  pillarId : option string }.
End Metric.

Inductive Frequency := daily | weekly | monthly.

Module Ritual.
Record t := mk {
  id : string;
  name : string;
  description : option string;
  frequency : Frequency;
  daysOfWeek : option (list Z);
  timesPerPeriod : Z;
  currentStreak : Z;
  longestStreak : Z;
  completionsThisPeriod : Z;
  completionHistory : list Z;
  pillarId : option string;
  estimatedMinutes : option Z }.
End Ritual.

Module Timeframe.
Record t := mk {
  startDate : Date;
  endDate : option Date;
  dailyCommitmentMinutes : Z }.
End Timeframe.

Module Objective.
Record t := mk {
  id : string;
  name : string;
  category : string;
  description : string;
  targetOutcome : string;
  pillars : list Pillar.t;
  metrics : list Metric.t;
  rituals : list Ritual.t;
  timeframe : Timeframe.t;
  status : string;
  priority : Z;
  isPaused : bool;
  createdAt : Date;
  updatedAt : Date }.
End Objective.

(** Status of a task on the server. *)
Inductive ApiStatus := pending | in_progress | completed | skipped.

(** Status of a local task: the server's four, or the local-only
    ['overdue']. *)
Inductive TaskStatus := shared (s : ApiStatus) | overdue.

Module Task.
Record t := mk {
  id : string;
  objectiveId : string;
  pillarId : option string;
  ritualId : option string;
  title : string;
  description : option string;
  whyItMatters : option string;
  scheduledAt : Date;
  durationMinutes : Z;
  status : TaskStatus;
  completedAt : option Date;
  skippedReason : option string }.
End Task.

(** ** Wire types of the API client ([src/lib/api/client]) *)

Module ApiPillar.
Record t := mk {
  id : string;
  objectiveId : string;
  name : string;
  description : option string;
  weight : Z;
  progress : Z }.
End ApiPillar.

Module ApiMetric.
Record t := mk {
  id : string;
  objectiveId : string;
  pillarId : option string;
  name : string;
  unit : string;
  type : string;
  target : option Z;
  targetDirection : option string;
  current : option Z;
  source : string }.
End ApiMetric.

Module ApiRitual.
Record t := mk {
  id : string;
  objectiveId : string;
  pillarId : option string;
  name : string;
  description : option string;
  frequency : Frequency;
  daysOfWeek : option (list Z);
  timesPerPeriod : Z;
  estimatedMinutes : option Z;
  currentStreak : Z;
  longestStreak : Z }.
End ApiRitual.

Module ApiObjective.
Record t := mk {
  id : string;
  userId : string;
  name : string;
  category : string;
  description : option string;
  targetOutcome : option string;
  startDate : Date;
  endDate : option Date;
  dailyCommitmentMinutes : option Z;
  status : string;
  priority : option Z;
  isPaused : option bool;
  createdAt : Date;
  updatedAt : Date;
  pillars : option (list ApiPillar.t);
  metrics : option (list ApiMetric.t);
  rituals : option (list ApiRitual.t) }.
End ApiObjective.

Module ApiTask.
Record t := mk {
  id : string;
  userId : string;
  objectiveId : string;
  pillarId : option string;
  ritualId : option string;
  title : string;
  description : option string;
  whyItMatters : option string;
  scheduledAt : Date;
  durationMinutes : Z;
  status : ApiStatus;
  completedAt : option Date;
  skippedReason : option string }.
End ApiTask.

(** Payloads as [syncObjectives] and [syncTasks] build them. *)

Module NewPillar.
Record t := mk {
  id : string;
  name : string;
  description : option string;
  weight : Z;
  progress : Z }.
End NewPillar.

Module NewMetric.
Record t := mk {
  id : string;
  name : string;
  unit : string;
  type : string;
  target : option Z;
  targetDirection : option string;
  current : option Z;
  source : string;
  pillarId : option string }.
End NewMetric.

Module NewRitual.
Record t := mk {
  id : string;
  name : string;
  description : option string;
  frequency : Frequency;
  daysOfWeek : option (list Z);
  timesPerPeriod : Z;
  estimatedMinutes : option Z;
  pillarId : option string }.
End NewRitual.

Module CreateObjectiveData.
Record t := mk {
  id : string;
  name : string;
  category : string;
  description : string;
  targetOutcome : string;
  endDate : option Z;
  dailyCommitmentMinutes : Z;
  pillars : list NewPillar.t;
  metrics : list NewMetric.t;
  rituals : list NewRitual.t }.
End CreateObjectiveData.

Module CreateTaskData.
Record t := mk {
  id : string;
  objectiveId : string;
  pillarId : option string;
  ritualId : option string;
  title : string;
  description : option string;
  whyItMatters : option string;
  scheduledAt : Z;
  durationMinutes : Z }.
End CreateTaskData.

Module UpdateTaskData.
Record t := mk {
  status : ApiStatus;
  completedAt : option Z;
  skippedReason : option string }.
End UpdateTaskData.

(** ** Sync status *)

Inductive SyncStatus := idle | syncing | success | error.

Module SyncState.
Record t := mk {
  status : SyncStatus;
  lastSyncAt : option Z;
  error : option string }.
End SyncState.

Module SyncResult.
Record t := mk {
  success : bool;
  error : option string }.
End SyncResult.

(** ** The world outside the service *)

(** Outcome of an awaited call: a value, or a thrown [Error] with its
    message. *)
Inductive Result (A : Type) :=
| Ok (a : A)
| Threw (message : string).
Arguments Ok {A} a.
Arguments Threw {A} message.

(** Response of [api.createObjective]; the service tests
    [result.objective] before it registers anything. *)
Module Created.
Record t := mk { objective : option ApiObjective.t }.
End Created.

(** The collaborators the service calls, over a world [W] they may read
    and change: the API client, [generateId] of [src/lib/utils/id] and the
    clock behind [new Date()]. [isoDay] is
    [d.toISOString().split('T')[0]] and [toLowerCase] is the platform's
    [String.prototype.toLowerCase]; nothing is assumed of either. *)
Record Api (W : Type) := {
  getObjectives : W -> W * Result (list ApiObjective.t);
  getObjective : string -> W -> W * Result ApiObjective.t;
  createObjective : CreateObjectiveData.t -> W -> W * Result Created.t;
  getTasks : string -> W -> W * Result (list ApiTask.t);
  createTask : CreateTaskData.t -> W -> W * Result unit;
  updateTask : string -> UpdateTaskData.t -> W -> W * Result unit;
  generateId : W -> W * string;
  now : W -> W * Z;
  isoDay : Z -> string;
  toLowerCase : string -> string }.
Arguments getObjectives {W}.
Arguments getObjective {W}.
Arguments createObjective {W}.
Arguments getTasks {W}.
Arguments createTask {W}.
Arguments updateTask {W}.
Arguments generateId {W}.
Arguments now {W}.
Arguments isoDay {W}.
Arguments toLowerCase {W}.

(** What an observer of the service sees: every request with the local
    entity it was issued for and whether it returned ([true]) or threw,
    and every snapshot handed to the listeners. *)
Inductive Event :=
| GetObjectives (ok : bool)
| CreateObjective (local : Objective.t) (data : CreateObjectiveData.t) (ok : bool)
| GetObjective (id : string) (ok : bool)
| GetTasks (date : string) (ok : bool)
| CreateTask (local : Task.t) (data : CreateTaskData.t) (ok : bool)
| UpdateTask (local : Task.t) (id : string) (data : UpdateTaskData.t) (ok : bool)
| Notify (state : SyncState.t).

(** [d.toISOString()]: a [RangeError] on the Invalid Date. The text of
    that error depends on the engine; the service never reads it. *)
Definition invalidTime : string := "Invalid time value".

Definition toISOString (d : Date) : Result Z :=
  match d with
  | Instant ms => Ok ms
  | InvalidDate => Threw invalidTime
  end.

(** [d?.toISOString()] *)
Definition optISOString (d : option Date) : Result (option Z) :=
  match d with
  | Some d' =>
      match toISOString d' with
      | Ok iso => Ok (Some iso)
      | Threw e => Threw e
      end
  | None => Ok None
  end.

Definition isOk {A : Type} (r : Result A) : bool :=
  match r with
  | Ok _ => true
  | Threw _ => false
  end.

(** The module-level state of the service and the stores it reads. *)
Record Store := {
  objectives : list Objective.t;
  tasks : list Task.t;
  idMapping : gmap string string;
  syncState : SyncState.t;
  isAuthenticated : bool }.

(** State at module load: nothing synced, nothing mapped. *)
Definition initialSyncState : SyncState.t :=
  SyncState.mk idle None None.

Definition loaded (objs : list Objective.t) (ts : list Task.t) (auth : bool) : Store :=
  {| objectives := objs; tasks := ts; idMapping := ∅;
     syncState := initialSyncState; isAuthenticated := auth |}.

Definition setMapping (f : gmap string string -> gmap string string) (s : Store) : Store :=
  {| objectives := objectives s; tasks := tasks s; idMapping := f (idMapping s);
     syncState := syncState s; isAuthenticated := isAuthenticated s |}.

Definition setSyncState (st : SyncState.t) (s : Store) : Store :=
  {| objectives := objectives s; tasks := tasks s; idMapping := idMapping s;
     syncState := st; isAuthenticated := isAuthenticated s |}.

(** Modelled from the spec: [addObjective] of the objective store
    ([src/lib/store] is absent): "write access to append newly-downloaded
    entities". *)
Definition addObjective (o : Objective.t) (s : Store) : Store :=
  {| objectives := objectives s ++ [o]; tasks := tasks s; idMapping := idMapping s;
     syncState := syncState s; isAuthenticated := isAuthenticated s |}.

(** Modelled from the spec: [addTasks] of the task store, an append. *)
Definition addTasks (ts : list Task.t) (s : Store) : Store :=
  {| objectives := objectives s; tasks := tasks s ++ ts; idMapping := idMapping s;
     syncState := syncState s; isAuthenticated := isAuthenticated s |}.

(** ** A state-and-exception monad for the async functions *)

Section Service.

Context {W : Type} (api : Api W).

Record Machine := {
  store : Store;
  world : W;
  trace : list Event }.

Definition M (A : Type) : Type := Machine -> Machine * Result A.

Definition ret {A : Type} (a : A) : M A := fun m => (m, Ok a).

Definition bind {A B : Type} (c : M A) (k : A -> M B) : M B :=
  fun m =>
    match c m with
    | (m', Ok a) => k a m'
    | (m', Threw e) => (m', Threw e)
    end.

Definition throw {A : Type} (e : string) : M A := fun m => (m, Threw e).

(** [try { c } catch (error) { h }] *)
Definition tryCatch {A : Type} (c : M A) (h : string -> M A) : M A :=
  fun m =>
    match c m with
    | (m', Ok a) => (m', Ok a)
    | (m', Threw e) => h e m'
    end.

Definition getStore : M Store := fun m => (m, Ok (store m)).

Definition modifyStore (f : Store -> Store) : M unit :=
  fun m => ({| store := f (store m); world := world m; trace := trace m |}, Ok tt).

Definition emit (e : Event) : M unit :=
  fun m => ({| store := store m; world := world m; trace := trace m ++ [e] |}, Ok tt).

(** An awaited request: the world answers, the observer records the
    request with its outcome, and a thrown error propagates. *)
Definition request {A : Type} (call : W -> W * Result A) (ev : bool -> Event) : M A :=
  fun m =>
    let (w', r) := call (world m) in
    ({| store := store m; world := w'; trace := trace m ++ [ev (isOk r)] |}, r).

(** The evaluation of an expression that may throw. *)
Definition attempt {A : Type} (r : Result A) : M A := fun m => (m, r).

(** A collaborator that cannot fail ([generateId], [new Date()]). *)
Definition ask {A : Type} (call : W -> W * A) : M A :=
  fun m =>
    let (w', a) := call (world m) in
    ({| store := store m; world := w'; trace := trace m |}, Ok a).

End Service.

Arguments Machine W : clear implicits.
Arguments M W A : clear implicits.

Notation "'let*' x ':=' c 'in' k" := (bind c (fun x => k))
  (at level 10, x name, c at level 100, k at level 200).
Notation "c '>>' k" := (bind c (fun _ => k))
  (at level 100, k at level 200, right associativity).

Section Loops.

Context {W : Type}.

(** [for (const x of xs) body] with an accumulator (the [errors] array). *)
Fixpoint forAcc {X S : Type} (body : X -> S -> M W S) (xs : list X) (acc : S) : M W S :=
  match xs with
  | [] => ret acc
  | x :: rest => let* acc' := body x acc in forAcc body rest acc'
  end.

(** [for (const x of xs) body] *)
Definition forEach {X : Type} (body : X -> M W unit) (xs : list X) : M W unit :=
  forAcc (fun x _ => body x) xs tt.

(** [xs.map(f)] where [f] may draw from a collaborator. *)
Fixpoint mapM {X Y : Type} (f : X -> M W Y) (xs : list X) : M W (list Y) :=
  match xs with
  | [] => ret []
  | x :: rest => let* y := f x in let* ys := mapM f rest in ret (y :: ys)
  end.

End Loops.

(** ** Child reconciliation by name: [mapPillarsAndRituals] *)

Section Names.

(** The platform's [toLowerCase]. *)
Variable lower : string -> string.

(** [remote.children?.find(r => r.name.toLowerCase() === n.toLowerCase())] *)
Definition findByName {R : Type} (nameOf : R -> string)
    (children : option (list R)) (n : string) : option R :=
  match children with
  | Some rs =>
      List.find (fun r => String.eqb (lower (nameOf r)) (lower n)) rs
  | None => None
  end.

(** One of the three loops of [mapPillarsAndRituals]. *)
Definition mapByName {L R : Type} (lid lname : L -> string) (rid rname : R -> string)
    (locals : list L) (remotes : option (list R))
    (m : gmap string string) : gmap string string :=
  foldl (fun acc l =>
           match findByName rname remotes (lname l) with
           | Some r => <[lid l := rid r]> acc
           | None => acc
           end) m locals.

Definition mapPillarsAndRituals (local : Objective.t) (remote : ApiObjective.t)
    (m : gmap string string) : gmap string string :=
  let m1 := mapByName Pillar.id Pillar.name ApiPillar.id ApiPillar.name
              (Objective.pillars local) (ApiObjective.pillars remote) m in
  let m2 := mapByName Metric.id Metric.name ApiMetric.id ApiMetric.name
              (Objective.metrics local) (ApiObjective.metrics remote) m1 in
  mapByName Ritual.id Ritual.name ApiRitual.id ApiRitual.name
    (Objective.rituals local) (ApiObjective.rituals remote) m2.

(** The remote index by lower-cased name, line 163. *)
Definition indexByName (remoteObjectives : list ApiObjective.t) : gmap string ApiObjective.t :=
  jsMap ((fun o => (lower (ApiObjective.name o), o)) <$> remoteObjectives).

End Names.

(** ** Payload construction *)

(** [mappings.forEach(pm => idMapping.set(pm.localId, pm.serverId))];
    a mapping is the pair (localId, serverId). *)
Definition registerAll (mappings : list (string * string))
    (m : gmap string string) : gmap string string :=
  foldl (fun acc pm => <[pm.1 := pm.2]> acc) m mappings.

(** [ref ? pillarMappings.find(pm => pm.localId === ref)?.serverId : undefined] *)
Definition resolvePillar (pillarMappings : list (string * string))
    (ref : option string) : option string :=
  match ref with
  | Some p =>
      if Str.truthy p
      then snd <$> List.find (fun pm => String.eqb pm.1 p) pillarMappings
      else None
  | None => None
  end.

Definition newPillar (p : Pillar.t) (pm : string * string) : NewPillar.t :=
  NewPillar.mk pm.2 (Pillar.name p) (Pillar.description p)
    (Pillar.weight p) (Pillar.progress p).

Definition newMetric (pillarMappings : list (string * string))
    (x : Metric.t) (mm : string * string) : NewMetric.t :=
  NewMetric.mk mm.2 (Metric.name x) (Metric.unit x) (Metric.type x)
    (Metric.target x) (Metric.targetDirection x) (Metric.current x)
    (Metric.source x) (resolvePillar pillarMappings (Metric.pillarId x)).

Definition newRitual (pillarMappings : list (string * string))
    (r : Ritual.t) (rm : string * string) : NewRitual.t :=
  NewRitual.mk rm.2 (Ritual.name r) (Ritual.description r) (Ritual.frequency r)
    (Ritual.daysOfWeek r) (Ritual.timesPerPeriod r) (Ritual.estimatedMinutes r)
    (resolvePillar pillarMappings (Ritual.pillarId r)).

(** The argument of [api.createObjective] at lines 208-244; building it
    throws when the end date cannot be printed (line 214). *)
Definition createObjectivePayload (local : Objective.t) (objectiveId : string)
    (pillarMappings metricMappings ritualMappings : list (string * string))
    : Result CreateObjectiveData.t :=
  match optISOString (Timeframe.endDate (Objective.timeframe local)) with
  | Ok endDate =>
      Ok (CreateObjectiveData.mk objectiveId (Objective.name local)
            (Objective.category local) (Objective.description local)
            (Objective.targetOutcome local)
            endDate
            (Timeframe.dailyCommitmentMinutes (Objective.timeframe local))
            (zip_with newPillar (Objective.pillars local) pillarMappings)
            (zip_with (newMetric pillarMappings) (Objective.metrics local) metricMappings)
            (zip_with (newRitual pillarMappings) (Objective.rituals local) ritualMappings))
  | Threw e => Threw e
  end.

(** [x || d] on an optional number. *)
Definition orZ (x : option Z) (d : Z) : Z :=
  match x with
  | Some v => if v =? 0 then d else v
  | None => d
  end.

Definition pillarOfApi (p : ApiPillar.t) : Pillar.t :=
  Pillar.mk (ApiPillar.id p) (ApiPillar.name p) (ApiPillar.description p)
    (ApiPillar.weight p) (ApiPillar.progress p).

Definition metricOfApi (x : ApiMetric.t) : Metric.t :=
  Metric.mk (ApiMetric.id x) (ApiMetric.name x) (ApiMetric.unit x)
    (ApiMetric.type x) (ApiMetric.target x) (ApiMetric.targetDirection x)
    (ApiMetric.current x) [] (ApiMetric.source x) (ApiMetric.pillarId x).

Definition ritualOfApi (r : ApiRitual.t) : Ritual.t :=
  Ritual.mk (ApiRitual.id r) (ApiRitual.name r) (ApiRitual.description r)
    (ApiRitual.frequency r) (ApiRitual.daysOfWeek r) (ApiRitual.timesPerPeriod r)
    (ApiRitual.currentStreak r) (ApiRitual.longestStreak r) 0 []
    (ApiRitual.pillarId r) (ApiRitual.estimatedMinutes r).

(** The local objective built from a fetched detail, lines 268-317. *)
Definition localObjectiveOf (fullObjective : ApiObjective.t) : Objective.t :=
  Objective.mk (ApiObjective.id fullObjective) (ApiObjective.name fullObjective)
    (ApiObjective.category fullObjective)
    (default EmptyString (orElse (ApiObjective.description fullObjective) None))
    (default EmptyString (orElse (ApiObjective.targetOutcome fullObjective) None))
    (pillarOfApi <$> default [] (ApiObjective.pillars fullObjective))
    (metricOfApi <$> default [] (ApiObjective.metrics fullObjective))
    (ritualOfApi <$> default [] (ApiObjective.rituals fullObjective))
    (Timeframe.mk (ApiObjective.startDate fullObjective)
       (ApiObjective.endDate fullObjective)
       (orZ (ApiObjective.dailyCommitmentMinutes fullObjective) 60))
    (ApiObjective.status fullObjective)
    (orZ (ApiObjective.priority fullObjective) 1)
    (default false (ApiObjective.isPaused fullObjective))
    (ApiObjective.createdAt fullObjective)
    (ApiObjective.updatedAt fullObjective).

Definition uploadObjectiveError (local : Objective.t) : string :=
  "Failed to upload objective " +:+ Str.quote +:+ Objective.name local +:+ Str.quote.

Definition uploadTaskError (local : Task.t) : string :=
  "Failed to upload task " +:+ Str.quote +:+ Task.title local +:+ Str.quote.

(** The two remote indexes and the local one, lines 163-165. *)
Definition indexById (remoteObjectives : list ApiObjective.t) : gmap string ApiObjective.t :=
  jsMap ((fun o => (ApiObjective.id o, o)) <$> remoteObjectives).

Definition indexLocal (localObjectives : list Objective.t) : gmap string Objective.t :=
  jsMap ((fun o => (Objective.id o, o)) <$> localObjectives).

(** The identifiers minted for one upload, lines 189-203. *)
Module Minted.
Record t := mk {
  objectiveId : string;
  pillarMappings : list (string * string);
  metricMappings : list (string * string);
  ritualMappings : list (string * string) }.
End Minted.

Definition payloadOf (local : Objective.t) (ids : Minted.t)
    : Result CreateObjectiveData.t :=
  createObjectivePayload local (Minted.objectiveId ids) (Minted.pillarMappings ids)
    (Minted.metricMappings ids) (Minted.ritualMappings ids).

(** The four registrations of lines 247-250. *)
Definition registerMinted (local : Objective.t) (ids : Minted.t)
    (m : gmap string string) : gmap string string :=
  registerAll (Minted.ritualMappings ids)
    (registerAll (Minted.metricMappings ids)
       (registerAll (Minted.pillarMappings ids)
          (<[Objective.id local := Minted.objectiveId ids]> m))).

(** ** The service *)

Section Sync.

Context {W : Type} (api : Api W).

(** [isValidUUID(id) ? id : generateId()] *)
Definition mintId (localId : string) : M W string :=
  if isValidUUID localId then ret localId else ask (generateId api).

(** [xs.map(x => ({ localId: x.id, serverId: ... }))] *)
Definition mintAll {X : Type} (idOf : X -> string) (xs : list X)
    : M W (list (string * string)) :=
  mapM (fun x => let* serverId := mintId (idOf x) in ret (idOf x, serverId)) xs.

Definition mintIds (local : Objective.t) : M W Minted.t :=
  let* objectiveId := mintId (Objective.id local) in
  let* pillarMappings := mintAll Pillar.id (Objective.pillars local) in
  let* metricMappings := mintAll Metric.id (Objective.metrics local) in
  let* ritualMappings := mintAll Ritual.id (Objective.rituals local) in
  ret (Minted.mk objectiveId pillarMappings metricMappings ritualMappings).

(** [listeners.forEach(listener => listener(syncState))] *)
Definition notifyListeners : M W unit :=
  let* s := getStore in emit (Notify (syncState s)).

(** The [try]/[catch] of lines 207-257. *)
Definition submitObjective (local : Objective.t) (ids : Minted.t)
    (errors : list string) : M W (list string) :=
  tryCatch
    (let* data := attempt (payloadOf local ids) in
     let* result := request (createObjective api data) (CreateObjective local data) in
     match Created.objective result with
     | Some _ => modifyStore (setMapping (registerMinted local ids)) >> ret errors
     | None => ret errors
     end)
    (fun _ => ret (errors ++ [uploadObjectiveError local])).

(** Body of the first loop of [syncObjectives], lines 168-258. *)
Definition uploadObjectiveStep
    (remoteMap remoteByName : gmap string ApiObjective.t)
    (local : Objective.t) (errors : list string) : M W (list string) :=
  match remoteMap !! Objective.id local with
  | Some remoteObj =>
      modifyStore (setMapping (fun m =>
        mapPillarsAndRituals (toLowerCase api) local remoteObj
          (<[Objective.id local := Objective.id local]> m))) >>
      ret errors
  | None =>
      match remoteByName !! toLowerCase api (Objective.name local) with
      | Some existingByName =>
          modifyStore (setMapping (fun m =>
            mapPillarsAndRituals (toLowerCase api) local existingByName
              (<[Objective.id local := ApiObjective.id existingByName]> m))) >>
          ret errors
      | None =>
          let* ids := mintIds local in
          submitObjective local ids errors
      end
  end.

(** Body of the second loop of [syncObjectives], lines 261-323. *)
Definition downloadObjectiveStep (localMap : gmap string Objective.t)
    (remoteObj : ApiObjective.t) : M W unit :=
  match localMap !! ApiObjective.id remoteObj with
  | Some _ => ret tt
  | None =>
      let* fullObjective := request (getObjective api (ApiObjective.id remoteObj))
                              (GetObjective (ApiObjective.id remoteObj)) in
      let localObjective := localObjectiveOf fullObjective in
      modifyStore (addObjective localObjective) >>
      modifyStore (setMapping
        (<[Objective.id localObjective := Objective.id localObjective]>))
  end.

Definition uploadObjectives (remoteObjectives : list ApiObjective.t)
    (localObjectives : list Objective.t) : M W (list string) :=
  forAcc (uploadObjectiveStep (indexById remoteObjectives)
            (indexByName (toLowerCase api) remoteObjectives))
    localObjectives [].

Definition downloadObjectives (remoteObjectives : list ApiObjective.t)
    (localObjectives : list Objective.t) : M W unit :=
  forEach (downloadObjectiveStep (indexLocal localObjectives)) remoteObjectives.

Definition syncObjectives : M W (list string) :=
  let* s := getStore in
  let localObjectives := objectives s in
  let* remoteObjectives := request (getObjectives api) GetObjectives in
  let* errors := uploadObjectives remoteObjectives localObjectives in
  downloadObjectives remoteObjectives localObjectives >>
  ret errors.

(** [local.status === 'overdue' ? 'pending' : local.status] *)
Definition apiStatusOf (s : TaskStatus) : ApiStatus :=
  match s with
  | overdue => pending
  | shared st => st
  end.

Definition apiStatus_eqb (a b : ApiStatus) : bool :=
  match a, b with
  | pending, pending | in_progress, in_progress
  | completed, completed | skipped, skipped => true
  | _, _ => false
  end.

(** [ref ? idMapping.get(ref) || (isValidUUID(ref) ? ref : undefined) : undefined] *)
Definition resolveRef (m : gmap string string) (ref : option string) : option string :=
  match ref with
  | Some r =>
      if Str.truthy r
      then orElse (m !! r) (if isValidUUID r then Some r else None)
      else None
  | None => None
  end.

(** The argument of [api.createTask] at lines 372-382; building it
    throws when the schedule cannot be printed (line 380). *)
Definition createTaskPayload (local : Task.t) (taskId serverObjectiveId : string)
    (pillarId ritualId : option string) : Result CreateTaskData.t :=
  match toISOString (Task.scheduledAt local) with
  | Ok scheduledAt =>
      Ok (CreateTaskData.mk taskId serverObjectiveId pillarId ritualId
            (Task.title local) (Task.description local) (Task.whyItMatters local)
            scheduledAt (Task.durationMinutes local))
  | Threw e => Threw e
  end.

Definition indexTasks (remoteTasks : list ApiTask.t) : gmap string ApiTask.t :=
  jsMap ((fun x => (ApiTask.id x, x)) <$> remoteTasks).

Definition indexLocalTasks (localTasks : list Task.t) : gmap string Task.t :=
  jsMap ((fun x => (Task.id x, x)) <$> localTasks).

(** Body of the upload loop of [syncTasks], lines 345-389. *)
Definition uploadTaskStep (remoteMap : gmap string ApiTask.t)
    (local : Task.t) (errors : list string) : M W (list string) :=
  match remoteMap !! Task.id local with
  | Some _ => ret errors
  | None =>
      let* s := getStore in
      match orElse (idMapping s !! Task.objectiveId local) None with
      | None => ret errors
      | Some serverObjectiveId =>
          let* taskId := mintId (Task.id local) in
          let pillarId := resolveRef (idMapping s) (Task.pillarId local) in
          let ritualId := resolveRef (idMapping s) (Task.ritualId local) in
          tryCatch
            (let* data := attempt (createTaskPayload local taskId serverObjectiveId
                                     pillarId ritualId) in
             request (createTask api data) (CreateTask local data) >> ret errors)
            (fun _ => ret (errors ++ [uploadTaskError local]))
      end
  end.

(** The second argument of [api.updateTask] at lines 401-405; building
    it throws when the completion date cannot be printed (line 403). *)
Definition updateTaskPayload (local : Task.t) : Result UpdateTaskData.t :=
  match optISOString (Task.completedAt local) with
  | Ok completedAt =>
      Ok (UpdateTaskData.mk (apiStatusOf (Task.status local))
            completedAt (Task.skippedReason local))
  | Threw e => Threw e
  end.

(** Body of the status loop of [syncTasks], lines 392-411. *)
Definition statusStep (remoteMap : gmap string ApiTask.t) (local : Task.t) : M W unit :=
  match remoteMap !! Task.id local with
  | Some remoteTask =>
      if negb (apiStatus_eqb (apiStatusOf (Task.status local)) (ApiTask.status remoteTask))
      then
        tryCatch
          (let* data := attempt (updateTaskPayload local) in
           request (updateTask api (Task.id local) data)
             (UpdateTask local (Task.id local) data))
          (fun _ => ret tt)
      else ret tt
  | None => ret tt
  end.

Definition localTaskOf (remoteTask : ApiTask.t) : Task.t :=
  Task.mk (ApiTask.id remoteTask) (ApiTask.objectiveId remoteTask)
    (ApiTask.pillarId remoteTask) (ApiTask.ritualId remoteTask)
    (ApiTask.title remoteTask) (ApiTask.description remoteTask)
    (ApiTask.whyItMatters remoteTask) (ApiTask.scheduledAt remoteTask)
    (ApiTask.durationMinutes remoteTask) (shared (ApiTask.status remoteTask))
    (ApiTask.completedAt remoteTask) (ApiTask.skippedReason remoteTask).

(** Body of the download loop of [syncTasks], lines 414-435. *)
Definition downloadTaskStep (localMap : gmap string Task.t)
    (remoteTask : ApiTask.t) : M W unit :=
  match localMap !! ApiTask.id remoteTask with
  | Some _ => ret tt
  | None => modifyStore (addTasks [localTaskOf remoteTask])
  end.

(** The three loops of [syncTasks] on the fetched list. *)
Definition reconcileTasks (remoteTasks : list ApiTask.t) (localTasks : list Task.t)
    : M W (list string) :=
  let* errors := forAcc (uploadTaskStep (indexTasks remoteTasks)) localTasks [] in
  forEach (statusStep (indexTasks remoteTasks)) localTasks >>
  forEach (downloadTaskStep (indexLocalTasks localTasks)) remoteTasks >>
  ret errors.

Definition syncTasks : M W (list string) :=
  let* s := getStore in
  let localTasks := tasks s in
  let* d := ask (now api) in
  let today := isoDay api d in
  let* remoteTasks := request (getTasks api today) (GetTasks today) in
  reconcileTasks remoteTasks localTasks.

(** [`${errors.length} item(s) failed to sync`] *)
Definition failedCount (errors : list string) : string :=
  pretty (length errors) +:+ " item(s) failed to sync".

(** The state assigned at lines 119-123. *)
Definition finishedState (errors : list string) (at_ : Z) : SyncState.t :=
  SyncState.mk
    (if (0 <? length errors)%nat then error else success)
    (Some at_)
    (if (0 <? length errors)%nat then Some (failedCount errors) else None).

(** The value returned at lines 126-135. *)
Definition finishedResult (errors : list string) : SyncResult.t :=
  if (0 <? length errors)%nat
  then SyncResult.mk false (Some (failedCount errors +:+ ". Check console for details."))
  else SyncResult.mk true None.

(** [errors = errors.concat(more)] under [if (more.length > 0)]. *)
Definition concatIfAny (errors more : list string) : list string :=
  if (0 <? length more)%nat then errors ++ more else errors.

(** The [try] block of [syncAll], lines 107-135. *)
Definition syncBoth : M W SyncResult.t :=
  let* objResult := syncObjectives in
  let errors := concatIfAny [] objResult in
  let* taskResult := syncTasks in
  let errors := concatIfAny errors taskResult in
  let* at_ := ask (now api) in
  modifyStore (setSyncState (finishedState errors at_)) >>
  notifyListeners >>
  ret (finishedResult errors).

(** The [catch] block of [syncAll], lines 136-147. *)
Definition syncFailed (message : string) : M W SyncResult.t :=
  modifyStore (fun s => setSyncState
    (SyncState.mk error (SyncState.lastSyncAt (syncState s)) (Some message)) s) >>
  notifyListeners >>
  ret (SyncResult.mk false (Some message)).

(** The transition to ['syncing'], lines 101-102. *)
Definition beginSync : M W unit :=
  modifyStore (fun s => setSyncState
    (SyncState.mk syncing (SyncState.lastSyncAt (syncState s)) None) s) >>
  notifyListeners.

Definition syncAll : M W SyncResult.t :=
  let* s := getStore in
  if negb (isAuthenticated s)
  then ret (SyncResult.mk false (Some "Not authenticated"))
  else beginSync >> tryCatch syncBoth syncFailed.

(** One reconciliation pass: the objective phase, then the task phase. *)
Definition reconcile : M W (list string * list string) :=
  let* objErrors := syncObjectives in
  let* taskErrors := syncTasks in
  ret (objErrors, taskErrors).

End Sync.

(** ** An in-memory backend

    The backend is not part of the repository. For scenarios that need
    one, this is the simplest store behind the client's endpoints: a
    creation request stores the entity under the identifier it carries, a
    listing returns what is stored, and an endpoint marked as out of reach
    throws the client's network error. *)

Module Backend.

Inductive Endpoint :=
| listObjectives | objectiveDetail | postObjective
| listTasks | postTask | patchTask.

Record World := {
  srvObjectives : list ApiObjective.t;
  srvTasks : list ApiTask.t;
  supply : list string;
  clock : Z;
  outage : Endpoint -> bool }.

Definition unreachable : string :=
  "Unable to connect to server. Please check your internet connection.".

Definition spareId : string := "ffffffff-ffff-4fff-8fff-ffffffffffff".

Definition guarded {A : Type} (ep : Endpoint) (serve : World -> World * Result A)
    (w : World) : World * Result A :=
  if outage w ep then (w, Threw unreachable) else serve w.

Definition storedPillar (objectiveId : string) (p : NewPillar.t) : ApiPillar.t :=
  ApiPillar.mk (NewPillar.id p) objectiveId (NewPillar.name p)
    (NewPillar.description p) (NewPillar.weight p) (NewPillar.progress p).

Definition storedMetric (objectiveId : string) (x : NewMetric.t) : ApiMetric.t :=
  ApiMetric.mk (NewMetric.id x) objectiveId (NewMetric.pillarId x) (NewMetric.name x)
    (NewMetric.unit x) (NewMetric.type x) (NewMetric.target x)
    (NewMetric.targetDirection x) (NewMetric.current x) (NewMetric.source x).

Definition storedRitual (objectiveId : string) (r : NewRitual.t) : ApiRitual.t :=
  ApiRitual.mk (NewRitual.id r) objectiveId (NewRitual.pillarId r) (NewRitual.name r)
    (NewRitual.description r) (NewRitual.frequency r) (NewRitual.daysOfWeek r)
    (NewRitual.timesPerPeriod r) (NewRitual.estimatedMinutes r) 0 0.

Definition storedObjective (at_ : Z) (data : CreateObjectiveData.t) : ApiObjective.t :=
  let oid := CreateObjectiveData.id data in
  ApiObjective.mk oid "user" (CreateObjectiveData.name data)
    (CreateObjectiveData.category data)
    (Some (CreateObjectiveData.description data))
    (Some (CreateObjectiveData.targetOutcome data))
    (Instant at_) (Instant <$> CreateObjectiveData.endDate data)
    (Some (CreateObjectiveData.dailyCommitmentMinutes data))
    "on_track" None None (Instant at_) (Instant at_)
    (Some (storedPillar oid <$> CreateObjectiveData.pillars data))
    (Some (storedMetric oid <$> CreateObjectiveData.metrics data))
    (Some (storedRitual oid <$> CreateObjectiveData.rituals data)).

Definition storedTask (data : CreateTaskData.t) : ApiTask.t :=
  ApiTask.mk (CreateTaskData.id data) "user" (CreateTaskData.objectiveId data)
    (CreateTaskData.pillarId data) (CreateTaskData.ritualId data)
    (CreateTaskData.title data) (CreateTaskData.description data)
    (CreateTaskData.whyItMatters data) (Instant (CreateTaskData.scheduledAt data))
    (CreateTaskData.durationMinutes data) pending None None.

Definition withObjectives (os : list ApiObjective.t) (w : World) : World :=
  {| srvObjectives := os; srvTasks := srvTasks w; supply := supply w;
     clock := clock w; outage := outage w |}.

Definition withTasks (ts : list ApiTask.t) (w : World) : World :=
  {| srvObjectives := srvObjectives w; srvTasks := ts; supply := supply w;
     clock := clock w; outage := outage w |}.

Definition withOutage (f : Endpoint -> bool) (w : World) : World :=
  {| srvObjectives := srvObjectives w; srvTasks := srvTasks w; supply := supply w;
     clock := clock w; outage := f |}.

(** Day number since the epoch, standing for the [YYYY-MM-DD] prefix. *)
Definition day (instant : Z) : string := pretty (instant `div` 86400000).

(** The task is scheduled on the day [date]. *)
Definition scheduledOn (date : string) (x : ApiTask.t) : bool :=
  match ApiTask.scheduledAt x with
  | Instant ms => String.eqb (day ms) date
  | InvalidDate => false
  end.

Definition patched (id : string) (data : UpdateTaskData.t) (x : ApiTask.t) : ApiTask.t :=
  if String.eqb (ApiTask.id x) id
  then ApiTask.mk (ApiTask.id x) (ApiTask.userId x) (ApiTask.objectiveId x)
         (ApiTask.pillarId x) (ApiTask.ritualId x) (ApiTask.title x)
         (ApiTask.description x) (ApiTask.whyItMatters x) (ApiTask.scheduledAt x)
         (ApiTask.durationMinutes x) (UpdateTaskData.status data)
         (Instant <$> UpdateTaskData.completedAt data) (UpdateTaskData.skippedReason data)
  else x.

Definition api : Api World := {|
  getObjectives := guarded listObjectives (fun w => (w, Ok (srvObjectives w)));
  getObjective := fun id => guarded objectiveDetail (fun w =>
    match List.find (fun o => String.eqb (ApiObjective.id o) id) (srvObjectives w) with
    | Some o => (w, Ok o)
    | None => (w, Threw "Objective not found")
    end);
  createObjective := fun data => guarded postObjective (fun w =>
    let o := storedObjective (clock w) data in
    (withObjectives (srvObjectives w ++ [o]) w, Ok (Created.mk (Some o))));
  getTasks := fun date => guarded listTasks (fun w =>
    (w, Ok (List.filter (scheduledOn date) (srvTasks w))));
  createTask := fun data => guarded postTask (fun w =>
    (withTasks (srvTasks w ++ [storedTask data]) w, Ok tt));
  updateTask := fun id data => guarded patchTask (fun w =>
    if existsb (fun x => String.eqb (ApiTask.id x) id) (srvTasks w)
    then (withTasks (patched id data <$> srvTasks w) w, Ok tt)
    else (w, Threw "Task not found"));
  generateId := fun w =>
    match supply w with
    | fresh :: rest =>
        ({| srvObjectives := srvObjectives w; srvTasks := srvTasks w; supply := rest;
            clock := clock w; outage := outage w |}, fresh)
    | [] => (w, spareId)
    end;
  now := fun w => (w, clock w);
  isoDay := day;
  toLowerCase := Str.toLowerCase |}.

Definition online : Endpoint -> bool := fun _ => false.

Definition start (os : list ApiObjective.t) (ts : list ApiTask.t)
    (ids : list string) (at_ : Z) : World :=
  {| srvObjectives := os; srvTasks := ts; supply := ids; clock := at_; outage := online |}.

Definition boot (s : Store) (w : World) : Machine World :=
  {| store := s; world := w; trace := [] |}.

(** The observer starts a fresh recording. *)
Definition rewind (m : Machine World) : Machine World :=
  {| store := store m; world := world m; trace := [] |}.

End Backend.

(** ** Sample entities for the scenarios *)

Module Sample.

Definition objective (id name : string) : Objective.t :=
  Objective.mk id name "health" "desc" "outcome" [] [] []
    (Timeframe.mk (Instant 0) None 30) "on_track" 1 false (Instant 0) (Instant 0).

Definition remoteObjective (id name : string) : ApiObjective.t :=
  ApiObjective.mk id "user" name "health" None None (Instant 0) None None "on_track"
    None None (Instant 0) (Instant 0) None None None.

Definition task (id objectiveId title : string) (st : TaskStatus) : Task.t :=
  Task.mk id objectiveId None None title None None (Instant 1000) 15 st None None.

Definition remoteTask (id objectiveId title : string) (st : ApiStatus) : ApiTask.t :=
  ApiTask.mk id "user" objectiveId None None title None None (Instant 1000) 15 st None None.

Definition uuid1 : string := "11111111-1111-4111-8111-111111111111".
Definition uuid2 : string := "22222222-2222-4222-8222-222222222222".
Definition uuid3 : string := "33333333-3333-4333-8333-333333333333".
Definition uuidA : string := "aaaaaaaa-aaaa-4aaa-8aaa-aaaaaaaaaaaa".
Definition uuidB : string := "BBBBBBBB-BBBB-4BBB-8BBB-BBBBBBBBBBBB".

End Sample.


(** * The rest of the sync service and its collaborators *)

(** ** Direct uploads: [uploadObjective] and [uploadTasks]

    These two exports post an entity as it is, without minting or
    resolving identifiers; their payloads carry no [id]. *)

Module PlainPillar.
Record t := mk {
  name : string;
  description : option string;
  weight : Z;
  progress : Z }.
End PlainPillar.

Module PlainMetric.
Record t := mk {
  name : string;
  unit : string;
  type : string;
  target : option Z;
  targetDirection : option string;
  current : option Z;
  source : string;
  pillarId : option string }.
End PlainMetric.

Module PlainRitual.
Record t := mk {
  name : string;
  description : option string;
  frequency : Frequency;
  daysOfWeek : option (list Z);
  timesPerPeriod : Z;
  estimatedMinutes : option Z;
  pillarId : option string }.
End PlainRitual.

Module PlainObjectiveData.
Record t := mk {
  name : string;
  category : string;
  description : string;
  targetOutcome : string;
  endDate : option Z;
  dailyCommitmentMinutes : Z;
  pillars : list PlainPillar.t;
  metrics : list PlainMetric.t;
  rituals : list PlainRitual.t }.
End PlainObjectiveData.

Module PlainTaskData.
Record t := mk {
  objectiveId : string;
  pillarId : option string;
  ritualId : option string;
  title : string;
  description : option string;
  whyItMatters : option string;
  scheduledAt : Z;
  durationMinutes : Z }.
End PlainTaskData.

(** The two endpoints as these exports call them. *)
Record Uploads (W : Type) := {
  postObjective : PlainObjectiveData.t -> W -> W * Result Created.t;
  postTask : PlainTaskData.t -> W -> W * Result unit }.
Arguments postObjective {W}.
Arguments postTask {W}.

(** A request of a direct upload, with the entity it was issued for and
    whether it returned. *)
Inductive Sent :=
| SentObjective (local : Objective.t) (data : PlainObjectiveData.t) (ok : bool)
| SentTask (local : Task.t) (data : PlainTaskData.t) (ok : bool).

(** The argument of [api.createObjective] at lines 448-480; building it
    throws when the end date cannot be printed (line 453). *)
Definition plainObjectivePayload (objective : Objective.t)
    : Result PlainObjectiveData.t :=
  match optISOString (Timeframe.endDate (Objective.timeframe objective)) with
  | Ok endDate =>
      Ok (PlainObjectiveData.mk (Objective.name objective) (Objective.category objective)
            (Objective.description objective) (Objective.targetOutcome objective)
            endDate
            (Timeframe.dailyCommitmentMinutes (Objective.timeframe objective))
            ((fun p => PlainPillar.mk (Pillar.name p) (Pillar.description p)
                         (Pillar.weight p) (Pillar.progress p))
               <$> Objective.pillars objective)
            ((fun x => PlainMetric.mk (Metric.name x) (Metric.unit x) (Metric.type x)
                         (Metric.target x) (Metric.targetDirection x) (Metric.current x)
                         (Metric.source x) (Metric.pillarId x))
               <$> Objective.metrics objective)
            ((fun r => PlainRitual.mk (Ritual.name r) (Ritual.description r)
                         (Ritual.frequency r) (Ritual.daysOfWeek r)
                         (Ritual.timesPerPeriod r) (Ritual.estimatedMinutes r)
                         (Ritual.pillarId r))
               <$> Objective.rituals objective))
  | Threw e => Threw e
  end.

(** The argument of [api.createTask] at lines 497-506; building it
    throws when the schedule cannot be printed (line 504). *)
Definition plainTaskPayload (task : Task.t) : Result PlainTaskData.t :=
  match toISOString (Task.scheduledAt task) with
  | Ok scheduledAt =>
      Ok (PlainTaskData.mk (Task.objectiveId task) (Task.pillarId task)
            (Task.ritualId task) (Task.title task) (Task.description task)
            (Task.whyItMatters task) scheduledAt (Task.durationMinutes task))
  | Threw e => Threw e
  end.

Section DirectUploads.

Context {W : Type} (up : Uploads W).

(** An awaited request of a direct upload; the world carries the record
    of what was sent. *)
Definition post {A : Type} (call : W -> W * Result A) (entry : bool -> Sent)
    : M (W * list Sent) A :=
  fun m =>
    let (w', r) := call (world m).1 in
    ({| store := store m; world := (w', (world m).2 ++ [entry (isOk r)]);
        trace := trace m |}, r).

(** [uploadObjective], lines 443-486: the failure is logged and thrown
    again. *)
Definition uploadObjective (objective : Objective.t) : M (W * list Sent) unit :=
  let* s := getStore in
  if negb (isAuthenticated s) then ret tt
  else
    tryCatch
      (let* data := attempt (plainObjectivePayload objective) in
       post (postObjective up data) (SentObjective objective data) >>
       ret tt)
      (fun e => throw e).

(** [uploadTasks], lines 491-511: a failure is logged and the loop goes
    on. *)
Definition uploadTasks (tasks : list Task.t) : M (W * list Sent) unit :=
  let* s := getStore in
  if negb (isAuthenticated s) then ret tt
  else
    forEach (fun task =>
      tryCatch
        (let* data := attempt (plainTaskPayload task) in
         post (postTask up data) (SentTask task data) >>
         ret tt)
        (fun _ => ret tt)) tasks.

End DirectUploads.

(** ** The settings screen ([src/components/SplashScreen.tsx])

    The screen is the caller of [syncAll]: it mirrors the published state
    in two state variables and reports the outcome of a manual
    synchronisation in an alert. *)

Module Alert.
Record t := mk {
  title : string;
  message : string }.
End Alert.

(** [x || d] on an optional string. *)
Definition orText (x : option string) (d : string) : string :=
  match x with
  | Some s => if Str.truthy s then s else d
  | None => d
  end.

(** The state variables [syncStatus] and [lastSyncAt]. *)
Module Shown.
Record t := mk {
  syncStatus : SyncStatus;
  lastSyncAt : option Z }.
End Shown.

(** [getSyncState()], lines 83-85 of the service. *)
Definition getSyncState (s : Store) : SyncState.t := syncState s.

(** The listener the screen subscribes, lines 603-606: both state
    variables are set from the state it is called with. *)
Definition onSyncState (state : SyncState.t) (_ : Shown.t) : Shown.t :=
  Shown.mk (SyncState.status state) (SyncState.lastSyncAt state).

(** The first half of the effect, lines 599-601: the state variables are
    set from [getSyncState()]. *)
Definition mounted (s : Store) : Shown.t :=
  onSyncState (getSyncState s) (Shown.mk idle None).

(** What a subscribed screen shows after the notifications in [evs]: a
    notification calls every listener with the published state. *)
Definition deliver (evs : list Event) (shown : Shown.t) : Shown.t :=
  foldl (fun sh e => match e with
                     | Notify state => onSyncState state sh
                     | _ => sh
                     end) shown evs.

Section Screen.

Context {W : Type} (api : Api W).

(** [handleSync], lines 609-620. [authenticated] is the value of
    [isAuthenticated] the component rendered with; [alerts] collects the
    calls of [Alert.alert]. *)
Definition handleSync (authenticated : bool) (m : Machine W) (alerts : list Alert.t)
    : Machine W * list Alert.t * Result unit :=
  if negb authenticated
  then (m,
        alerts ++ [Alert.mk "Sign In Required"
                     "Please sign in to sync your data across devices."],
        Ok tt)
  else
    match syncAll api m with
    | (m', Ok result) =>
        if SyncResult.success result
        then (m',
              alerts ++ [Alert.mk "Sync Complete"
                           "Your data has been synced successfully."],
              Ok tt)
        else (m',
              alerts ++ [Alert.mk "Sync Failed"
                           (orText (SyncResult.error result) "Please try again later.")],
              Ok tt)
    | (m', Threw e) => (m', alerts, Threw e)
    end.

End Screen.
(** * Vocabulary of the properties *)

(** ** Relations every step of a computation keeps

    [keeps R c]: from any machine, [c] ends in a machine related to it by
    [R], whether it returns or throws. *)

Definition keeps {W : Type} (R : Machine W -> Machine W -> Prop) {A : Type}
    (c : M W A) : Prop :=
  forall m, R m (c m).1.

(** Relations that only look at the store. *)
Definition onStore {W : Type} (RS : Store -> Store -> Prop) : Machine W -> Machine W -> Prop :=
  fun m m' => RS (store m) (store m').

(** The identity mapping binds at least the identifiers it bound. *)
Definition mappingGrows (s s' : Store) : Prop :=
  dom (idMapping s) ⊆ dom (idMapping s').

(** The published state is untouched. *)
Definition syncStateKept (s s' : Store) : Prop :=
  syncState s' = syncState s.

(** The events a computation adds all satisfy [P]. *)
Definition emitsOnly {W : Type} (P : Event -> Prop) (m m' : Machine W) : Prop :=
  exists evs, trace m' = trace m ++ evs /\ Forall P evs.

(** A relation that has to hold only from stores satisfying [I], which it
    then maintains. *)
Definition under {W : Type} (I : Store -> Prop) (R : Machine W -> Machine W -> Prop)
    : Machine W -> Machine W -> Prop :=
  fun m m' => I (store m) -> I (store m') /\ R m m'.

(** The per-item error a failed request is converted into, if any. *)
Definition failureOf (e : Event) : option string :=
  match e with
  | CreateObjective o _ false => Some (uploadObjectiveError o)
  | CreateTask t _ false => Some (uploadTaskError t)
  | _ => None
  end.

Definition failures (evs : list Event) : list string := omap failureOf evs.

(** The failed requests that sit outside every per-item [try] block. *)
Definition fatal (e : Event) : bool :=
  match e with
  | GetObjectives false | GetObjective _ false | GetTasks _ false => true
  | _ => false
  end.

(** The request threw. *)
Definition failed (e : Event) : bool :=
  match e with
  | GetObjectives ok | CreateObjective _ _ ok | GetObjective _ ok
  | GetTasks _ ok | CreateTask _ _ ok | UpdateTask _ _ _ ok => negb ok
  | Notify _ => false
  end.

Definition isUpdateTask (e : Event) : bool :=
  match e with
  | UpdateTask _ _ _ _ => true
  | _ => false
  end.

(** The local tasks a creation request was issued for, in order. *)
Definition attemptedTasks (evs : list Event) : list Task.t :=
  omap (fun e => match e with CreateTask t _ _ => Some t | _ => None end) evs.

(** The local objectives a creation request was issued for, in order. *)
Definition attempted (evs : list Event) : list Objective.t :=
  omap (fun e => match e with CreateObjective o _ _ => Some o | _ => None end) evs.

(** A date that can be printed. *)
Definition validDate (d : Date) : bool :=
  match d with
  | Instant _ => true
  | InvalidDate => false
  end.

(** The creation request of the objective can be built: its end date, if
    it has one, can be printed. *)
Definition sendable (o : Objective.t) : bool :=
  match Timeframe.endDate (Objective.timeframe o) with
  | Some d => validDate d
  | None => true
  end.

(** The creation request of the task can be built: its schedule can be
    printed. *)
Definition sendableTask (t : Task.t) : bool := validDate (Task.scheduledAt t).

(** [zs] interleaves [xs] and [ys], keeping the order of each. *)
Inductive merged {A : Type} : list A -> list A -> list A -> Prop :=
| merged_nil : merged [] [] []
| merged_left x xs ys zs : merged xs ys zs -> merged (x :: xs) ys (x :: zs)
| merged_right y xs ys zs : merged xs ys zs -> merged xs (y :: ys) (y :: zs).

(** The messages for local objectives, for local tasks, of the store [s]
    whose creation request cannot be built. *)
Definition unsentObjective (s : Store) (msg : string) : Prop :=
  exists o, o ∈ objectives s /\ sendable o = false /\ msg = uploadObjectiveError o.

Definition unsentTask (s : Store) (msg : string) : Prop :=
  exists t, t ∈ tasks s /\ sendableTask t = false /\ msg = uploadTaskError t.

Definition unsendable (s : Store) (msg : string) : Prop :=
  unsentObjective s msg \/ unsentTask s msg.

(** The error list [errs] accounts for the events [evs]: it holds one
    message per failed creation request, in order, and apart from these
    only messages that [unsent] accepts. A failed status update has no
    message. *)
Definition tallied (unsent : string -> Prop) (evs : list Event) (errs : list string)
    : Prop :=
  exists dropped, merged (failures evs) dropped errs /\ Forall unsent dropped.

(** Outcome [res] of a computation started in [m] with the error list
    [acc]: it returned the errors [acc] followed by a tally of its
    events, or it threw after a fatal request. *)
Definition accounted {W A : Type} (unsent : string -> Prop) (out : A -> list string)
    (acc : list string) (m : Machine W) (res : Machine W * Result A) : Prop :=
  exists evs, trace res.1 = trace m ++ evs /\
    match res.2 with
    | Ok a =>
        (exists errs, out a = acc ++ errs /\ tallied unsent evs errs) /\
        Forall (fun e => fatal e = false) evs
    | Threw _ => Exists (fun e => fatal e = true) evs
    end.

(** A local objective with no remote counterpart: no fetched objective
    carries its identifier, and none has its name after lower-casing by
    [lower]. *)
Definition localOnly (lower : string -> string) (remoteObjectives : list ApiObjective.t)
    (local : Objective.t) : bool :=
  bool_decide (Objective.id local ∉ ApiObjective.id <$> remoteObjectives) &&
  bool_decide (lower (Objective.name local)
                 ∉ (fun o => lower (ApiObjective.name o)) <$> remoteObjectives).

(** The local-only objectives the upload loop asks the server to create,
    and those it has to give up on. *)
Definition toUpload (lower : string -> string) (remoteObjectives : list ApiObjective.t)
    (local : Objective.t) : bool :=
  localOnly lower remoteObjectives local && sendable local.

Definition toGiveUp (lower : string -> string) (remoteObjectives : list ApiObjective.t)
    (local : Objective.t) : bool :=
  localOnly lower remoteObjectives local && negb (sendable local).

(** A local task the upload loop has to post: no fetched task carries its
    identifier, and the mapping resolves its objective to a non-empty
    identifier. *)
Definition uploadable (ids : gmap string string) (remoteTasks : list ApiTask.t)
    (t : Task.t) : bool :=
  bool_decide (Task.id t ∉ ApiTask.id <$> remoteTasks) &&
  match ids !! Task.objectiveId t with
  | Some sid => Str.truthy sid
  | None => false
  end.

Definition toPost (ids : gmap string string) (remoteTasks : list ApiTask.t)
    (t : Task.t) : bool :=
  uploadable ids remoteTasks t && sendableTask t.

Definition toDrop (ids : gmap string string) (remoteTasks : list ApiTask.t)
    (t : Task.t) : bool :=
  uploadable ids remoteTasks t && negb (sendableTask t).

(** Every identifier of an objective aggregate. *)
Definition entityIds (local : Objective.t) : list string :=
  Objective.id local :: (Pillar.id <$> Objective.pillars local)
    ++ (Metric.id <$> Objective.metrics local)
    ++ (Ritual.id <$> Objective.rituals local).

(** The list [getTasks] answers with when [syncTasks] starts in [m]. *)
Definition fetchedTasks {W : Type} (api : Api W) (m : Machine W) : Result (list ApiTask.t) :=
  (getTasks api (isoDay api (now api (world m)).2) (now api (world m)).1).2.

(** The translation of a local status for the server: the four shared
    values travel as they are, the local-only ['overdue'] as ['pending']. *)
Inductive translated : TaskStatus -> ApiStatus -> Prop :=
| translated_pending : translated (shared pending) pending
| translated_in_progress : translated (shared in_progress) in_progress
| translated_completed : translated (shared completed) completed
| translated_skipped : translated (shared skipped) skipped
| translated_overdue : translated overdue pending.

(** The ISO string sent for an optional local date: none for none, the
    instant of a date that can be printed, and nothing can be sent for the
    Invalid Date. *)
Definition printed (d : option Date) (sent : option Z) : Prop :=
  match d with
  | None => sent = None
  | Some (Instant ms) => sent = Some ms
  | Some InvalidDate => False
  end.

(** What a status update must look like, given the fetched tasks: it is
    addressed to the local task's identifier, carries the translated
    status with the completion instant and skip reason, and the fetched
    task it is addressed to has a different status. *)
Definition pushedRight (remoteTasks : list ApiTask.t) (e : Event) : Prop :=
  match e with
  | UpdateTask local id data _ =>
      id = Task.id local /\
      translated (Task.status local) (UpdateTaskData.status data) /\
      printed (Task.completedAt local) (UpdateTaskData.completedAt data) /\
      UpdateTaskData.skippedReason data = Task.skippedReason local /\
      exists remoteTask, indexTasks remoteTasks !! id = Some remoteTask /\
        ApiTask.status remoteTask <> UpdateTaskData.status data
  | _ => True
  end.

(** The objective phase leaves the task store alone. *)
Definition tasksKept (s s' : Store) : Prop := tasks s' = tasks s.

(** A fetched task no local task carries the identifier of. *)
Definition unknownLocally (localTasks : list Task.t) (rt : ApiTask.t) : bool :=
  bool_decide (ApiTask.id rt ∉ Task.id <$> localTasks).

(** The objective of the task [t] has no entry in the identity mapping. *)
Definition unmapped (t : Task.t) (s : Store) : Prop :=
  idMapping s !! Task.objectiveId t = None.

(** No creation request is issued for the task [t]. *)
Definition notCreating (t : Task.t) (e : Event) : Prop :=
  match e with
  | CreateTask local _ _ => local <> t
  | _ => True
  end.

(** Every creation request of the local store [s] can be built. *)
Definition allSendable (s : Store) : Prop :=
  Forall (fun o => sendable o = true) (objectives s) /\
  Forall (fun t => sendableTask t = true) (tasks s).

(** The two sides of failure handling in one invocation of [syncAll]
    whose added events are [evs]: status updates that fail do not by
    themselves keep the invocation from succeeding; when both phases
    return, the aggregated errors are a tally of the events, in which a
    failed status update has no message; a failed objective creation ends
    in ['error']. *)
Definition asymmetric {W : Type} (api : Api W) (m : Machine W) : Prop :=
  exists evs, trace (syncAll api m).1 = trace m ++ evs /\
    ((forall e, e ∈ evs -> failed e = true -> isUpdateTask e = true) ->
     allSendable (store m) ->
       SyncState.status (syncState (store (syncAll api m).1)) = success /\
       (syncAll api m).2 = Ok (SyncResult.mk true None)) /\
    (Forall (fun e => fatal e = false) evs ->
       exists at_ errs,
         syncState (store (syncAll api m).1) = finishedState errs at_ /\
         tallied (unsendable (store m)) evs errs) /\
    (forall o d, CreateObjective o d false ∈ evs ->
       SyncState.status (syncState (store (syncAll api m).1)) = error /\
       exists message, (syncAll api m).2 = Ok (SyncResult.mk false (Some message))).

(** The messages the task phase run from [m] may record besides those of
    failed creation requests: those of local tasks other than [t] whose
    request cannot be built. *)
Definition unsentOther (s : Store) (t : Task.t) (msg : string) : Prop :=
  exists t', t' ∈ tasks s /\ t' <> t /\ sendableTask t' = false /\
    msg = uploadTaskError t'.

(** The task [t] is left alone: its turn in the upload loop changes
    nothing, the task phase issues no creation request for it, and the
    errors of the phase are a tally of its events with other tasks. *)
Definition deferred {W : Type} (api : Api W) (m : Machine W) (t : Task.t) : Prop :=
  (forall remoteMap errors, uploadTaskStep api remoteMap t errors m = (m, Ok errors)) /\
  exists evs, trace (syncTasks api m).1 = trace m ++ evs /\
    Forall (notCreating t) evs /\
    forall errors, (syncTasks api m).2 = Ok errors ->
      tallied (unsentOther (store m) t) evs errors.

(** The upload of the local-only objective [local] from [m]: the
    identifiers are minted; a request that cannot be built is not issued
    and recorded as an error; otherwise the answer to the creation request
    decides between registering all identifiers and recording one error. *)
Definition uploadOutcome {W : Type} (api : Api W) (remoteObjectives : list ApiObjective.t)
    (local : Objective.t) (errors : list string) (m : Machine W) : Prop :=
  exists w ids,
    mintIds api local m = ({| store := store m; world := w; trace := trace m |}, Ok ids) /\
    let after := uploadObjectiveStep api (indexById remoteObjectives)
                   (indexByName (toLowerCase api) remoteObjectives) local errors m in
    match payloadOf local ids with
    | Ok data =>
        sendable local = true /\
        match createObjective api data w with
        | (_, Ok result) =>
            after.2 = Ok errors /\
            (is_Some (Created.objective result) ->
               idMapping (store after.1) = registerMinted local ids (idMapping (store m)) /\
               forall k, k ∈ entityIds local -> is_Some (idMapping (store after.1) !! k))
        | (_, Threw _) =>
            after.2 = Ok (errors ++ [uploadObjectiveError local]) /\
            idMapping (store after.1) = idMapping (store m) /\
            forall k, idMapping (store m) !! k = None -> idMapping (store after.1) !! k = None
        end
    | Threw _ =>
        sendable local = false /\
        after.2 = Ok (errors ++ [uploadObjectiveError local]) /\
        trace after.1 = trace m /\
        idMapping (store after.1) = idMapping (store m)
    end.

(** The binding of [k] to [v] in the identity mapping is not disturbed. *)
Definition binds (k v : string) (s s' : Store) : Prop :=
  idMapping s !! k = Some v -> idMapping s' !! k = Some v.

(** The backend answers a detail request with the objective asked for. *)
Definition faithfulDetail {W : Type} (api : Api W) : Prop :=
  forall id w w' o, getObjective api id w = (w', Ok o) -> ApiObjective.id o = id.

(** Every identifier in the local objective store. *)
Definition localIds (localObjectives : list Objective.t) : list string :=
  concat (entityIds <$> localObjectives).

(** A fetched objective carries the identifier of [local]. *)
Definition matchedById (remoteObjectives : list ApiObjective.t) (local : Objective.t)
    : Prop :=
  exists r, r ∈ remoteObjectives /\ ApiObjective.id r = Objective.id local.

(** No fetched objective carries the identifier of [local], and [b] is
    the last fetched objective whose name is that of [local] after
    lower-casing by [lower]. *)
Definition matchedByName (lower : string -> string)
    (remoteObjectives : list ApiObjective.t) (local : Objective.t) (b : ApiObjective.t)
    : Prop :=
  (forall r, r ∈ remoteObjectives -> ApiObjective.id r <> Objective.id local) /\
  exists before after,
    remoteObjectives = before ++ b :: after /\
    lower (ApiObjective.name b) = lower (Objective.name local) /\
    forall r, r ∈ after -> lower (ApiObjective.name r) <> lower (Objective.name local).

(** The identifier a match gives the local objective [local]: its own on
    a match by identifier, that of the last namesake on a match by name. *)
Inductive rederived (lower : string -> string) (remoteObjectives : list ApiObjective.t)
    (local : Objective.t) : string -> Prop :=
| rederived_by_id :
    matchedById remoteObjectives local ->
    rederived lower remoteObjectives local (Objective.id local)
| rederived_by_name b :
    matchedByName lower remoteObjectives local b ->
    rederived lower remoteObjectives local (ApiObjective.id b).

(** What the upload loop computes for [local] from its two indexes: its
    own identifier when the index by identifier has it, else that of the
    objective the by-name index holds for its name, if there is one. *)
Definition derived (lower : string -> string) (remoteObjectives : list ApiObjective.t)
    (local : Objective.t) : option string :=
  match indexById remoteObjectives !! Objective.id local with
  | Some _ => Some (Objective.id local)
  | None =>
      ApiObjective.id <$>
        (indexByName lower remoteObjectives !! lower (Objective.name local))
  end.

(** The life of the identity mapping across the invocation of [syncAll]
    from [m]: no identifier loses its entry, and once the remote
    objectives are fetched the entry of every matched local objective is
    the one derived from the fetched list, whatever the mapping held for
    it before. *)
Definition outlives {W : Type} (api : Api W) (m : Machine W) : Prop :=
  dom (idMapping (store m)) ⊆ dom (idMapping (store (syncAll api m).1)) /\
  forall (remoteObjectives : list ApiObjective.t) (w1 : W) (local : Objective.t)
         (v : string),
    isAuthenticated (store m) = true ->
    getObjectives api (world m) = (w1, Ok remoteObjectives) ->
    faithfulDetail api ->
    NoDup (localIds (objectives (store m))) ->
    local ∈ objectives (store m) ->
    rederived (toLowerCase api) remoteObjectives local v ->
    idMapping (store (syncAll api m).1) !! Objective.id local = Some v.

(** Name-based convergence of [local] in the pass run from [m]. *)
Definition converges {W : Type} (api : Api W) (m : Machine W)
    (remoteObjectives : list ApiObjective.t) (local : Objective.t)
    (b : ApiObjective.t) : Prop :=
  b ∈ remoteObjectives /\
  toLowerCase api (ApiObjective.name b) = toLowerCase api (Objective.name local) /\
  idMapping (store (reconcile api m).1) !! Objective.id local
    = Some (ApiObjective.id b) /\
  exists evs, trace (reconcile api m).1 = trace m ++ evs /\
    local ∉ attempted evs.

(** No creation request for an objective. *)
Definition notCreatingObjective (e : Event) : Prop :=
  match e with
  | CreateObjective _ _ _ => False
  | _ => True
  end.

(** On the in-memory backend: the local objective store, the server's
    objectives and its reachability are as they were. *)
Definition catalogKept (m m' : Machine Backend.World) : Prop :=
  objectives (store m') = objectives (store m) /\
  Backend.srvObjectives (world m') = Backend.srvObjectives (world m) /\
  Backend.outage (world m') = Backend.outage (world m).

(** Every endpoint of the in-memory backend can be reached. *)
Definition reachable (w : Backend.World) : Prop :=
  forall ep, Backend.outage w ep = false.

(** Every local objective has a counterpart on the server, by identifier
    or by name, or cannot be sent. *)
Definition allMatched (m : Machine Backend.World) : Prop :=
  reachable (world m) /\
  forall x, x ∈ objectives (store m) ->
    toUpload Str.toLowerCase (Backend.srvObjectives (world m)) x = false.

(** Two passes in succession from the store [s] and the backend [w], the
    observer starting afresh for the second: the second pass asks for no
    objective to be created, and every identifier the mapping binds after
    the first pass is still bound after the second. *)
Definition settled (s : Store) (w : Backend.World) : Prop :=
  let m1 := (reconcile Backend.api (Backend.boot s w)).1 in
  let m2 := (reconcile Backend.api (Backend.rewind m1)).1 in
  attempted (trace m2) = [] /\
  dom (idMapping (store m1)) ⊆ dom (idMapping (store m2)).

(** What an invocation does to the published state. An unauthenticated
    call changes nothing. Otherwise the outcome is read off the run of the
    two phases that starts once ['syncing'] has been published. *)
Definition lastSyncAtOutcome {W : Type} (api : Api W) (m : Machine W) : Prop :=
  let final := syncState (store (syncAll api m).1) in
  if isAuthenticated (store m)
  then
    match reconcile api (beginSync m).1 with
    | (m2, Ok (objErrors, taskErrors)) =>
        final = finishedState (objErrors ++ taskErrors) (now api (world m2)).2 /\
        SyncState.lastSyncAt final = Some (now api (world m2)).2
    | (_, Threw message) =>
        final = SyncState.mk error (SyncState.lastSyncAt (syncState (store m)))
                  (Some message) /\
        SyncState.lastSyncAt final = SyncState.lastSyncAt (syncState (store m))
    end
  else (syncAll api m).1 = m.

(** ** Scenarios on the in-memory backend *)

Module Scenario.

Import Backend Sample.

(** A local objective created offline and its namesake on the server. *)
Definition namesake : Machine World :=
  boot (loaded [objective "local-1" "Fitness"] [] true)
    (start [remoteObjective uuid1 "fitness"] [] [] 5000).

(** The same with two namesakes on the server. *)
Definition twoNamesakes : Machine World :=
  boot (loaded [objective "local-1" "Fitness"] [] true)
    (start [remoteObjective uuid1 "fitness"; remoteObjective uuid2 "FITNESS"] [] [] 5000).

(** A local objective that carries the canonical identifier of one
    remote objective and the name of another. *)
Definition idClash : Machine World :=
  boot (loaded [objective uuid3 "Fitness"] [] true)
    (start [remoteObjective uuid3 "Reading"; remoteObjective uuid1 "fitness"] [] [] 5000).

(** A local objective nobody knows, while creation requests cannot reach
    the server. *)
Definition uploadDown : Machine World :=
  boot (loaded [objective "local-1" "Fitness"] [] true)
    (withOutage (fun ep => match ep with postObjective => true | _ => false end)
       (start [] [] [uuidA] 5000)).

(** After a first invocation on [namesake], the server loses the
    objective and creation requests stop reaching it. *)
Definition forgotten : Machine World :=
  let m1 := (syncAll api namesake).1 in
  {| store := store m1;
     world := withOutage (fun ep => match ep with postObjective => true | _ => false end)
                (withObjectives [] (world m1));
     trace := [] |}.

(** Work done offline: an objective and a task of it, both under local
    identifiers, and a server that knows neither. *)
Definition offlineTask : Task.t := task "t1" "local-1" "Run" (shared pending).

Definition offlineWork : Machine World :=
  boot (loaded [objective "local-1" "Fitness"] [offlineTask] true)
    (start [] [] [uuidA; uuid3; uuid2] 5000).

(** A task completed locally and still pending on the server, while
    status updates cannot reach it. *)
Definition pushDown : Machine World :=
  boot (loaded [objective uuid1 "Fitness"]
          [task uuid3 uuid1 "Run" (shared completed)] true)
    (withOutage (fun ep => match ep with patchTask => true | _ => false end)
       (start [remoteObjective uuid1 "Fitness"]
          [remoteTask uuid3 uuid1 "Run" pending] [] 5000)).

(** A task created on another device: the server has it, the local
    store does not. *)
Definition offlineInbox : Machine World :=
  boot (loaded [objective uuid1 "Fitness"] [task uuid2 uuid1 "Swim" (shared pending)] true)
    (start [remoteObjective uuid1 "Fitness"]
       [remoteTask uuid3 uuid1 "Run" pending] [] 5000).

(** A task whose objective was never reconciled. *)
Definition orphan : Task.t := task "t1" "ghost" "Run" (shared pending).

Definition orphaned : Machine World :=
  boot (loaded [] [orphan] true) (start [] [] [uuidA] 5000).

(** The machine of [namesake] with a stale entry for the local
    objective, as an earlier invocation may have left it. *)
Definition stale : Machine World :=
  boot (setMapping (fun _ => {[ "local-1" := uuid3 ]})
          (loaded [objective "local-1" "Fitness"] [] true))
    (start [remoteObjective uuid1 "fitness"] [] [] 5000).

(** A local objective nobody knows whose end date cannot be printed. *)
Definition undatedObjective : Objective.t :=
  Objective.mk "local-2" "Writing" "craft" "desc" "outcome" [] [] []
    (Timeframe.mk (Instant 0) (Some InvalidDate) 30) "on_track" 1 false
    (Instant 0) (Instant 0).

Definition undatedWork : Machine World :=
  boot (loaded [undatedObjective; objective "local-1" "Fitness"] [] true)
    (start [] [] [uuidA; uuidB] 5000).

(** Two objectives to download while details cannot be fetched. *)
Definition detailDown : Machine World :=
  boot (loaded [] [] true)
    (withOutage (fun ep => match ep with objectiveDetail => true | _ => false end)
       (start [remoteObjective uuid1 "Fitness"; remoteObjective uuid2 "Reading"]
          [] [] 5000)).

End Scenario.

(** * Vocabulary of the further properties *)

(** Every character is a hexadecimal digit. *)
Fixpoint allHex (s : string) : bool :=
  match s with
  | EmptyString => true
  | String c r => Str.isHex c && allHex r
  end.

(** A binding [k := v] that child reconciliation by name can produce for
    [local] against [remoteObj]: [k] is the identifier of a local pillar,
    metric or ritual and [v] the identifier of a remote child of the same
    kind whose name is the same after lower-casing by [lower]. *)
Definition childMatch (lower : string -> string) (local : Objective.t)
    (remoteObj : ApiObjective.t) (k v : string) : Prop :=
  (exists p rp, p ∈ Objective.pillars local /\
     rp ∈ default [] (ApiObjective.pillars remoteObj) /\
     Pillar.id p = k /\ ApiPillar.id rp = v /\
     lower (ApiPillar.name rp) = lower (Pillar.name p)) \/
  (exists x rx, x ∈ Objective.metrics local /\
     rx ∈ default [] (ApiObjective.metrics remoteObj) /\
     Metric.id x = k /\ ApiMetric.id rx = v /\
     lower (ApiMetric.name rx) = lower (Metric.name x)) \/
  (exists r rr, r ∈ Objective.rituals local /\
     rr ∈ default [] (ApiObjective.rituals remoteObj) /\
     Ritual.id r = k /\ ApiRitual.id rr = v /\
     lower (ApiRitual.name rr) = lower (Ritual.name r)).

(** Requests of the objective phase, and of the task phase. *)
Definition objectiveEvent (e : Event) : Prop :=
  match e with
  | GetObjectives _ | CreateObjective _ _ _ | GetObjective _ _ => True
  | _ => False
  end.

Definition taskEvent (e : Event) : Prop :=
  match e with
  | GetTasks _ _ | CreateTask _ _ _ | UpdateTask _ _ _ _ => True
  | _ => False
  end.

Definition isRequest (e : Event) : Prop :=
  match e with
  | Notify _ => False
  | _ => True
  end.

(** What the listeners see of an invocation of [syncAll] from [m]: the
    ['syncing'] snapshot first, the final state last, requests only in
    between. *)
Definition publishedTwice {W : Type} (api : Api W) (m : Machine W) : Prop :=
  exists evs,
    trace (syncAll api m).1 =
      trace m
      ++ [Notify (SyncState.mk syncing (SyncState.lastSyncAt (syncState (store m))) None)]
      ++ evs ++ [Notify (syncState (store (syncAll api m).1))] /\
    Forall isRequest evs.

(** The requests of an invocation: those of the objective phase, then
    those of the task phase. *)
Definition phasesInOrder {W : Type} (api : Api W) (m : Machine W) : Prop :=
  exists evsO evsT first final,
    trace (syncAll api m).1 =
      trace m ++ [Notify first] ++ evsO ++ evsT ++ [Notify final] /\
    Forall objectiveEvent evsO /\ Forall taskEvent evsT.

(** The local stores only get longer. *)
Definition storesGrow (s s' : Store) : Prop :=
  objectives s `prefix_of` objectives s' /\ tasks s `prefix_of` tasks s'.

(** The task phase leaves the identity mapping, the objective store and
    the published state alone. *)
Definition objectiveSideKept (s s' : Store) : Prop :=
  idMapping s' = idMapping s /\ objectives s' = objectives s /\
  syncState s' = syncState s.



(** Local objectives stay, and [k], once mapped to itself, stays so. *)
Definition settledAt (k : string) (s s' : Store) : Prop :=
  (forall o, o ∈ objectives s -> o ∈ objectives s') /\
  (idMapping s !! k = Some k -> idMapping s' !! k = Some k).

(** The mapping [ids] has nothing to offer for [r]: no entry, or an empty
    one. *)
Definition unresolved (ids : gmap string string) (r : string) : Prop :=
  ids !! r = None \/ ids !! r = Some EmptyString.

(** How a pillar or ritual reference is sent under the mapping [ids]: an
    absent or empty reference is omitted; otherwise the non-empty
    identifier the mapping holds for it is sent; failing that, the
    reference itself when it has UUID shape; and it is omitted when
    neither applies. *)
Inductive refSent (ids : gmap string string) : option string -> option string -> Prop :=
| refSent_absent : refSent ids None None
| refSent_empty : refSent ids (Some EmptyString) None
| refSent_mapped r v :
    r <> EmptyString -> ids !! r = Some v -> v <> EmptyString ->
    refSent ids (Some r) (Some v)
| refSent_itself r :
    r <> EmptyString -> unresolved ids r -> isValidUUID r = true ->
    refSent ids (Some r) (Some r)
| refSent_dropped r :
    r <> EmptyString -> unresolved ids r -> isValidUUID r = false ->
    refSent ids (Some r) None.

(** What a task creation request must look like under the mapping [ids]. *)
Definition sentRight (ids : gmap string string) (e : Event) : Prop :=
  match e with
  | CreateTask local data _ =>
      ids !! Task.objectiveId local = Some (CreateTaskData.objectiveId data) /\
      CreateTaskData.objectiveId data <> EmptyString /\
      (isValidUUID (Task.id local) = true -> CreateTaskData.id data = Task.id local) /\
      CreateTaskData.title data = Task.title local /\
      CreateTaskData.description data = Task.description local /\
      CreateTaskData.whyItMatters data = Task.whyItMatters local /\
      Task.scheduledAt local = Instant (CreateTaskData.scheduledAt data) /\
      CreateTaskData.durationMinutes data = Task.durationMinutes local /\
      refSent ids (Task.pillarId local) (CreateTaskData.pillarId data) /\
      refSent ids (Task.ritualId local) (CreateTaskData.ritualId data)
  | _ => True
  end.

(** A pillar reference of a metric or ritual as it may be sent with the
    pillars [nps] built for the local pillars [ps]: the identifier given
    to the payload pillar standing at the position of a local pillar the
    reference names; omitted when it is absent, empty or names no local
    pillar of the objective. *)
Definition pillarRef (ps : list Pillar.t) (nps : list NewPillar.t)
    (ref sent : option string) : Prop :=
  match sent with
  | Some v =>
      exists i p np, ps !! i = Some p /\ nps !! i = Some np /\
        ref = Some (Pillar.id p) /\ v = NewPillar.id np
  | None =>
      forall r, ref = Some r -> r = EmptyString \/ r ∉ Pillar.id <$> ps
  end.

(** An identifier is kept when it has UUID shape. *)
Definition reusedId (localId sentId : string) : Prop :=
  isValidUUID localId = true -> sentId = localId.

(** What an objective creation request must look like. *)
Definition objectiveSentRight (e : Event) : Prop :=
  match e with
  | CreateObjective local data _ =>
      reusedId (Objective.id local) (CreateObjectiveData.id data) /\
      CreateObjectiveData.name data = Objective.name local /\
      Forall2 (fun p np =>
                 NewPillar.name np = Pillar.name p /\
                 reusedId (Pillar.id p) (NewPillar.id np))
        (Objective.pillars local) (CreateObjectiveData.pillars data) /\
      Forall2 (fun x nx =>
                 NewMetric.name nx = Metric.name x /\
                 reusedId (Metric.id x) (NewMetric.id nx) /\
                 pillarRef (Objective.pillars local) (CreateObjectiveData.pillars data)
                   (Metric.pillarId x) (NewMetric.pillarId nx))
        (Objective.metrics local) (CreateObjectiveData.metrics data) /\
      Forall2 (fun r nr =>
                 NewRitual.name nr = Ritual.name r /\
                 reusedId (Ritual.id r) (NewRitual.id nr) /\
                 pillarRef (Objective.pillars local) (CreateObjectiveData.pillars data)
                   (Ritual.pillarId r) (NewRitual.pillarId nr))
        (Objective.rituals local) (CreateObjectiveData.rituals data)
  | _ => True
  end.

(** A machine with three tasks waiting under a known objective, one of
    them with a schedule that cannot be printed, and a task whose
    objective was never reconciled. *)
Module Pending.
Import Backend Sample.

Definition undated (id objectiveId title : string) : Task.t :=
  Task.mk id objectiveId None None title None None InvalidDate 15
    (shared pending) None None.

Definition queued : Machine World :=
  boot (setMapping (fun _ => {[ "local-1" := uuid1 ]})
          (loaded [objective "local-1" "Fitness"]
             [task "t1" "local-1" "Run" (shared pending);
              undated "t2" "local-1" "Swim";
              task "t3" "ghost" "Read" (shared pending);
              task "t4" "local-1" "Row" (shared pending)] true))
    (start [remoteObjective uuid1 "Fitness"] [] [uuidA; uuidB] 5000).

End Pending.

(** The task phase run from [m] once the list [remoteTasks] is fetched:
    the creation requests are those of the tasks to post, and the errors
    interleave the failed requests with the tasks to drop. *)
Definition taskUploadsExact {W : Type} (api : Api W) (m : Machine W)
    (remoteTasks : list ApiTask.t) : Prop :=
  exists evs errors,
    trace (syncTasks api m).1 = trace m ++ evs /\
    (syncTasks api m).2 = Ok errors /\
    attemptedTasks evs =
      List.filter (toPost (idMapping (store m)) remoteTasks) (tasks (store m)) /\
    merged (failures evs)
      (uploadTaskError <$>
         List.filter (toDrop (idMapping (store m)) remoteTasks) (tasks (store m)))
      errors.

Definition taskDownloadsExact {W : Type} (api : Api W) (m : Machine W)
    (remoteTasks : list ApiTask.t) : Prop :=
  isOk (syncTasks api m).2 = true /\
  tasks (store (syncTasks api m).1) =
    tasks (store m)
    ++ (localTaskOf <$> List.filter (unknownLocally (tasks (store m))) remoteTasks).

(** The tasks a record of direct uploads was issued for, in order. *)
Definition sentTasks (sent : list Sent) : list Task.t :=
  omap (fun e => match e with SentTask t _ _ => Some t | _ => None end) sent.

(** A direct task request carries the task's fields as they are, the
    local objective reference included. *)
Definition sentVerbatim (e : Sent) : Prop :=
  match e with
  | SentTask t data _ =>
      data = PlainTaskData.mk (Task.objectiveId t) (Task.pillarId t) (Task.ritualId t)
               (Task.title t) (Task.description t) (Task.whyItMatters t)
               (PlainTaskData.scheduledAt data) (Task.durationMinutes t) /\
      Task.scheduledAt t = Instant (PlainTaskData.scheduledAt data)
  | SentObjective _ _ _ => False
  end.

(** What [uploadTasks] does to the machine [m]. *)
Definition bestEffort {W : Type} (up : Uploads W) (ts : list Task.t)
    (m : Machine (W * list Sent)) : Prop :=
  exists sent,
    (uploadTasks up ts m).2 = Ok tt /\
    store (uploadTasks up ts m).1 = store m /\
    (world (uploadTasks up ts m).1).2 = (world m).2 ++ sent /\
    sentTasks sent =
      (if isAuthenticated (store m) then List.filter sendableTask ts else []) /\
    Forall sentVerbatim sent.

(** What a press on the sync button comes to: one alert, never empty,
    whose title tells how the synchronisation ended. *)
Definition reported {W : Type} (api : Api W) (authenticated : bool)
    (m : Machine W) (alerts : list Alert.t) : Prop :=
  let out := handleSync api authenticated m alerts in
  exists a,
    out.2 = Ok tt /\
    out.1.2 = alerts ++ [a] /\
    Alert.message a <> EmptyString /\
    (authenticated = false ->
       out.1.1 = m /\ Alert.title a = "Sign In Required") /\
    (authenticated = true ->
       (Alert.title a = "Sync Complete" \/ Alert.title a = "Sync Failed") /\
       (Alert.title a = "Sync Complete" <->
          isAuthenticated (store m) = true /\
          SyncState.status (syncState (store out.1.1)) = success)).

(** A subscribed screen that showed the published state before an
    invocation shows the published state after it. *)
Definition mirrored {W : Type} (api : Api W) (m : Machine W) : Prop :=
  exists evs, trace (syncAll api m).1 = trace m ++ evs /\
    deliver evs (mounted (store m)) = mounted (store (syncAll api m).1).

(** The returned result and the published state tell the same story: no
    error text and success on both sides, or a failure on both sides with
    the same text, up to the hint the result appends to a count of failed
    items. *)
Definition errorsAgree (res : SyncResult.t) (st : SyncState.t) : Prop :=
  match SyncState.error st with
  | None => res = SyncResult.mk true None /\ SyncState.status st = success
  | Some s =>
      SyncResult.success res = false /\ SyncState.status st = error /\
      (SyncResult.error res = Some s \/
       SyncResult.error res = Some (s +:+ ". Check console for details."))
  end.

Definition resultMatchesState {W : Type} (api : Api W) (m : Machine W) : Prop :=
  exists res, (syncAll api m).2 = Ok res /\
    errorsAgree res (syncState (store (syncAll api m).1)).
(** * Properties *)

(** ** [keeps] is closed under sequencing, [try]/[catch] and loops *)

Section Keeps.

Context {W : Type} (R : Machine W -> Machine W -> Prop) `{!PreOrder R}.

Lemma keeps_ret {A : Type} (a : A) : keeps R (ret a).
Proof. intros m. simpl. reflexivity. Qed.

Lemma keeps_throw {A : Type} (e : string) : keeps R (@throw W A e).
Proof. intros m. simpl. reflexivity. Qed.

Lemma keeps_attempt {A : Type} (r : Result A) : keeps R (@attempt W A r).
Proof. intros m. reflexivity. Qed.

Lemma keeps_getStore : keeps R getStore.
Proof. intros m. simpl. reflexivity. Qed.

Lemma keeps_bind {A B : Type} (c : M W A) (k : A -> M W B) :
  keeps R c -> (forall a, keeps R (k a)) -> keeps R (bind c k).
Proof.
  intros Hc Hk m. unfold bind. specialize (Hc m).
  destruct (c m) as [m' [a|e]]; simpl in *.
  - etransitivity; [exact Hc | apply Hk].
  - exact Hc.
Qed.

Lemma keeps_tryCatch {A : Type} (c : M W A) (h : string -> M W A) :
  keeps R c -> (forall e, keeps R (h e)) -> keeps R (tryCatch c h).
Proof.
  intros Hc Hh m. unfold tryCatch. specialize (Hc m).
  destruct (c m) as [m' [a|e]]; simpl in *.
  - exact Hc.
  - etransitivity; [exact Hc | apply Hh].
Qed.

Lemma keeps_forAcc {X S : Type} (body : X -> S -> M W S) (xs : list X) :
  (forall x acc, x ∈ xs -> keeps R (body x acc)) ->
  forall acc, keeps R (forAcc body xs acc).
Proof.
  induction xs as [|x xs IH]; intros Hbody acc; simpl.
  - apply keeps_ret.
  - apply keeps_bind.
    + apply Hbody. left.
    + intros acc'. apply IH. intros y a Hy. apply Hbody. right. exact Hy.
Qed.

Lemma keeps_forEach {X : Type} (body : X -> M W unit) (xs : list X) :
  (forall x, x ∈ xs -> keeps R (body x)) -> keeps R (forEach body xs).
Proof. intros Hbody. apply keeps_forAcc. intros x _ Hx. apply Hbody, Hx. Qed.

Lemma keeps_mapM {X Y : Type} (f : X -> M W Y) (xs : list X) :
  (forall x, x ∈ xs -> keeps R (f x)) -> keeps R (mapM f xs).
Proof.
  induction xs as [|x xs IH]; intros Hf; simpl.
  - apply keeps_ret.
  - apply keeps_bind; [apply Hf; left|]. intros y.
    apply keeps_bind; [apply IH; intros z Hz; apply Hf; right; exact Hz|].
    intros ys. apply keeps_ret.
Qed.

Lemma keeps_modifyStore (f : Store -> Store) :
  (forall m, R m {| store := f (store m); world := world m; trace := trace m |}) ->
  keeps R (modifyStore f).
Proof. intros H m. apply H. Qed.

Lemma keeps_emit (e : Event) :
  (forall m, R m {| store := store m; world := world m; trace := trace m ++ [e] |}) ->
  keeps R (emit e).
Proof. intros H m. apply H. Qed.

Lemma keeps_request {A : Type} (call : W -> W * Result A) (ev : bool -> Event) :
  (forall m w ok, R m {| store := store m; world := w; trace := trace m ++ [ev ok] |}) ->
  keeps R (request call ev).
Proof.
  intros H m. unfold request. destruct (call (world m)) as [w r]. simpl. apply H.
Qed.

Lemma keeps_ask {A : Type} (call : W -> W * A) :
  (forall m w, R m {| store := store m; world := w; trace := trace m |}) ->
  keeps R (ask call).
Proof.
  intros H m. unfold ask. destruct (call (world m)) as [w a]. simpl. apply H.
Qed.

Lemma keeps_request_at {A : Type} (call : W -> W * Result A) (ev : bool -> Event) :
  (forall m, R m {| store := store m; world := (call (world m)).1;
                    trace := trace m ++ [ev (isOk (call (world m)).2)] |}) ->
  keeps R (request call ev).
Proof.
  intros H m. unfold request. specialize (H m).
  destruct (call (world m)) as [w r]. exact H.
Qed.

Lemma keeps_ask_at {A : Type} (call : W -> W * A) :
  (forall m, R m {| store := store m; world := (call (world m)).1; trace := trace m |}) ->
  keeps R (ask call).
Proof.
  intros H m. unfold ask. specialize (H m).
  destruct (call (world m)) as [w a]. exact H.
Qed.

End Keeps.

#[local] Instance onStore_preorder {W : Type} (RS : Store -> Store -> Prop) :
  PreOrder RS -> PreOrder (@onStore W RS).
Proof.
  intros HRS. split.
  - intros m. unfold onStore. reflexivity.
  - intros a b c Hab Hbc. unfold onStore in *. etransitivity; eassumption.
Qed.

(** Structural descent through a computation; [leaf] closes the
    primitive steps. *)
Ltac walk leaf :=
  repeat first
    [ leaf
    | apply keeps_ret; [typeclasses eauto]
    | apply keeps_throw; [typeclasses eauto]
    | apply keeps_getStore; [typeclasses eauto]
    | apply keeps_attempt; [typeclasses eauto]
    | apply keeps_bind; [typeclasses eauto | | intros ?]
    | apply keeps_tryCatch; [typeclasses eauto | | intros ?]
    | apply keeps_forEach; [typeclasses eauto | intros ? ?]
    | apply keeps_forAcc; [typeclasses eauto | intros ? ? ?]
    | apply keeps_mapM; [typeclasses eauto | intros ? ?]
    | match goal with |- keeps _ (match ?x with _ => _ end) => destruct x end ].

Ltac storeLeaf :=
  first
    [ apply keeps_emit; intros ?; unfold onStore; simpl; reflexivity
    | apply keeps_request; intros ? ? ?; unfold onStore; simpl; reflexivity
    | apply keeps_ask; intros ? ?; unfold onStore; simpl; reflexivity ].

(** ** The identity mapping only grows *)

#[local] Instance mappingGrows_preorder : PreOrder mappingGrows.
Proof.
  split.
  - intros s. unfold mappingGrows. set_solver.
  - intros a b c Hab Hbc. unfold mappingGrows in *. set_solver.
Qed.

Lemma mapByName_dom {L R : Type} (lower : string -> string)
    (lid lname : L -> string) (rid rname : R -> string)
    (locals : list L) (remotes : option (list R)) (m : gmap string string) :
  dom m ⊆ dom (mapByName lower lid lname rid rname locals remotes m).
Proof.
  unfold mapByName. revert m.
  induction locals as [|l locals IH]; intros m; simpl; [set_solver|].
  etransitivity; [|apply IH].
  destruct (findByName lower rname remotes (lname l)); [|set_solver].
  rewrite dom_insert. set_solver.
Qed.

Lemma mapPillarsAndRituals_dom (lower : string -> string) (local : Objective.t)
    (remoteObj : ApiObjective.t) (m : gmap string string) :
  dom m ⊆ dom (mapPillarsAndRituals lower local remoteObj m).
Proof.
  unfold mapPillarsAndRituals.
  etransitivity; [|apply mapByName_dom].
  etransitivity; [|apply mapByName_dom].
  apply mapByName_dom.
Qed.

Lemma registerAll_dom (mappings : list (string * string)) (m : gmap string string) :
  dom (registerAll mappings m) = dom m ∪ list_to_set mappings.*1.
Proof.
  unfold registerAll. revert m.
  induction mappings as [|pm mappings IH]; intros m; simpl; [set_solver|].
  rewrite IH, dom_insert_L. set_solver.
Qed.

Lemma registerMinted_dom (local : Objective.t) (ids : Minted.t) (m : gmap string string) :
  dom (registerMinted local ids m) =
    dom m ∪ {[Objective.id local]} ∪ list_to_set (Minted.pillarMappings ids).*1
      ∪ list_to_set (Minted.metricMappings ids).*1
      ∪ list_to_set (Minted.ritualMappings ids).*1.
Proof.
  unfold registerMinted. rewrite !registerAll_dom, dom_insert_L. set_solver.
Qed.

Ltac growsLeaf :=
  first
    [ storeLeaf
    | apply keeps_modifyStore; intros ?; unfold onStore, mappingGrows; simpl;
      first
        [ reflexivity
        | rewrite registerMinted_dom; set_solver
        | etransitivity; [|apply mapPillarsAndRituals_dom];
          rewrite dom_insert; set_solver
        | rewrite dom_insert; set_solver ] ].

Section MappingGrows.

Context {W : Type} (api : Api W).

Lemma syncObjectives_grows : keeps (onStore mappingGrows) (syncObjectives api).
Proof.
  unfold syncObjectives, uploadObjectives, downloadObjectives,
    uploadObjectiveStep, downloadObjectiveStep, submitObjective, mintIds,
    mintAll, mintId.
  walk growsLeaf.
Qed.

Lemma syncTasks_grows : keeps (onStore mappingGrows) (syncTasks api).
Proof.
  unfold syncTasks, reconcileTasks, uploadTaskStep, statusStep, downloadTaskStep,
    mintId.
  walk growsLeaf.
Qed.

Lemma syncAll_grows : keeps (onStore mappingGrows) (syncAll api).
Proof.
  pose proof syncObjectives_grows. pose proof syncTasks_grows.
  unfold syncAll, syncBoth, syncFailed, notifyListeners.
  walk ltac:(first [assumption | growsLeaf]).
Qed.

End MappingGrows.

(** ** The published state during the two phases *)

#[local] Instance syncStateKept_preorder : PreOrder syncStateKept.
Proof.
  split.
  - intros s. reflexivity.
  - intros a b c Hab Hbc. unfold syncStateKept in *. congruence.
Qed.

Ltac keptLeaf :=
  first
    [ storeLeaf
    | apply keeps_modifyStore; intros ?; unfold onStore, syncStateKept; simpl;
      reflexivity ].

Section SyncStateKept.

Context {W : Type} (api : Api W).

Lemma syncObjectives_syncState : keeps (onStore syncStateKept) (syncObjectives api).
Proof.
  unfold syncObjectives, uploadObjectives, downloadObjectives,
    uploadObjectiveStep, downloadObjectiveStep, submitObjective, mintIds,
    mintAll, mintId.
  walk keptLeaf.
Qed.

Lemma syncTasks_syncState : keeps (onStore syncStateKept) (syncTasks api).
Proof.
  unfold syncTasks, reconcileTasks, uploadTaskStep, statusStep, downloadTaskStep,
    mintId.
  walk keptLeaf.
Qed.

Lemma concatIfAny_app (errors more : list string) :
  concatIfAny errors more = errors ++ more.
Proof.
  unfold concatIfAny. destruct more as [|e more]; simpl.
  - symmetry. apply app_nil_r.
  - reflexivity.
Qed.

Lemma syncAll_authenticated (m : Machine W) :
  isAuthenticated (store m) = true ->
  syncAll api m = tryCatch (syncBoth api) syncFailed (beginSync m).1.
Proof.
  intros Hauth. unfold syncAll. unfold bind at 1. unfold getStore at 1.
  rewrite Hauth. reflexivity.
Qed.

Lemma syncAll_unauthenticated (m : Machine W) :
  isAuthenticated (store m) = false ->
  syncAll api m = (m, Ok (SyncResult.mk false (Some "Not authenticated"))).
Proof.
  intros Hauth. unfold syncAll. unfold bind at 1. unfold getStore at 1.
  rewrite Hauth. reflexivity.
Qed.

End SyncStateKept.

(** ** [new Map(pairs)] *)

Section JsMap.

Context {V : Type}.

Lemma jsMap_fold (pairs : list (string * V)) (m : gmap string V) (k : string) :
  k ∉ pairs.*1 ->
  foldl (fun acc kv => <[kv.1 := kv.2]> acc) m pairs !! k = m !! k.
Proof.
  revert m. induction pairs as [|[k' v'] pairs IH]; intros m Hk; simpl; [reflexivity|].
  simpl in Hk. apply not_elem_of_cons in Hk as [Hne Hk].
  rewrite IH by exact Hk. apply lookup_insert_ne. congruence.
Qed.

Lemma jsMap_app (front back : list (string * V)) :
  jsMap (front ++ back) = foldl (fun acc kv => <[kv.1 := kv.2]> acc) (jsMap front) back.
Proof. unfold jsMap. apply foldl_app. Qed.

(** A later pair overwrites an earlier one: the last pair with a key is
    the one the map holds. *)
Lemma jsMap_last (front back : list (string * V)) (k : string) (v : V) :
  k ∉ back.*1 -> jsMap (front ++ (k, v) :: back) !! k = Some v.
Proof.
  intros Hk. rewrite jsMap_app. simpl. rewrite jsMap_fold by exact Hk.
  apply lookup_insert_eq.
Qed.

Lemma jsMap_None (pairs : list (string * V)) (k : string) :
  jsMap pairs !! k = None <-> k ∉ pairs.*1.
Proof.
  induction pairs as [|[k' v'] pairs IH] using rev_ind.
  - unfold jsMap. simpl. rewrite lookup_empty. split; [intros _|reflexivity].
    apply not_elem_of_nil.
  - rewrite jsMap_app. simpl. rewrite fmap_app. simpl.
    rewrite not_elem_of_app, not_elem_of_cons.
    destruct (decide (k' = k)) as [->|Hne].
    + rewrite lookup_insert_eq. split; [discriminate|]. intros [_ [[] _]]. reflexivity.
    + rewrite lookup_insert_ne by exact Hne. rewrite IH. split.
      * intros H. split; [exact H|]. split; [congruence|apply not_elem_of_nil].
      * intros [H _]. exact H.
Qed.

Lemma jsMap_Some (pairs : list (string * V)) (k : string) (v : V) :
  jsMap pairs !! k = Some v -> (k, v) ∈ pairs.
Proof.
  induction pairs as [|[k' v'] pairs IH] using rev_ind.
  - unfold jsMap. simpl. rewrite lookup_empty. discriminate.
  - rewrite jsMap_app. simpl. destruct (decide (k' = k)) as [->|Hne].
    + rewrite lookup_insert_eq. intros [= ->]. apply elem_of_app. right. left.
    + rewrite lookup_insert_ne by exact Hne. intros H. apply elem_of_app. left.
      apply IH, H.
Qed.

End JsMap.

(** ** Events added by a computation *)

#[local] Instance emitsOnly_preorder {W : Type} (P : Event -> Prop) :
  PreOrder (@emitsOnly W P).
Proof.
  split.
  - intros m. exists []. rewrite app_nil_r. split; [reflexivity|constructor].
  - intros a b c [e1 [H1 F1]] [e2 [H2 F2]]. exists (e1 ++ e2).
    rewrite H2, H1, app_assoc. split; [reflexivity|].
    apply Forall_app. split; assumption.
Qed.

#[local] Instance under_preorder {W : Type} (I : Store -> Prop)
    (R : Machine W -> Machine W -> Prop) :
  PreOrder R -> PreOrder (under I R).
Proof.
  intros HR. split.
  - intros m Hm. split; [exact Hm|reflexivity].
  - intros a b c Hab Hbc Ha. destruct (Hab Ha) as [Hb Rab].
    destruct (Hbc Hb) as [Hc Rbc]. split; [exact Hc|]. etransitivity; eassumption.
Qed.

Lemma emitsOnly_same {W : Type} (P : Event -> Prop) (m m' : Machine W) :
  trace m' = trace m -> emitsOnly P m m'.
Proof.
  intros H. exists []. rewrite app_nil_r. split; [exact H|constructor].
Qed.

Lemma emitsOnly_one {W : Type} (P : Event -> Prop) (m m' : Machine W) (e : Event) :
  trace m' = trace m ++ [e] -> P e -> emitsOnly P m m'.
Proof.
  intros H He. exists [e]. split; [exact H|]. constructor; [exact He|constructor].
Qed.

Lemma emitsOnly_weaken {W : Type} (P Q : Event -> Prop) (m m' : Machine W) :
  (forall e, P e -> Q e) -> emitsOnly P m m' -> emitsOnly Q m m'.
Proof.
  intros HPQ [evs [H F]]. exists evs. split; [exact H|].
  eapply Forall_impl; eassumption.
Qed.

(** Primitive steps under [emitsOnly P]; [tac] proves [P] of the event. *)
Ltac emitLeaf tac :=
  first
    [ apply keeps_emit; intros ?; eapply emitsOnly_one; [reflexivity | tac]
    | apply keeps_request; intros ? ? ?; eapply emitsOnly_one; [reflexivity | tac]
    | apply keeps_ask; intros ? ?; apply emitsOnly_same; reflexivity
    | apply keeps_modifyStore; intros ?; apply emitsOnly_same; reflexivity ].

Lemma apiStatus_eqb_eq (a b : ApiStatus) : apiStatus_eqb a b = true <-> a = b.
Proof. destruct a, b; simpl; split; congruence. Qed.

(** ** Status reconciliation *)

Section StatusPush.

Context {W : Type} (api : Api W).

Lemma apiStatusOf_translated (st : TaskStatus) : translated st (apiStatusOf st).
Proof. destruct st as [[]|]; constructor. Qed.

Lemma optISOString_printed (d : option Date) (sent : option Z) :
  optISOString d = Ok sent -> printed d sent.
Proof.
  destruct d as [[ms|]|]; simpl; intros H; inversion H; reflexivity.
Qed.

Lemma updateTaskPayload_Ok (local : Task.t) (data : UpdateTaskData.t) :
  updateTaskPayload local = Ok data ->
  translated (Task.status local) (UpdateTaskData.status data) /\
  UpdateTaskData.status data = apiStatusOf (Task.status local) /\
  printed (Task.completedAt local) (UpdateTaskData.completedAt data) /\
  UpdateTaskData.skippedReason data = Task.skippedReason local.
Proof.
  unfold updateTaskPayload.
  destruct (optISOString (Task.completedAt local)) as [sent|e] eqn:Hiso; [|discriminate].
  intros [= <-]. simpl. split; [apply apiStatusOf_translated|].
  split; [reflexivity|]. split; [apply optISOString_printed, Hiso|reflexivity].
Qed.

Lemma statusStep_pushedRight (remoteTasks : list ApiTask.t) (local : Task.t) :
  keeps (emitsOnly (pushedRight remoteTasks)) (statusStep api (indexTasks remoteTasks) local).
Proof.
  unfold statusStep.
  destruct (indexTasks remoteTasks !! Task.id local) as [remoteTask|] eqn:Hlook;
    [|apply keeps_ret; typeclasses eauto].
  destruct (apiStatus_eqb (apiStatusOf (Task.status local)) (ApiTask.status remoteTask))
    eqn:Heq; simpl; [apply keeps_ret; typeclasses eauto|].
  intros m. unfold tryCatch, bind, attempt.
  destruct (updateTaskPayload local) as [data|e] eqn:Hdata.
  2:{ exists []. simpl. rewrite app_nil_r. split; [reflexivity|constructor]. }
  destruct (updateTaskPayload_Ok local data Hdata) as [Htr [Hst [Hpr Hsk]]].
  assert (Hright : forall ok, pushedRight remoteTasks
                                (UpdateTask local (Task.id local) data ok)).
  { intros ok. simpl. split; [reflexivity|]. split; [exact Htr|].
    split; [exact Hpr|]. split; [exact Hsk|].
    exists remoteTask. split; [exact Hlook|].
    rewrite Hst. intros Hsame. rewrite Hsame in Heq.
    assert (apiStatus_eqb (apiStatusOf (Task.status local))
              (apiStatusOf (Task.status local)) = true)
      by (apply apiStatus_eqb_eq; reflexivity).
    congruence. }
  unfold request.
  destruct (updateTask api (Task.id local) data (world m)) as [w [u|e]]; simpl;
    eexists [_]; (split; [reflexivity|]); (constructor; [apply Hright|constructor]).
Qed.

Lemma reconcileTasks_pushedRight (remoteTasks : list ApiTask.t) (localTasks : list Task.t) :
  keeps (emitsOnly (pushedRight remoteTasks)) (reconcileTasks api remoteTasks localTasks).
Proof.
  unfold reconcileTasks, uploadTaskStep, downloadTaskStep, mintId.
  walk ltac:(first [apply statusStep_pushedRight | emitLeaf ltac:(exact I)]).
Qed.

End StatusPush.

(** ** Error accounting *)

Lemma failures_app (a b : list Event) : failures (a ++ b) = failures a ++ failures b.
Proof. unfold failures. apply omap_app. Qed.

Lemma attempted_app (a b : list Event) : attempted (a ++ b) = attempted a ++ attempted b.
Proof. unfold attempted. apply omap_app. Qed.

Lemma attemptedTasks_app (a b : list Event) :
  attemptedTasks (a ++ b) = attemptedTasks a ++ attemptedTasks b.
Proof. unfold attemptedTasks. apply omap_app. Qed.

Section Merged.

Context {A : Type}.

Lemma merged_nil_r (xs : list A) : merged xs [] xs.
Proof. induction xs; constructor; assumption. Qed.

Lemma merged_nil_l (ys : list A) : merged [] ys ys.
Proof. induction ys; constructor; assumption. Qed.

Lemma merged_app (xs1 ys1 zs1 xs2 ys2 zs2 : list A) :
  merged xs1 ys1 zs1 -> merged xs2 ys2 zs2 ->
  merged (xs1 ++ xs2) (ys1 ++ ys2) (zs1 ++ zs2).
Proof.
  intros H1 H2. induction H1; simpl; [exact H2| |]; constructor; assumption.
Qed.

Lemma merged_exact (xs zs : list A) : merged xs [] zs -> zs = xs.
Proof.
  intros H. remember [] as ys eqn:Hys.
  induction H as [|x xs ys zs _ IH|y xs ys zs _ _]; [reflexivity| |discriminate].
  f_equal. apply IH, Hys.
Qed.

Lemma merged_elem_of_l (x : A) (xs ys zs : list A) :
  merged xs ys zs -> x ∈ xs -> x ∈ zs.
Proof.
  induction 1 as [|x' xs ys zs _ IH|y xs ys zs _ IH]; intros Hin.
  - exact Hin.
  - apply elem_of_cons in Hin as [->|Hin]; [left|right; apply IH, Hin].
  - right. apply IH, Hin.
Qed.

Lemma merged_elem_of_r (y : A) (xs ys zs : list A) :
  merged xs ys zs -> y ∈ ys -> y ∈ zs.
Proof.
  induction 1 as [|x xs ys zs _ IH|y' xs ys zs _ IH]; intros Hin.
  - exact Hin.
  - right. apply IH, Hin.
  - apply elem_of_cons in Hin as [->|Hin]; [left|right; apply IH, Hin].
Qed.

End Merged.

Lemma tallied_nil (unsent : string -> Prop) : tallied unsent [] [].
Proof. exists []. split; constructor. Qed.

Lemma tallied_app (unsent : string -> Prop) (evs1 evs2 : list Event)
    (errs1 errs2 : list string) :
  tallied unsent evs1 errs1 -> tallied unsent evs2 errs2 ->
  tallied unsent (evs1 ++ evs2) (errs1 ++ errs2).
Proof.
  intros [d1 [Hm1 Hu1]] [d2 [Hm2 Hu2]]. exists (d1 ++ d2).
  split; [rewrite failures_app; apply merged_app; assumption|].
  apply Forall_app. split; assumption.
Qed.

Lemma tallied_weaken (unsent unsent' : string -> Prop) (evs : list Event)
    (errs : list string) :
  (forall msg, unsent msg -> unsent' msg) ->
  tallied unsent evs errs -> tallied unsent' evs errs.
Proof.
  intros Hsub [d [Hm Hu]]. exists d. split; [exact Hm|].
  eapply Forall_impl; [exact Hu|exact Hsub].
Qed.

Lemma tallied_exact (unsent : string -> Prop) (evs : list Event) (errs : list string) :
  (forall msg, ~ unsent msg) -> tallied unsent evs errs -> errs = failures evs.
Proof.
  intros Hnone [d [Hm Hu]]. destruct d as [|msg d].
  - apply merged_exact, Hm.
  - apply Forall_cons in Hu as [Hu _]. destruct (Hnone msg Hu).
Qed.

Lemma tallied_quiet (unsent : string -> Prop) (evs : list Event) :
  failures evs = [] -> tallied unsent evs [].
Proof. intros H. exists []. rewrite H. split; constructor. Qed.

Lemma index_absent {V : Type} (idOf : V -> string) (xs : list V) (k : string) :
  match jsMap ((fun x => (idOf x, x)) <$> xs) !! k with
  | None => true
  | Some _ => false
  end = bool_decide (k ∉ idOf <$> xs).
Proof.
  destruct (jsMap ((fun x => (idOf x, x)) <$> xs) !! k) eqn:Hlook; symmetry.
  - apply bool_decide_eq_false. intros Hnot.
    assert (Hnone : jsMap ((fun x => (idOf x, x)) <$> xs) !! k = None).
    { apply jsMap_None. rewrite <- list_fmap_compose. exact Hnot. }
    congruence.
  - apply bool_decide_eq_true. apply jsMap_None in Hlook.
    rewrite <- list_fmap_compose in Hlook. exact Hlook.
Qed.

Lemma localOnly_index (lower : string -> string) (remoteObjectives : list ApiObjective.t)
    (local : Objective.t) :
  localOnly lower remoteObjectives local =
    match indexById remoteObjectives !! Objective.id local with
    | Some _ => false
    | None =>
        match indexByName lower remoteObjectives !! lower (Objective.name local) with
        | Some _ => false
        | None => true
        end
    end.
Proof.
  unfold localOnly, indexById, indexByName.
  rewrite <- (index_absent ApiObjective.id remoteObjectives (Objective.id local)).
  rewrite <- (index_absent (fun o => lower (ApiObjective.name o)) remoteObjectives
                (lower (Objective.name local))).
  destruct (jsMap _ !! Objective.id local); [reflexivity|].
  destruct (jsMap _ !! lower (Objective.name local)); reflexivity.
Qed.

#[local] Instance tasksKept_preorder : PreOrder tasksKept.
Proof.
  split.
  - intros s. reflexivity.
  - intros a b c H1 H2. unfold tasksKept in *. congruence.
Qed.

Section Accounting.

Context {W : Type} (api : Api W).

Lemma syncObjectives_tasksKept : keeps (onStore tasksKept) (syncObjectives api).
Proof.
  unfold syncObjectives, uploadObjectives, downloadObjectives,
    uploadObjectiveStep, downloadObjectiveStep, submitObjective, mintIds,
    mintAll, mintId.
  walk ltac:(first
    [ storeLeaf
    | apply keeps_modifyStore; intros ?; unfold onStore, tasksKept; reflexivity ]).
Qed.

Lemma accounted_silent {A : Type} (unsent : string -> Prop) (out : A -> list string)
    (acc : list string) (m m' : Machine W) (a : A) :
  trace m' = trace m -> out a = acc -> accounted unsent out acc m (m', Ok a).
Proof.
  intros Ht Ho. exists []. simpl. rewrite !app_nil_r. split; [exact Ht|].
  split; [|constructor]. exists []. rewrite app_nil_r.
  split; [exact Ho|apply tallied_nil].
Qed.

Lemma accounted_bind {A B : Type} (unsent : string -> Prop) (c : M W A) (k : A -> M W B)
    (out1 : A -> list string) (out2 : B -> list string) (acc : list string)
    (m : Machine W) :
  accounted unsent out1 acc m (c m) ->
  (forall a m', accounted unsent out2 (out1 a) m' (k a m')) ->
  accounted unsent out2 acc m (bind c k m).
Proof.
  intros [evs1 [Ht1 H1]] Hk. unfold bind.
  destruct (c m) as [m1 [a|e]]; simpl in *.
  - destruct H1 as [[errs1 [Hout1 Htal1]] Hnf1].
    destruct (Hk a m1) as [evs2 [Ht2 H2]].
    exists (evs1 ++ evs2). split; [rewrite Ht2, Ht1, app_assoc; reflexivity|].
    destruct (k a m1) as [m2 [b|e]]; simpl in *.
    + destruct H2 as [[errs2 [Hout2 Htal2]] Hnf2]. split.
      * exists (errs1 ++ errs2). split.
        { rewrite Hout2, Hout1, app_assoc. reflexivity. }
        apply tallied_app; assumption.
      * apply Forall_app. split; assumption.
    + apply Exists_app. right. exact H2.
  - exists evs1. split; [exact Ht1|exact H1].
Qed.

Lemma accounted_forEach {X : Type} (unsent : string -> Prop) (body : X -> M W unit)
    (xs : list X) (acc : list string) :
  (forall x m, x ∈ xs -> accounted unsent (fun _ => acc) acc m (body x m)) ->
  forall m, accounted unsent (fun _ => acc) acc m (forEach body xs m).
Proof.
  unfold forEach. generalize tt.
  induction xs as [|x xs IH]; intros u Hbody m; simpl.
  - apply accounted_silent; reflexivity.
  - apply accounted_bind with (out1 := fun _ => acc).
    + apply Hbody. left.
    + intros a m'. apply IH. intros y m'' Hy. apply Hbody. right. exact Hy.
Qed.

(** Minting draws identifiers and nothing else. *)

Lemma mintId_run (localId : string) (m : Machine W) :
  exists w serverId,
    mintId api localId m = ({| store := store m; world := w; trace := trace m |}, Ok serverId).
Proof.
  unfold mintId. destruct (isValidUUID localId).
  - exists (world m), localId. destruct m; reflexivity.
  - unfold ask. destruct (generateId api (world m)) as [w fresh].
    exists w, fresh. reflexivity.
Qed.

Lemma mintAll_run {X : Type} (idOf : X -> string) (xs : list X) (m : Machine W) :
  exists w mappings,
    mintAll api idOf xs m = ({| store := store m; world := w; trace := trace m |}, Ok mappings)
    /\ mappings.*1 = idOf <$> xs.
Proof.
  unfold mintAll. revert m. induction xs as [|x xs IH]; intros m; simpl.
  - exists (world m), []. destruct m; split; reflexivity.
  - unfold bind at 1. unfold bind at 1.
    destruct (mintId_run (idOf x) m) as [w1 [sid ->]].
    unfold ret at 1.
    unfold bind at 1.
    destruct (IH {| store := store m; world := w1; trace := trace m |})
      as [w2 [mappings [-> Hfst]]].
    simpl. exists w2, ((idOf x, sid) :: mappings). split; [reflexivity|].
    rewrite !fmap_cons, Hfst. reflexivity.
Qed.

Lemma mintIds_run (local : Objective.t) (m : Machine W) :
  exists w ids,
    mintIds api local m = ({| store := store m; world := w; trace := trace m |}, Ok ids)
    /\ (Minted.pillarMappings ids).*1 = Pillar.id <$> Objective.pillars local
    /\ (Minted.metricMappings ids).*1 = Metric.id <$> Objective.metrics local
    /\ (Minted.ritualMappings ids).*1 = Ritual.id <$> Objective.rituals local.
Proof.
  unfold mintIds. unfold bind at 1.
  destruct (mintId_run (Objective.id local) m) as [w1 [oid ->]].
  unfold bind at 1.
  destruct (mintAll_run Pillar.id (Objective.pillars local)
              {| store := store m; world := w1; trace := trace m |})
    as [w2 [pms [-> Hp]]]. simpl.
  unfold bind at 1.
  destruct (mintAll_run Metric.id (Objective.metrics local)
              {| store := store m; world := w2; trace := trace m |})
    as [w3 [mms [-> Hm]]]. simpl.
  unfold bind at 1.
  destruct (mintAll_run Ritual.id (Objective.rituals local)
              {| store := store m; world := w3; trace := trace m |})
    as [w4 [rms [-> Hr]]]. simpl.
  exists w4, (Minted.mk oid pms mms rms). repeat split; assumption.
Qed.

(** The upload of one objective: what it returns and what it requests. *)

Lemma payloadOf_cases (local : Objective.t) (ids : Minted.t) :
  match payloadOf local ids with
  | Ok _ => sendable local = true
  | Threw _ => sendable local = false
  end.
Proof.
  unfold payloadOf, createObjectivePayload, sendable, optISOString.
  destruct (Timeframe.endDate (Objective.timeframe local)) as [[ms|]|]; reflexivity.
Qed.

Lemma submitObjective_outcome (local : Objective.t) (ids : Minted.t)
    (errors : list string) (m : Machine W) :
  exists evs m' errs,
    submitObjective api local ids errors m = (m', Ok (errors ++ errs)) /\
    trace m' = trace m ++ evs /\
    if sendable local
    then exists data ok, payloadOf local ids = Ok data /\
           evs = [CreateObjective local data ok] /\ errs = failures evs
    else evs = [] /\ errs = [uploadObjectiveError local] /\ store m' = store m.
Proof.
  unfold submitObjective, tryCatch, bind, attempt.
  pose proof (payloadOf_cases local ids) as Hcase.
  destruct (payloadOf local ids) as [data|e]; rewrite Hcase.
  - unfold request.
    destruct (createObjective api data (world m)) as [w [result|e]]; simpl.
    + destruct (Created.objective result); simpl;
        eexists [_], _, []; rewrite app_nil_r;
        (split; [reflexivity|]); (split; [reflexivity|]);
        exists data, true; repeat split.
    + eexists [_], _, _. split; [reflexivity|]. split; [reflexivity|].
      exists data, false. repeat split.
  - simpl. exists [], m, [uploadObjectiveError local]. rewrite app_nil_r.
    repeat split.
Qed.

Lemma uploadObjectiveStep_outcome (remoteObjectives : list ApiObjective.t)
    (local : Objective.t) (errors : list string) (m : Machine W) :
  exists evs m' errs,
    uploadObjectiveStep api (indexById remoteObjectives)
      (indexByName (toLowerCase api) remoteObjectives) local errors m
      = (m', Ok (errors ++ errs)) /\
    trace m' = trace m ++ evs /\
    Forall (fun e => fatal e = false) evs /\
    attempted evs =
      (if toUpload (toLowerCase api) remoteObjectives local then [local] else []) /\
    merged (failures evs)
      (if toGiveUp (toLowerCase api) remoteObjectives local
       then [uploadObjectiveError local] else [])
      errs.
Proof.
  unfold uploadObjectiveStep, toUpload, toGiveUp. rewrite localOnly_index.
  destruct (indexById remoteObjectives !! Objective.id local) as [r|].
  { eexists [], _, []. rewrite app_nil_r. split; [reflexivity|]. simpl.
    rewrite app_nil_r. repeat split; constructor. }
  destruct (indexByName (toLowerCase api) remoteObjectives
              !! toLowerCase api (Objective.name local)) as [r|].
  { eexists [], _, []. rewrite app_nil_r. split; [reflexivity|]. simpl.
    rewrite app_nil_r. repeat split; constructor. }
  unfold bind at 1.
  destruct (mintIds_run local m) as [w [ids [-> _]]].
  destruct (submitObjective_outcome local ids errors
              {| store := store m; world := w; trace := trace m |})
    as [evs [m' [errs [Hr [Ht Hcase]]]]].
  exists evs, m', errs. split; [exact Hr|]. split; [exact Ht|].
  simpl andb. destruct (sendable local); simpl.
  - destruct Hcase as [data [ok [_ [-> ->]]]].
    split; [constructor; [reflexivity|constructor]|].
    split; [reflexivity|apply merged_nil_r].
  - destruct Hcase as [-> [-> _]].
    split; [constructor|]. split; [reflexivity|apply merged_nil_l].
Qed.

Lemma uploadObjectives_outcome (remoteObjectives : list ApiObjective.t)
    (localObjectives : list Objective.t) (acc : list string) (m : Machine W) :
  exists evs m' errs,
    forAcc (uploadObjectiveStep api (indexById remoteObjectives)
              (indexByName (toLowerCase api) remoteObjectives)) localObjectives acc m
      = (m', Ok (acc ++ errs)) /\
    trace m' = trace m ++ evs /\
    Forall (fun e => fatal e = false) evs /\
    attempted evs =
      List.filter (toUpload (toLowerCase api) remoteObjectives) localObjectives /\
    merged (failures evs)
      (uploadObjectiveError <$>
         List.filter (toGiveUp (toLowerCase api) remoteObjectives) localObjectives)
      errs.
Proof.
  revert acc m.
  induction localObjectives as [|x xs IH]; intros acc m; simpl.
  - exists [], m, []. simpl. rewrite !app_nil_r. repeat split; constructor.
  - unfold bind at 1.
    destruct (uploadObjectiveStep_outcome remoteObjectives x acc m)
      as [evs1 [m1 [errs1 [-> [Ht1 [Hf1 [Ha1 Hm1]]]]]]].
    destruct (IH (acc ++ errs1) m1) as [evs2 [m2 [errs2 [-> [Ht2 [Hf2 [Ha2 Hm2]]]]]]].
    exists (evs1 ++ evs2), m2, (errs1 ++ errs2).
    split; [rewrite app_assoc; reflexivity|].
    split; [rewrite Ht2, Ht1, app_assoc; reflexivity|].
    split; [apply Forall_app; split; assumption|].
    split.
    + rewrite attempted_app, Ha1, Ha2.
      destruct (toUpload (toLowerCase api) remoteObjectives x); reflexivity.
    + rewrite failures_app.
      replace (uploadObjectiveError <$>
                 (if toGiveUp (toLowerCase api) remoteObjectives x
                  then x :: List.filter (toGiveUp (toLowerCase api) remoteObjectives) xs
                  else List.filter (toGiveUp (toLowerCase api) remoteObjectives) xs))
        with ((if toGiveUp (toLowerCase api) remoteObjectives x
               then [uploadObjectiveError x] else [])
              ++ (uploadObjectiveError <$>
                    List.filter (toGiveUp (toLowerCase api) remoteObjectives) xs))
        by (destruct (toGiveUp (toLowerCase api) remoteObjectives x); reflexivity).
      apply merged_app; assumption.
Qed.

Lemma given_up_unsent (lower : string -> string) (remoteObjectives : list ApiObjective.t)
    (localObjectives : list Objective.t) :
  Forall (fun msg => exists o, o ∈ localObjectives /\ sendable o = false /\
                       msg = uploadObjectiveError o)
    (uploadObjectiveError <$>
       List.filter (toGiveUp lower remoteObjectives) localObjectives).
Proof.
  apply Forall_forall. intros msg Hin.
  apply list_elem_of_fmap in Hin as [o [-> Ho]].
  apply list_elem_of_In, filter_In in Ho as [Ho Hgive].
  exists o. split; [apply list_elem_of_In, Ho|]. split; [|reflexivity].
  unfold toGiveUp in Hgive. apply andb_true_iff in Hgive as [_ Hgive].
  apply negb_true_iff, Hgive.
Qed.

(** Requests outside the per-item [try] blocks. *)

Lemma accounted_request {A : Type} (unsent : string -> Prop)
    (call : W -> W * Result A) (ev : bool -> Event)
    (acc : list string) (m : Machine W) :
  failureOf (ev true) = None -> fatal (ev true) = false -> fatal (ev false) = true ->
  accounted unsent (fun _ => acc) acc m (request call ev m).
Proof.
  intros Hfail Hok Hfatal. unfold request.
  destruct (call (world m)) as [w [a|e]]; simpl.
  - exists [ev true]. simpl. split; [reflexivity|]. split.
    + exists []. rewrite app_nil_r. split; [reflexivity|].
      apply tallied_quiet. unfold failures. simpl. rewrite Hfail. reflexivity.
    + constructor; [exact Hok|constructor].
  - exists [ev false]. simpl. split; [reflexivity|]. constructor. exact Hfatal.
Qed.

Lemma downloadObjectiveStep_accounted (unsent : string -> Prop)
    (localMap : gmap string Objective.t)
    (remoteObj : ApiObjective.t) (acc : list string) (m : Machine W) :
  accounted unsent (fun _ => acc) acc m (downloadObjectiveStep api localMap remoteObj m).
Proof.
  unfold downloadObjectiveStep.
  destruct (localMap !! ApiObjective.id remoteObj).
  { apply accounted_silent; reflexivity. }
  apply accounted_bind with (out1 := fun _ => acc).
  - apply accounted_request; reflexivity.
  - intros full m'. apply accounted_silent; reflexivity.
Qed.

Lemma syncObjectives_accounted (m : Machine W) :
  accounted (unsentObjective (store m)) (fun a => a) [] m (syncObjectives api m).
Proof.
  unfold syncObjectives. unfold bind at 1. unfold getStore at 1.
  set (U := unsentObjective (store m)).
  apply accounted_bind with (out1 := fun _ => []).
  { apply accounted_request; reflexivity. }
  intros remoteObjectives m2. apply accounted_bind with (out1 := fun a => a).
  { unfold uploadObjectives.
    destruct (uploadObjectives_outcome remoteObjectives (objectives (store m)) [] m2)
      as [evs [m3 [errs [-> [Ht [Hf [_ Hm]]]]]]].
    exists evs. simpl. split; [exact Ht|]. split; [|exact Hf].
    exists errs. split; [reflexivity|].
    eexists. split; [exact Hm|]. apply given_up_unsent. }
  intros errors m3. apply accounted_bind with (out1 := fun _ => errors).
  { unfold downloadObjectives. apply accounted_forEach.
    intros x m4 _. apply downloadObjectiveStep_accounted. }
  intros u m4. apply accounted_silent; reflexivity.
Qed.

(** The task phase, loop by loop. *)

Lemma createTaskPayload_cases (local : Task.t) (taskId sid : string)
    (pillarId ritualId : option string) :
  match createTaskPayload local taskId sid pillarId ritualId with
  | Ok _ => sendableTask local = true
  | Threw _ => sendableTask local = false
  end.
Proof.
  unfold createTaskPayload, sendableTask.
  destruct (Task.scheduledAt local); reflexivity.
Qed.

Lemma uploadTaskStep_outcome (remoteTasks : list ApiTask.t) (t : Task.t)
    (errors : list string) (m : Machine W) :
  exists evs m' errs,
    uploadTaskStep api (indexTasks remoteTasks) t errors m = (m', Ok (errors ++ errs)) /\
    store m' = store m /\ trace m' = trace m ++ evs /\
    Forall (fun e => fatal e = false) evs /\
    attemptedTasks evs =
      (if toPost (idMapping (store m)) remoteTasks t then [t] else []) /\
    merged (failures evs)
      (if toDrop (idMapping (store m)) remoteTasks t then [uploadTaskError t] else [])
      errs.
Proof.
  unfold uploadTaskStep, toPost, toDrop, uploadable.
  pose proof (index_absent ApiTask.id remoteTasks (Task.id t)) as Habs.
  fold (indexTasks remoteTasks) in Habs.
  destruct (indexTasks remoteTasks !! Task.id t) as [rt|].
  { rewrite <- Habs. exists [], m, []. rewrite !app_nil_r. repeat split; constructor. }
  rewrite <- Habs. simpl andb.
  unfold bind at 1. unfold getStore at 1.
  destruct (orElse (idMapping (store m) !! Task.objectiveId t) None) as [sid|] eqn:Hres.
  2:{ assert (Hno : match idMapping (store m) !! Task.objectiveId t with
                    | Some s => Str.truthy s
                    | None => false
                    end = false).
      { unfold orElse in Hres. destruct (idMapping (store m) !! Task.objectiveId t);
          [|reflexivity]. destruct (Str.truthy s); [discriminate|reflexivity]. }
      rewrite Hno. exists [], m, []. rewrite !app_nil_r. repeat split; constructor. }
  assert (Hyes : match idMapping (store m) !! Task.objectiveId t with
                 | Some s => Str.truthy s
                 | None => false
                 end = true).
  { unfold orElse in Hres. destruct (idMapping (store m) !! Task.objectiveId t);
      [|discriminate]. destruct (Str.truthy s); [reflexivity|discriminate]. }
  rewrite Hyes. simpl andb.
  unfold bind at 1.
  destruct (mintId_run (Task.id t) m) as [w [taskId ->]].
  unfold tryCatch, bind, attempt.
  match goal with |- context [createTaskPayload t ?i ?o ?p ?r] =>
    pose proof (createTaskPayload_cases t i o p r) as Hcase;
    destruct (createTaskPayload t i o p r) as [data|e]
  end; rewrite Hcase; simpl.
  - unfold request. simpl.
    destruct (createTask api data w) as [w' [u|e]]; simpl.
    + exists [CreateTask t data true]. eexists _, []. rewrite app_nil_r.
      repeat split; try constructor; try reflexivity. constructor.
    + exists [CreateTask t data false]. eexists _, _.
      split; [reflexivity|]. repeat split; try constructor; try reflexivity.
      * constructor.
      * constructor.
  - exists []. eexists _, [uploadTaskError t]. rewrite app_nil_r.
    split; [reflexivity|]. repeat split; try constructor. constructor.
Qed.

Lemma uploadTasks_outcome (remoteTasks : list ApiTask.t) (ts : list Task.t)
    (errors : list string) (m : Machine W) :
  exists evs m' errs,
    forAcc (uploadTaskStep api (indexTasks remoteTasks)) ts errors m
      = (m', Ok (errors ++ errs)) /\
    store m' = store m /\ trace m' = trace m ++ evs /\
    Forall (fun e => fatal e = false) evs /\
    attemptedTasks evs = List.filter (toPost (idMapping (store m)) remoteTasks) ts /\
    merged (failures evs)
      (uploadTaskError <$> List.filter (toDrop (idMapping (store m)) remoteTasks) ts)
      errs.
Proof.
  revert errors m. induction ts as [|t ts IH]; intros errors m; simpl.
  - exists [], m, []. rewrite !app_nil_r. repeat split; constructor.
  - unfold bind at 1.
    destruct (uploadTaskStep_outcome remoteTasks t errors m)
      as [evs1 [m1 [errs1 [-> [Hs1 [Ht1 [Hf1 [Ha1 Hm1]]]]]]]].
    destruct (IH (errors ++ errs1) m1)
      as [evs2 [m2 [errs2 [-> [Hs2 [Ht2 [Hf2 [Ha2 Hm2]]]]]]]].
    rewrite Hs1 in Ha2, Hm2, Hs2.
    exists (evs1 ++ evs2), m2, (errs1 ++ errs2).
    split; [rewrite app_assoc; reflexivity|].
    split; [exact Hs2|]. split; [rewrite Ht2, Ht1, app_assoc; reflexivity|].
    split; [apply Forall_app; split; assumption|].
    split.
    + rewrite attemptedTasks_app, Ha1, Ha2.
      destruct (toPost (idMapping (store m)) remoteTasks t); reflexivity.
    + rewrite failures_app.
      replace (uploadTaskError <$>
                 (if toDrop (idMapping (store m)) remoteTasks t
                  then t :: List.filter (toDrop (idMapping (store m)) remoteTasks) ts
                  else List.filter (toDrop (idMapping (store m)) remoteTasks) ts))
        with ((if toDrop (idMapping (store m)) remoteTasks t
               then [uploadTaskError t] else [])
              ++ (uploadTaskError <$>
                    List.filter (toDrop (idMapping (store m)) remoteTasks) ts))
        by (destruct (toDrop (idMapping (store m)) remoteTasks t); reflexivity).
      apply merged_app; assumption.
Qed.

Lemma statusLoop_outcome (remoteMap : gmap string ApiTask.t) (ts : list Task.t)
    (u : unit) (m : Machine W) :
  exists evs m',
    forAcc (fun x _ => statusStep api remoteMap x) ts u m = (m', Ok tt) /\
    store m' = store m /\ trace m' = trace m ++ evs /\
    Forall (fun e => isUpdateTask e = true) evs.
Proof.
  revert u m. induction ts as [|t ts IH]; intros u m; simpl.
  - destruct u. exists [], m. rewrite app_nil_r. repeat split. constructor.
  - unfold bind at 1.
    assert (Hstep : exists evs1 m1,
              statusStep api remoteMap t m = (m1, Ok tt) /\ store m1 = store m /\
              trace m1 = trace m ++ evs1 /\ Forall (fun e => isUpdateTask e = true) evs1).
    { unfold statusStep. destruct (remoteMap !! Task.id t) as [rt|].
      2:{ exists [], m. rewrite app_nil_r. repeat split. constructor. }
      destruct (negb _).
      2:{ exists [], m. rewrite app_nil_r. repeat split. constructor. }
      unfold tryCatch, bind, attempt.
      destruct (updateTaskPayload t) as [data|e].
      2:{ exists [], m. rewrite app_nil_r. repeat split. constructor. }
      unfold request.
      destruct (updateTask api (Task.id t) data (world m))
        as [w [[]|e]]; simpl; eexists [_], _; repeat split;
        constructor; try reflexivity; constructor. }
    destruct Hstep as [evs1 [m1 [-> [Hs1 [Ht1 Hu1]]]]].
    destruct (IH tt m1) as [evs2 [m2 [-> [Hs2 [Ht2 Hu2]]]]].
    exists (evs1 ++ evs2), m2. split; [reflexivity|]. split; [congruence|].
    split; [rewrite Ht2, Ht1, app_assoc; reflexivity|].
    apply Forall_app. split; assumption.
Qed.

Lemma updates_are_quiet (evs : list Event) :
  Forall (fun e => isUpdateTask e = true) evs ->
  failures evs = [] /\ attemptedTasks evs = [] /\
  Forall (fun e => fatal e = false) evs.
Proof.
  induction 1 as [|e evs He _ [IH1 [IH2 IH3]]]; [repeat split; constructor|].
  destruct e; try discriminate.
  change (UpdateTask local id data ok :: evs)
    with ([UpdateTask local id data ok] ++ evs).
  rewrite failures_app, attemptedTasks_app, IH1, IH2.
  repeat split. apply Forall_app. split; [|exact IH3].
  constructor; [reflexivity|constructor].
Qed.

Lemma downloadTasks_outcome (localTasks : list Task.t) (rts : list ApiTask.t)
    (u : unit) (m : Machine W) :
  exists m',
    forAcc (fun x _ => downloadTaskStep (indexLocalTasks localTasks) x) rts u m
      = (m', Ok tt) /\
    trace m' = trace m /\
    tasks (store m') =
      tasks (store m) ++ (localTaskOf <$> List.filter (unknownLocally localTasks) rts).
Proof.
  revert u m. induction rts as [|rt rts IH]; intros u m; simpl.
  - destruct u. exists m. rewrite app_nil_r. repeat split.
  - unfold bind at 1. unfold downloadTaskStep at 1, unknownLocally at 1.
    pose proof (index_absent Task.id localTasks (ApiTask.id rt)) as Habs.
    fold (indexLocalTasks localTasks) in Habs. rewrite <- Habs.
    destruct (indexLocalTasks localTasks !! ApiTask.id rt).
    + simpl. destruct (IH tt m) as [m' [-> [Ht Hts]]].
      exists m'. repeat split; assumption.
    + simpl.
      destruct (IH tt {| store := addTasks [localTaskOf rt] (store m);
                          world := world m; trace := trace m |})
        as [m' [-> [Ht Hts]]].
      exists m'. split; [reflexivity|]. split; [exact Ht|].
      rewrite Hts. simpl. rewrite <- app_assoc. reflexivity.
Qed.

(** The task phase as a whole: what it requests, what it returns and
    what it leaves in the task store, once the day's tasks are fetched. *)
Lemma syncTasks_run (m : Machine W) (remoteTasks : list ApiTask.t) :
  fetchedTasks api m = Ok remoteTasks ->
  exists evs m' errors,
    syncTasks api m = (m', Ok errors) /\
    trace m' = trace m ++ GetTasks (isoDay api (now api (world m)).2) true :: evs /\
    Forall (fun e => fatal e = false) evs /\
    attemptedTasks evs =
      List.filter (toPost (idMapping (store m)) remoteTasks) (tasks (store m)) /\
    merged (failures evs)
      (uploadTaskError <$>
         List.filter (toDrop (idMapping (store m)) remoteTasks) (tasks (store m)))
      errors /\
    tasks (store m') =
      tasks (store m)
      ++ (localTaskOf <$> List.filter (unknownLocally (tasks (store m))) remoteTasks).
Proof.
  unfold fetchedTasks, syncTasks. intros Hfetch.
  unfold bind at 1. unfold getStore at 1.
  unfold bind at 1. unfold ask at 1.
  destruct (now api (world m)) as [w d]. simpl in Hfetch |- *.
  unfold bind at 1. unfold request at 1. simpl.
  destruct (getTasks api (isoDay api d) w) as [w' r]. simpl in Hfetch. subst r. simpl.
  unfold reconcileTasks, forEach. unfold bind at 1.
  set (m1 := {| store := store m; world := w';
                trace := trace m ++ [GetTasks (isoDay api d) true] |}).
  destruct (uploadTasks_outcome remoteTasks (tasks (store m)) [] m1)
    as [evsU [m2 [errors [-> [Hs2 [Ht2 [Hf2 [Ha2 Hm2]]]]]]]].
  unfold bind at 1.
  destruct (statusLoop_outcome (indexTasks remoteTasks) (tasks (store m)) tt m2)
    as [evsS [m3 [-> [Hs3 [Ht3 Hu3]]]]].
  unfold bind at 1.
  destruct (downloadTasks_outcome (tasks (store m)) remoteTasks tt m3)
    as [m4 [-> [Ht4 Hts4]]].
  destruct (updates_are_quiet evsS Hu3) as [HfS [HaS HnfS]].
  exists (evsU ++ evsS), m4, errors. split; [reflexivity|].
  split; [rewrite Ht4, Ht3, Ht2; unfold m1; simpl; rewrite <- !app_assoc; reflexivity|].
  split; [apply Forall_app; split; assumption|].
  split; [rewrite attemptedTasks_app, Ha2, HaS, app_nil_r; reflexivity|].
  split; [rewrite failures_app, HfS, app_nil_r; exact Hm2|].
  rewrite Hts4, Hs3, Hs2. reflexivity.
Qed.

Lemma syncTasks_refused (m : Machine W) (e : string) :
  fetchedTasks api m = Threw e ->
  exists m', syncTasks api m = (m', Threw e) /\
    trace m' = trace m ++ [GetTasks (isoDay api (now api (world m)).2) false].
Proof.
  unfold fetchedTasks, syncTasks. intros Hfetch.
  unfold bind at 1. unfold getStore at 1. unfold bind at 1. unfold ask at 1.
  destruct (now api (world m)) as [w d]. simpl in Hfetch |- *.
  unfold bind at 1. unfold request at 1. simpl.
  destruct (getTasks api (isoDay api d) w) as [w' r]. simpl in Hfetch. subst r. simpl.
  eexists. split; reflexivity.
Qed.

Lemma dropped_unsent (ids : gmap string string) (remoteTasks : list ApiTask.t)
    (ts : list Task.t) (P : Task.t -> Prop) :
  (forall t, t ∈ ts -> uploadable ids remoteTasks t = true -> P t) ->
  Forall (fun msg => exists t, t ∈ ts /\ P t /\ sendableTask t = false /\
                       msg = uploadTaskError t)
    (uploadTaskError <$> List.filter (toDrop ids remoteTasks) ts).
Proof.
  intros HP. apply Forall_forall. intros msg Hin.
  apply list_elem_of_fmap in Hin as [t [-> Ht]].
  apply list_elem_of_In, filter_In in Ht as [Ht Hdrop].
  unfold toDrop in Hdrop. apply andb_true_iff in Hdrop as [Hup Hdrop].
  exists t. split; [apply list_elem_of_In, Ht|].
  split; [apply HP; [apply list_elem_of_In, Ht|exact Hup]|].
  split; [apply negb_true_iff, Hdrop|reflexivity].
Qed.

Lemma syncTasks_accounted (m : Machine W) :
  accounted (unsentTask (store m)) (fun a => a) [] m (syncTasks api m).
Proof.
  destruct (fetchedTasks api m) as [remoteTasks|e] eqn:Hfetch.
  - destruct (syncTasks_run m remoteTasks Hfetch)
      as [evs [m' [errors [-> [Ht [Hnf [_ [Hm _]]]]]]]].
    eexists. simpl. split; [exact Ht|]. split.
    + exists errors. split; [reflexivity|].
      eexists. split; [exact Hm|].
      eapply Forall_impl;
        [apply (dropped_unsent _ _ _ (fun _ => True)); intros; exact I|].
      intros msg [t [Hin [_ [Hs ->]]]]. exists t. repeat split; assumption.
    + constructor; [reflexivity|exact Hnf].
  - destruct (syncTasks_refused m e Hfetch) as [m' [-> Ht]].
    eexists. simpl. split; [exact Ht|]. constructor. reflexivity.
Qed.

(** What the failed events say about the error list. *)

Lemma failures_nil (evs : list Event) :
  (forall e, e ∈ evs -> failed e = true -> isUpdateTask e = true) -> failures evs = [].
Proof.
  induction evs as [|e evs IH]; intros H; [reflexivity|].
  unfold failures in *. simpl.
  assert (He : failureOf e = None).
  { specialize (H e (list_elem_of_here _ _)).
    destruct e as [ok|o d ok|id ok|date ok|t d ok|t id d ok|st]; try reflexivity;
      destruct ok; try reflexivity; simpl in H; specialize (H eq_refl); discriminate. }
  rewrite He. apply IH. intros e' He' Hf. apply H; [right; exact He'|exact Hf].
Qed.

Lemma failures_cons (evs : list Event) (e : Event) (msg : string) :
  e ∈ evs -> failureOf e = Some msg -> msg ∈ failures evs.
Proof.
  intros Hin He. unfold failures. apply list_elem_of_omap. exists e. split; assumption.
Qed.

Lemma no_fatal (evs : list Event) :
  (forall e, e ∈ evs -> failed e = true -> isUpdateTask e = true) ->
  Exists (fun e => fatal e = true) evs -> False.
Proof.
  intros H Hex. apply Exists_exists in Hex as [e [Hin Hf]].
  specialize (H e Hin).
  destruct e as [ok|o d ok|id ok|date ok|t d ok|t id d ok|st]; try discriminate;
    destruct ok; try discriminate; simpl in H; specialize (H eq_refl); discriminate.
Qed.

(** The orchestrator: either both phases return and the errors are a
    tally of the events, or a fatal request throws and the [catch] block
    publishes ['error']. *)
Lemma orchestrated (m1 : Machine W) :
  exists evs m' r,
    tryCatch (syncBoth api) syncFailed m1 = (m', r) /\
    trace m' = trace m1 ++ evs /\
    ((Forall (fun e => fatal e = false) evs /\
      exists at_ errs, tallied (unsendable (store m1)) evs errs /\
        syncState (store m') = finishedState errs at_ /\
        r = Ok (finishedResult errs))
     \/
     (Exists (fun e => fatal e = true) evs /\
      exists message, SyncState.status (syncState (store m')) = error /\
        r = Ok (SyncResult.mk false (Some message)))).
Proof.
  unfold tryCatch, syncBoth. unfold bind at 1.
  destruct (syncObjectives_accounted m1) as [evsO [HtO HO]].
  pose proof (syncObjectives_tasksKept m1) as Hkept.
  destruct (syncObjectives api m1) as [mo [oe|e]]; simpl in HtO, HO, Hkept.
  - destruct HO as [[errsO [-> HtalO]] HnfO]. unfold bind at 1.
    destruct (syncTasks_accounted mo) as [evsT [HtT HT]].
    destruct (syncTasks api mo) as [mt [te|e]]; simpl in HtT, HT.
    + destruct HT as [[errsT [-> HtalT]] HnfT].
      unfold bind, ask, modifyStore, notifyListeners, bind, getStore, emit, ret.
      destruct (now api (world mt)) as [w at_]. simpl.
      rewrite !concatIfAny_app. simpl.
      eexists (evsO ++ evsT ++ [Notify _]), _, _. split; [reflexivity|].
      simpl. split; [rewrite HtT, HtO, !app_assoc; reflexivity|].
      left. split.
      * apply Forall_app. split; [exact HnfO|]. apply Forall_app. split; [exact HnfT|].
        constructor; [reflexivity|constructor].
      * exists at_, (errsO ++ errsT). split; [|split; reflexivity].
        apply tallied_app.
        { eapply tallied_weaken; [|exact HtalO]. intros msg H. left. exact H. }
        rewrite <- (app_nil_r errsT). apply tallied_app; [|apply tallied_quiet; reflexivity].
        eapply tallied_weaken; [|exact HtalT].
        intros msg [t [Hin Hrest]]. right. exists t. split; [|exact Hrest].
        unfold onStore, tasksKept in Hkept. rewrite <- Hkept. exact Hin.
    + unfold syncFailed, bind, modifyStore, notifyListeners, bind, getStore, emit, ret.
      simpl.
      eexists (evsO ++ evsT ++ [Notify _]), _, _. split; [reflexivity|].
      simpl. split; [rewrite HtT, HtO, !app_assoc; reflexivity|].
      right. split.
      * apply Exists_app. right. apply Exists_app. left. exact HT.
      * exists e. split; reflexivity.
  - unfold syncFailed, bind, modifyStore, notifyListeners, bind, getStore, emit, ret.
    simpl.
    eexists (evsO ++ [Notify _]), _, _. split; [reflexivity|].
    simpl. split; [rewrite HtO, !app_assoc; reflexivity|].
    right. split.
    + apply Exists_app. left. exact HO.
    + exists e. split; reflexivity.
Qed.

End Accounting.

Lemma allSendable_none (s : Store) : allSendable s -> forall msg, ~ unsendable s msg.
Proof.
  intros [HallO HallT] msg [[o [Ho [Hs _]]]|[t [Ht [Hs _]]]].
  - rewrite Forall_forall in HallO. rewrite (HallO o Ho) in Hs. discriminate.
  - rewrite Forall_forall in HallT. rewrite (HallT t Ht) in Hs. discriminate.
Qed.

(** ** Deferred tasks *)

Lemma attemptedTasks_notCreating (t : Task.t) (evs : list Event) :
  t ∉ attemptedTasks evs -> Forall (notCreating t) evs.
Proof.
  induction evs as [|e evs IH]; intros Hnot; [constructor|].
  change (e :: evs) with ([e] ++ evs) in Hnot.
  rewrite attemptedTasks_app in Hnot. apply not_elem_of_app in Hnot as [He Hrest].
  constructor; [|apply IH, Hrest].
  destruct e; try exact I. simpl in *. intros ->. apply He. left.
Qed.

(** ** Name-based convergence *)

#[local] Instance binds_preorder (k v : string) : PreOrder (binds k v).
Proof.
  split.
  - intros s H. exact H.
  - intros a b c Hab Hbc H. apply Hbc, Hab, H.
Qed.

Lemma forAcc_app {W X S : Type} (body : X -> S -> M W S) (xs ys : list X)
    (acc : S) (m : Machine W) :
  forAcc body (xs ++ ys) acc m = bind (forAcc body xs acc) (forAcc body ys) m.
Proof.
  revert acc m. induction xs as [|x xs IH]; intros acc m; simpl; [reflexivity|].
  unfold bind. destruct (body x acc m) as [m' [a|e]]; [|reflexivity].
  rewrite IH. reflexivity.
Qed.

Lemma mapByName_lookup_ne {L R : Type} (lower : string -> string)
    (lid lname : L -> string) (rid rname : R -> string)
    (locals : list L) (remotes : option (list R)) (m : gmap string string) (k : string) :
  k ∉ lid <$> locals ->
  mapByName lower lid lname rid rname locals remotes m !! k = m !! k.
Proof.
  unfold mapByName. revert m.
  induction locals as [|l locals IH]; intros m Hk; simpl; [reflexivity|].
  rewrite fmap_cons in Hk. apply not_elem_of_cons in Hk as [Hne Hk].
  rewrite IH by exact Hk.
  destruct (findByName lower rname remotes (lname l)); [|reflexivity].
  apply lookup_insert_ne. congruence.
Qed.

Lemma mapPillarsAndRituals_lookup_ne (lower : string -> string) (local : Objective.t)
    (remoteObj : ApiObjective.t) (m : gmap string string) (k : string) :
  k ∉ List.tail (entityIds local) ->
  mapPillarsAndRituals lower local remoteObj m !! k = m !! k.
Proof.
  unfold entityIds. simpl. rewrite !not_elem_of_app. intros [Hp [Hm Hr]].
  unfold mapPillarsAndRituals.
  rewrite !mapByName_lookup_ne by assumption. reflexivity.
Qed.

Lemma registerAll_lookup_ne (mappings : list (string * string))
    (m : gmap string string) (k : string) :
  k ∉ mappings.*1 -> registerAll mappings m !! k = m !! k.
Proof. apply jsMap_fold. Qed.

Lemma registerMinted_lookup_ne (local : Objective.t) (ids : Minted.t)
    (m : gmap string string) (k : string) :
  (Minted.pillarMappings ids).*1 = Pillar.id <$> Objective.pillars local ->
  (Minted.metricMappings ids).*1 = Metric.id <$> Objective.metrics local ->
  (Minted.ritualMappings ids).*1 = Ritual.id <$> Objective.rituals local ->
  k ∉ entityIds local ->
  registerMinted local ids m !! k = m !! k.
Proof.
  intros Hp Hm Hr. unfold entityIds.
  rewrite not_elem_of_cons, !not_elem_of_app. intros [Hne [Hkp [Hkm Hkr]]].
  unfold registerMinted.
  rewrite !registerAll_lookup_ne by (rewrite ?Hp, ?Hm, ?Hr; assumption).
  apply lookup_insert_ne. congruence.
Qed.

Lemma matchedByName_index (lower : string -> string)
    (remoteObjectives : list ApiObjective.t) (local : Objective.t) (b : ApiObjective.t) :
  matchedByName lower remoteObjectives local b ->
  indexById remoteObjectives !! Objective.id local = None /\
  indexByName lower remoteObjectives !! lower (Objective.name local) = Some b.
Proof.
  intros [Hids [before [after [-> [Hname Hafter]]]]]. split.
  - unfold indexById. apply jsMap_None. rewrite <- list_fmap_compose. intros Hin.
    apply list_elem_of_fmap in Hin as [r [Heq Hr]]. apply (Hids r Hr). symmetry. exact Heq.
  - unfold indexByName. rewrite fmap_app, fmap_cons, <- Hname. apply jsMap_last.
    rewrite <- list_fmap_compose. intros Hin.
    apply list_elem_of_fmap in Hin as [r [Heq Hr]].
    apply (Hafter r Hr). simpl in Heq. congruence.
Qed.

Lemma rederived_derived (lower : string -> string)
    (remoteObjectives : list ApiObjective.t) (local : Objective.t) (v : string) :
  rederived lower remoteObjectives local v ->
  derived lower remoteObjectives local = Some v.
Proof.
  unfold derived. intros [[r [Hr Hid]]|b Hb].
  - destruct (indexById remoteObjectives !! Objective.id local) eqn:Hlook; [reflexivity|].
    exfalso. unfold indexById in Hlook. apply jsMap_None in Hlook. apply Hlook.
    rewrite <- list_fmap_compose. apply list_elem_of_fmap. exists r.
    split; [symmetry; exact Hid|exact Hr].
  - destruct (matchedByName_index lower remoteObjectives local b Hb) as [-> ->].
    reflexivity.
Qed.

Section Convergence.

Context {W : Type} (api : Api W).

Lemma uploadObjectiveStep_binds (remoteMap remoteByName : gmap string ApiObjective.t)
    (x : Objective.t) (errors : list string) (k v : string) :
  k ∉ entityIds x ->
  keeps (onStore (binds k v)) (uploadObjectiveStep api remoteMap remoteByName x errors).
Proof.
  intros Hk m. unfold onStore, binds, uploadObjectiveStep.
  assert (Hkid : Objective.id x <> k).
  { intros <-. apply Hk. unfold entityIds. left. }
  assert (Hkch : k ∉ List.tail (entityIds x)).
  { intros Hin. apply Hk. unfold entityIds in *. right. exact Hin. }
  destruct (remoteMap !! Objective.id x) as [r|].
  { simpl. intros Hb. rewrite mapPillarsAndRituals_lookup_ne by exact Hkch.
    rewrite lookup_insert_ne by exact Hkid. exact Hb. }
  destruct (remoteByName !! toLowerCase api (Objective.name x)) as [r|].
  { simpl. intros Hb. rewrite mapPillarsAndRituals_lookup_ne by exact Hkch.
    rewrite lookup_insert_ne by exact Hkid. exact Hb. }
  unfold bind at 1.
  destruct (mintIds_run api x m) as [w [ids [-> [Hp [Hm Hr]]]]].
  unfold submitObjective, tryCatch, bind, attempt.
  destruct (payloadOf x ids) as [data|e]; [|intros Hb; exact Hb].
  unfold request. simpl.
  destruct (createObjective api data w) as [w' [result|e]]; simpl.
  - destruct (Created.objective result); simpl; intros Hb; [|exact Hb].
    rewrite registerMinted_lookup_ne by assumption. exact Hb.
  - intros Hb. exact Hb.
Qed.

Lemma downloadObjectiveStep_binds (localObjectives : list Objective.t)
    (remoteObj : ApiObjective.t) (k v : string) :
  faithfulDetail api ->
  k ∈ Objective.id <$> localObjectives ->
  keeps (onStore (binds k v))
    (downloadObjectiveStep api (indexLocal localObjectives) remoteObj).
Proof.
  intros Hfaith Hk m. unfold onStore, binds, downloadObjectiveStep.
  destruct (indexLocal localObjectives !! ApiObjective.id remoteObj) eqn:Hlook.
  { simpl. intros Hb. exact Hb. }
  unfold bind at 1. unfold request.
  destruct (getObjective api (ApiObjective.id remoteObj) (world m))
    as [w [full|e]] eqn:Hget; simpl; intros Hb; [|exact Hb].
  rewrite lookup_insert_ne; [exact Hb|].
  rewrite (Hfaith _ _ _ _ Hget). intros Heq.
  apply jsMap_None in Hlook. apply Hlook.
  rewrite <- list_fmap_compose. rewrite Heq. exact Hk.
Qed.

Lemma uploadObjectiveStep_matched (remoteObjectives : list ApiObjective.t)
    (local : Objective.t) (b : ApiObjective.t) (errors : list string) (m : Machine W) :
  indexById remoteObjectives !! Objective.id local = None ->
  indexByName (toLowerCase api) remoteObjectives !! toLowerCase api (Objective.name local) = Some b ->
  uploadObjectiveStep api (indexById remoteObjectives)
    (indexByName (toLowerCase api) remoteObjectives)
    local errors m =
  ({| store := setMapping (fun ids =>
                 mapPillarsAndRituals (toLowerCase api) local b
                   (<[Objective.id local := ApiObjective.id b]> ids)) (store m);
      world := world m; trace := trace m |}, Ok errors).
Proof.
  intros Hid Hname. unfold uploadObjectiveStep. rewrite Hid, Hname. reflexivity.
Qed.

Lemma downloadObjectives_quiet (remoteObjectives : list ApiObjective.t)
    (localObjectives : list Objective.t) :
  keeps (emitsOnly notCreatingObjective)
    (downloadObjectives api remoteObjectives localObjectives).
Proof.
  unfold downloadObjectives, downloadObjectiveStep.
  walk ltac:(emitLeaf ltac:(exact I)).
Qed.

Lemma syncTasks_quiet : keeps (emitsOnly notCreatingObjective) (syncTasks api).
Proof.
  unfold syncTasks, reconcileTasks, uploadTaskStep, statusStep, downloadTaskStep, mintId.
  walk ltac:(emitLeaf ltac:(exact I)).
Qed.

Lemma attempted_quiet (evs : list Event) :
  Forall notCreatingObjective evs -> attempted evs = [].
Proof.
  induction 1 as [|e evs He _ IH]; [reflexivity|].
  change (e :: evs) with ([e] ++ evs). rewrite attempted_app, IH, app_nil_r.
  destruct e; try reflexivity. destruct He.
Qed.

Lemma syncTasks_binds (k v : string) : keeps (onStore (binds k v)) (syncTasks api).
Proof.
  unfold syncTasks, reconcileTasks, uploadTaskStep, statusStep, downloadTaskStep, mintId.
  walk ltac:(first
    [ storeLeaf
    | apply keeps_modifyStore; intros ?; unfold onStore, binds; simpl;
      intros Hb; exact Hb ]).
Qed.

Lemma uploadObjectiveStep_derives (remoteObjectives : list ApiObjective.t)
    (local : Objective.t) (v : string) (errors : list string) (m : Machine W) :
  derived (toLowerCase api) remoteObjectives local = Some v ->
  Objective.id local ∉ List.tail (entityIds local) ->
  exists m',
    uploadObjectiveStep api (indexById remoteObjectives)
      (indexByName (toLowerCase api) remoteObjectives) local errors m = (m', Ok errors) /\
    trace m' = trace m /\
    idMapping (store m') !! Objective.id local = Some v.
Proof.
  unfold derived, uploadObjectiveStep. intros Hder Hchildren.
  destruct (indexById remoteObjectives !! Objective.id local) as [r|].
  { injection Hder as <-. eexists. split; [reflexivity|]. split; [reflexivity|].
    simpl. rewrite mapPillarsAndRituals_lookup_ne by exact Hchildren.
    apply lookup_insert_eq. }
  destruct (indexByName (toLowerCase api) remoteObjectives
              !! toLowerCase api (Objective.name local)) as [b|]; [|discriminate].
  injection Hder as <-. eexists. split; [reflexivity|]. split; [reflexivity|].
  simpl. rewrite mapPillarsAndRituals_lookup_ne by exact Hchildren.
  apply lookup_insert_eq.
Qed.

Lemma upload_resolves (remoteObjectives : list ApiObjective.t)
    (before after : list Objective.t) (local : Objective.t) (v : string)
    (acc : list string) (m : Machine W) :
  derived (toLowerCase api) remoteObjectives local = Some v ->
  Objective.id local ∉ List.tail (entityIds local) ->
  (forall x, x ∈ after -> Objective.id local ∉ entityIds x) ->
  idMapping (store (forAcc (uploadObjectiveStep api (indexById remoteObjectives)
                              (indexByName (toLowerCase api) remoteObjectives))
                      (before ++ local :: after) acc m).1)
    !! Objective.id local = Some v.
Proof.
  intros Hder Hchildren Hafter.
  rewrite forAcc_app. unfold bind at 1.
  destruct (uploadObjectives_outcome api remoteObjectives before acc m)
    as [evsB [mB [errsB [-> _]]]].
  simpl forAcc. unfold bind at 1.
  destruct (uploadObjectiveStep_derives remoteObjectives local v (acc ++ errsB) mB
              Hder Hchildren) as [mL [-> [_ Hmap]]].
  match goal with |- context [forAcc ?body after ?a mL] =>
    apply (keeps_forAcc (onStore (binds (Objective.id local) v))
             body after) with (acc := a) (m := mL)
  end.
  - intros x a Hx. apply uploadObjectiveStep_binds. apply Hafter, Hx.
  - exact Hmap.
Qed.

Lemma localIds_split (before after : list Objective.t) (local : Objective.t) :
  NoDup (localIds (before ++ local :: after)) ->
  (Objective.id local ∉ List.tail (entityIds local)) /\
  (forall x, x ∈ after -> Objective.id local ∉ entityIds x).
Proof.
  unfold localIds. rewrite fmap_app, fmap_cons, concat_app. simpl.
  intros Hnd. apply NoDup_app in Hnd as [_ [_ Hnd]].
  apply NoDup_cons in Hnd as [Hnot _].
  apply not_elem_of_app in Hnot as [Hch Haf].
  split; [exact Hch|].
  intros x Hx Hin. apply Haf.
  apply list_elem_of_In, in_concat. exists (entityIds x).
  split; apply list_elem_of_In; [|exact Hin].
  apply list_elem_of_fmap. exists x. split; [reflexivity|exact Hx].
Qed.

Lemma then_ret_fst {A B : Type} (c : M W A) (b : B) (m : Machine W) :
  (bind c (fun _ => ret b) m).1 = (c m).1.
Proof. unfold bind, ret. destruct (c m) as [m' [a|e]]; reflexivity. Qed.

Lemma reconcile_fst (m : Machine W) :
  (reconcile api m).1 =
    match syncObjectives api m with
    | (mo, Ok _) => (syncTasks api mo).1
    | (mo, Threw _) => mo
    end.
Proof.
  unfold reconcile, bind, ret.
  destruct (syncObjectives api m) as [mo [oe|e]]; [|reflexivity].
  destruct (syncTasks api mo) as [mt [te|e]]; reflexivity.
Qed.

Lemma syncObjectives_listed (m : Machine W) (remoteObjectives : list ApiObjective.t)
    (w1 : W) :
  getObjectives api (world m) = (w1, Ok remoteObjectives) ->
  syncObjectives api m =
    bind (uploadObjectives api remoteObjectives (objectives (store m)))
      (fun errors =>
         downloadObjectives api remoteObjectives (objectives (store m)) >> ret errors)
      {| store := store m; world := w1; trace := trace m ++ [GetObjectives true] |}.
Proof.
  intros Hget. unfold syncObjectives. unfold bind at 1. unfold getStore at 1.
  unfold bind at 1. unfold request at 1. rewrite Hget. reflexivity.
Qed.

Lemma syncObjectives_resolves (m : Machine W) (remoteObjectives : list ApiObjective.t)
    (w1 : W) (local : Objective.t) (v : string) :
  getObjectives api (world m) = (w1, Ok remoteObjectives) ->
  faithfulDetail api ->
  local ∈ objectives (store m) ->
  NoDup (localIds (objectives (store m))) ->
  derived (toLowerCase api) remoteObjectives local = Some v ->
  idMapping (store (syncObjectives api m).1) !! Objective.id local = Some v /\
  exists evs, trace (syncObjectives api m).1 = trace m ++ evs /\
    attempted evs = List.filter (toUpload (toLowerCase api) remoteObjectives)
                      (objectives (store m)).
Proof.
  intros Hget Hfaith Hin Hnodup Hder.
  rewrite (syncObjectives_listed m remoteObjectives w1 Hget).
  set (m1 := {| store := store m; world := w1;
                trace := trace m ++ [GetObjectives true] |}).
  assert (Hmap : idMapping (store (uploadObjectives api remoteObjectives
                                     (objectives (store m)) m1).1)
                   !! Objective.id local = Some v).
  { pose proof Hin as Hin'.
    apply list_elem_of_split in Hin' as [before [after Hsplit]].
    rewrite Hsplit in Hnodup. apply localIds_split in Hnodup as [Hch Haf].
    unfold uploadObjectives. rewrite Hsplit.
    apply upload_resolves; assumption. }
  unfold uploadObjectives in *. unfold bind at 1. unfold bind at 2.
  destruct (uploadObjectives_outcome api remoteObjectives (objectives (store m)) [] m1)
    as [evsU [m2 [errsU [Hrun [HtU [_ [HaU _]]]]]]].
  rewrite Hrun in Hmap |- *. simpl in Hmap.
  rewrite !then_ret_fst.
  pose proof (downloadObjectives_quiet remoteObjectives (objectives (store m)) m2)
    as [evsD [HtD HqD]].
  split.
  - apply (keeps_forEach (onStore (binds (Objective.id local) v)))
      with (m := m2); [|exact Hmap].
    intros x _. apply downloadObjectiveStep_binds; [exact Hfaith|].
    apply list_elem_of_fmap. exists local. split; [reflexivity|exact Hin].
  - exists ([GetObjectives true] ++ evsU ++ evsD).
    split; [rewrite HtD, HtU; unfold m1; simpl; rewrite <- !app_assoc; reflexivity|].
    rewrite !attempted_app, HaU, (attempted_quiet evsD HqD), app_nil_r.
    reflexivity.
Qed.

Lemma reconcile_resolves (m : Machine W) (remoteObjectives : list ApiObjective.t)
    (w1 : W) (local : Objective.t) (v : string) :
  getObjectives api (world m) = (w1, Ok remoteObjectives) ->
  faithfulDetail api ->
  local ∈ objectives (store m) ->
  NoDup (localIds (objectives (store m))) ->
  derived (toLowerCase api) remoteObjectives local = Some v ->
  idMapping (store (reconcile api m).1) !! Objective.id local = Some v /\
  exists evs, trace (reconcile api m).1 = trace m ++ evs /\
    attempted evs = List.filter (toUpload (toLowerCase api) remoteObjectives)
                      (objectives (store m)).
Proof.
  intros Hget Hfaith Hin Hnodup Hder.
  destruct (syncObjectives_resolves m remoteObjectives w1 local v
              Hget Hfaith Hin Hnodup Hder) as [Hmap [evsO [HtO HaO]]].
  rewrite !reconcile_fst.
  destruct (syncObjectives api m) as [mo [oe|e]]; simpl in Hmap, HtO |- *.
  - pose proof (syncTasks_binds (Objective.id local) v mo Hmap) as HmapT.
    pose proof (syncTasks_quiet mo) as [evsT [HtT HqT]].
    split; [exact HmapT|].
    exists (evsO ++ evsT). split; [rewrite HtT, HtO, app_assoc; reflexivity|].
    rewrite attempted_app, (attempted_quiet evsT HqT), app_nil_r. exact HaO.
  - split; [exact Hmap|]. exists evsO. split; [exact HtO|exact HaO].
Qed.

(** After ['syncing'] is published, the orchestrator touches the mapping
    through the two phases only. *)
Lemma syncAll_mapping (m : Machine W) :
  isAuthenticated (store m) = true ->
  idMapping (store (syncAll api m).1)
    = idMapping (store (reconcile api (beginSync m).1).1).
Proof.
  intros Hauth. rewrite (syncAll_authenticated api m Hauth).
  generalize ((beginSync m).1). intros m1.
  rewrite reconcile_fst. unfold tryCatch, syncBoth. unfold bind at 1.
  destruct (syncObjectives api m1) as [mo [oe|e]]; [|reflexivity].
  unfold bind at 1.
  destruct (syncTasks api mo) as [mt [te|e]]; [|reflexivity].
  unfold bind, ask, modifyStore, notifyListeners, bind, getStore, emit, ret.
  destruct (now api (world mt)) as [w at_]. reflexivity.
Qed.

End Convergence.

(** ** The in-memory backend *)

Lemma Backend_detail_faithful : faithfulDetail Backend.api.
Proof.
  intros id w w' o. simpl. unfold Backend.guarded.
  destruct (Backend.outage w Backend.objectiveDetail); [discriminate|].
  destruct (List.find (fun x => String.eqb (ApiObjective.id x) id)
              (Backend.srvObjectives w)) as [found|] eqn:Hfind; [|discriminate].
  intros [= <- <-]. apply find_some in Hfind as [_ Heq].
  apply String.eqb_eq in Heq. exact Heq.
Qed.

(** ** Two passes on the in-memory backend *)

Lemma index_lookup_mono {V : Type} (pairs extra : list (string * V)) (k : string) :
  jsMap pairs !! k <> None -> jsMap (pairs ++ extra) !! k <> None.
Proof.
  rewrite !jsMap_None, fmap_app. intros Hin Hnot. apply Hin. intros Hk.
  apply Hnot. apply elem_of_app. left. exact Hk.
Qed.

Section LocalOnly.

Variable lower : string -> string.

Lemma localOnly_by_id (srv : list ApiObjective.t) (x : Objective.t) :
  Objective.id x ∈ ApiObjective.id <$> srv -> localOnly lower srv x = false.
Proof.
  intros Hin. rewrite localOnly_index.
  destruct (indexById srv !! Objective.id x) eqn:Hlook; [reflexivity|].
  exfalso. unfold indexById in Hlook. apply jsMap_None in Hlook. apply Hlook.
  rewrite <- list_fmap_compose. exact Hin.
Qed.

Lemma localOnly_by_name (srv : list ApiObjective.t) (x : Objective.t) :
  lower (Objective.name x) ∈ (fun o => lower (ApiObjective.name o)) <$> srv ->
  localOnly lower srv x = false.
Proof.
  intros Hin. rewrite localOnly_index.
  destruct (indexById srv !! Objective.id x); [reflexivity|].
  destruct (indexByName lower srv !! lower (Objective.name x)) eqn:Hlook;
    [reflexivity|].
  exfalso. unfold indexByName in Hlook. apply jsMap_None in Hlook. apply Hlook.
  rewrite <- list_fmap_compose. exact Hin.
Qed.

Lemma localOnly_false_iff (srv : list ApiObjective.t) (x : Objective.t) :
  localOnly lower srv x = false <->
  indexById srv !! Objective.id x <> None \/
  indexByName lower srv !! lower (Objective.name x) <> None.
Proof.
  rewrite localOnly_index.
  destruct (indexById srv !! Objective.id x);
    destruct (indexByName lower srv !! lower (Objective.name x));
    split; intros H; try reflexivity; try discriminate;
    try (left; discriminate); try (right; discriminate).
  destruct H as [H|H]; congruence.
Qed.

Lemma localOnly_false_mono (srv extra : list ApiObjective.t) (x : Objective.t) :
  localOnly lower srv x = false -> localOnly lower (srv ++ extra) x = false.
Proof.
  rewrite !localOnly_false_iff. unfold indexById, indexByName. rewrite !fmap_app.
  intros [H|H]; [left|right]; apply index_lookup_mono; exact H.
Qed.

Lemma toUpload_false_iff (srv : list ApiObjective.t) (x : Objective.t) :
  toUpload lower srv x = false <-> localOnly lower srv x = false \/ sendable x = false.
Proof. unfold toUpload. apply andb_false_iff. Qed.

Lemma toUpload_false_mono (srv extra : list ApiObjective.t) (x : Objective.t) :
  toUpload lower srv x = false -> toUpload lower (srv ++ extra) x = false.
Proof.
  rewrite !toUpload_false_iff.
  intros [H|H]; [left; apply localOnly_false_mono, H|right; exact H].
Qed.

End LocalOnly.

#[local] Instance catalogKept_preorder : PreOrder catalogKept.
Proof.
  split.
  - intros m. repeat split.
  - intros a b c [H1 [H2 H3]] [H4 [H5 H6]]. unfold catalogKept.
    rewrite H4, H5, H6. repeat split; assumption.
Qed.

Ltac backendLeaf :=
  first
    [ apply keeps_request_at | apply keeps_ask_at | apply keeps_modifyStore
    | apply keeps_emit ];
  intros ?; unfold catalogKept; simpl; unfold Backend.guarded;
  repeat match goal with
         | |- context [if ?b then _ else _] => destruct b
         | |- context [match ?x with _ => _ end] => destruct x
         end;
  simpl; repeat split.

Section TwoPasses.

Import Backend.

Lemma mintIds_catalog (x : Objective.t) : keeps catalogKept (mintIds api x).
Proof.
  unfold mintIds, mintAll, mintId. walk backendLeaf.
Qed.

Lemma syncTasks_catalog : keeps catalogKept (syncTasks api).
Proof.
  unfold syncTasks, reconcileTasks, uploadTaskStep, statusStep, downloadTaskStep, mintId.
  walk backendLeaf.
Qed.

Lemma getObjectives_online (w : World) :
  reachable w -> getObjectives api w = (w, Ok (srvObjectives w)).
Proof. intros Hon. simpl. unfold guarded. rewrite Hon. reflexivity. Qed.

Lemma upload_step_catalog (srv0 : list ApiObjective.t) (x : Objective.t)
    (errors : list string) (m : Machine World) :
  reachable (world m) ->
  (exists earlier, srvObjectives (world m) = srv0 ++ earlier) ->
  exists m' errors',
    uploadObjectiveStep api (indexById srv0) (indexByName Str.toLowerCase srv0) x errors m
      = (m', Ok errors') /\
    outage (world m') = outage (world m) /\
    objectives (store m') = objectives (store m) /\
    (exists extra, srvObjectives (world m') = srvObjectives (world m) ++ extra) /\
    toUpload Str.toLowerCase (srvObjectives (world m')) x = false.
Proof.
  intros Hon [earlier Hsrv].
  destruct (localOnly Str.toLowerCase srv0 x) eqn:Honly.
  - unfold uploadObjectiveStep. rewrite localOnly_index in Honly.
    change (toLowerCase api) with Str.toLowerCase.
    destruct (indexById srv0 !! Objective.id x); [discriminate|].
    destruct (indexByName Str.toLowerCase srv0 !! Str.toLowerCase (Objective.name x));
      [discriminate|].
    unfold bind at 1.
    pose proof (mintIds_catalog x m) as [_ [Hs Ho]].
    destruct (mintIds_run api x m) as [w [ids [Hrun _]]].
    rewrite Hrun in Hs, Ho |- *. simpl in Hs, Ho.
    unfold submitObjective, tryCatch, bind, attempt.
    pose proof (payloadOf_cases x ids) as Hcase.
    destruct (payloadOf x ids) as [data|e] eqn:Hdata.
    + unfold request. simpl. unfold guarded.
      rewrite Ho, Hon. simpl.
      eexists _, _. split; [reflexivity|]. simpl.
      split; [exact Ho|]. split; [reflexivity|].
      split; [rewrite Hs; eexists; reflexivity|].
      apply toUpload_false_iff. left.
      apply localOnly_by_name. rewrite fmap_app. apply elem_of_app. right.
      simpl. unfold payloadOf, createObjectivePayload in Hdata.
      destruct (optISOString _); [|discriminate]. injection Hdata as <-. simpl. left.
    + simpl. eexists _, _. split; [reflexivity|]. simpl.
      split; [exact Ho|]. split; [reflexivity|].
      split; [rewrite Hs; exists []; rewrite app_nil_r; reflexivity|].
      apply toUpload_false_iff. right. exact Hcase.
  - assert (Hstill : toUpload Str.toLowerCase (srvObjectives (world m)) x = false).
    { apply toUpload_false_iff. left. rewrite Hsrv.
      apply localOnly_false_mono. exact Honly. }
    unfold uploadObjectiveStep. rewrite localOnly_index in Honly.
    change (toLowerCase api) with Str.toLowerCase.
    destruct (indexById srv0 !! Objective.id x).
    { eexists _, _. split; [reflexivity|]. simpl. repeat split; try assumption.
      exists []. rewrite app_nil_r. reflexivity. }
    destruct (indexByName Str.toLowerCase srv0 !! Str.toLowerCase (Objective.name x));
      [|discriminate].
    eexists _, _. split; [reflexivity|]. simpl. repeat split; try assumption.
    exists []. rewrite app_nil_r. reflexivity.
Qed.

Lemma upload_loop_catalog (srv0 : list ApiObjective.t) (xs : list Objective.t)
    (acc : list string) (m : Machine World) :
  reachable (world m) ->
  (exists earlier, srvObjectives (world m) = srv0 ++ earlier) ->
  exists m' errors',
    forAcc (uploadObjectiveStep api (indexById srv0) (indexByName Str.toLowerCase srv0))
      xs acc m = (m', Ok errors') /\
    outage (world m') = outage (world m) /\
    objectives (store m') = objectives (store m) /\
    (exists extra, srvObjectives (world m') = srvObjectives (world m) ++ extra) /\
    forall x, x ∈ xs -> toUpload Str.toLowerCase (srvObjectives (world m')) x = false.
Proof.
  revert acc m. induction xs as [|x xs IH]; intros acc m Hon Hsrv; simpl.
  - exists m, acc. split; [reflexivity|]. repeat split.
    + exists []. rewrite app_nil_r. reflexivity.
    + intros x Hx. apply elem_of_nil in Hx. destruct Hx.
  - unfold bind at 1.
    destruct (upload_step_catalog srv0 x acc m Hon Hsrv)
      as [m1 [acc1 [-> [Ho1 [Hl1 [[extra1 He1] Hx1]]]]]].
    assert (Hon1 : reachable (world m1)).
    { intros ep. rewrite Ho1. apply Hon. }
    assert (Hsrv1 : exists earlier, srvObjectives (world m1) = srv0 ++ earlier).
    { destruct Hsrv as [earlier Hsrv]. exists (earlier ++ extra1).
      rewrite He1, Hsrv, app_assoc. reflexivity. }
    destruct (IH acc1 m1 Hon1 Hsrv1) as [m2 [acc2 [-> [Ho2 [Hl2 [[extra2 He2] Hx2]]]]]].
    exists m2, acc2. split; [reflexivity|].
    split; [congruence|]. split; [congruence|].
    split; [exists (extra1 ++ extra2); rewrite He2, He1, app_assoc; reflexivity|].
    intros y Hy. apply elem_of_cons in Hy as [->|Hy]; [|apply Hx2, Hy].
    rewrite He2. apply toUpload_false_mono. exact Hx1.
Qed.

Lemma download_step_catalog (localMap : gmap string Objective.t)
    (r : ApiObjective.t) (m : Machine World) :
  reachable (world m) ->
  ApiObjective.id r ∈ ApiObjective.id <$> srvObjectives (world m) ->
  exists m',
    downloadObjectiveStep api localMap r m = (m', Ok tt) /\
    world m' = world m /\
    exists news, objectives (store m') = objectives (store m) ++ news /\
      forall n, n ∈ news ->
        Objective.id n ∈ ApiObjective.id <$> srvObjectives (world m).
Proof.
  intros Hon Hin. unfold downloadObjectiveStep.
  destruct (localMap !! ApiObjective.id r).
  { exists m. split; [reflexivity|]. split; [reflexivity|].
    exists []. rewrite app_nil_r. split; [reflexivity|].
    intros n Hn. apply elem_of_nil in Hn. destruct Hn. }
  unfold bind at 1. unfold request. simpl. unfold guarded. rewrite Hon.
  destruct (List.find (fun o => String.eqb (ApiObjective.id o) (ApiObjective.id r))
              (srvObjectives (world m))) as [full|] eqn:Hfind.
  - apply find_some in Hfind as [Hmem Heq]. apply String.eqb_eq in Heq.
    eexists. split; [reflexivity|]. simpl. split; [reflexivity|].
    exists [localObjectiveOf full]. split; [reflexivity|].
    intros n Hn. apply list_elem_of_singleton in Hn. subst n. simpl.
    rewrite Heq. exact Hin.
  - exfalso. apply list_elem_of_fmap in Hin as [o [Hid Ho]].
    apply list_elem_of_In in Ho.
    pose proof (find_none _ _ Hfind o Ho) as Hno. simpl in Hno.
    rewrite <- Hid in Hno. rewrite String.eqb_refl in Hno. discriminate.
Qed.

Lemma download_loop_catalog (localMap : gmap string Objective.t)
    (rs : list ApiObjective.t) (m : Machine World) :
  reachable (world m) ->
  (forall r, r ∈ rs -> ApiObjective.id r ∈ ApiObjective.id <$> srvObjectives (world m)) ->
  exists m',
    forEach (downloadObjectiveStep api localMap) rs m = (m', Ok tt) /\
    world m' = world m /\
    exists news, objectives (store m') = objectives (store m) ++ news /\
      forall n, n ∈ news ->
        Objective.id n ∈ ApiObjective.id <$> srvObjectives (world m).
Proof.
  unfold forEach. revert m. induction rs as [|r rs IH]; intros m Hon Hrs; simpl.
  - exists m. split; [reflexivity|]. split; [reflexivity|].
    exists []. rewrite app_nil_r. split; [reflexivity|].
    intros n Hn. apply elem_of_nil in Hn. destruct Hn.
  - unfold bind at 1.
    destruct (download_step_catalog localMap r m Hon (Hrs r (list_elem_of_here _ _)))
      as [m1 [-> [Hw1 [news1 [Hl1 Hn1]]]]].
    assert (Hon1 : reachable (world m1)) by (rewrite Hw1; exact Hon).
    destruct (IH m1 Hon1) as [m2 [-> [Hw2 [news2 [Hl2 Hn2]]]]].
    { intros r' Hr'. rewrite Hw1. apply Hrs. right. exact Hr'. }
    exists m2. split; [reflexivity|]. split; [congruence|].
    exists (news1 ++ news2). split; [rewrite Hl2, Hl1, app_assoc; reflexivity|].
    intros n Hn. apply elem_of_app in Hn as [Hn|Hn]; [apply Hn1, Hn|].
    rewrite <- Hw1. apply Hn2, Hn.
Qed.

Lemma syncObjectives_matches (m : Machine World) :
  reachable (world m) -> allMatched (syncObjectives api m).1.
Proof.
  intros Hon.
  rewrite (syncObjectives_listed api m _ _ (getObjectives_online (world m) Hon)).
  set (m1 := {| store := store m; world := world m;
                trace := trace m ++ [GetObjectives true] |}).
  unfold uploadObjectives, downloadObjectives. unfold bind at 1.
  change (toLowerCase api) with Str.toLowerCase.
  destruct (upload_loop_catalog (srvObjectives (world m)) (objectives (store m)) [] m1 Hon)
    as [m2 [errs [-> [Ho2 [Hl2 [[extra He2] Hx2]]]]]].
  { exists []. rewrite app_nil_r. reflexivity. }
  assert (Hon2 : reachable (world m2)).
  { intros ep. rewrite Ho2. apply Hon. }
  rewrite then_ret_fst.
  destruct (download_loop_catalog (indexLocal (objectives (store m)))
              (srvObjectives (world m)) m2 Hon2)
    as [m3 [-> [Hw3 [news [Hl3 Hn3]]]]].
  { intros r Hr. rewrite He2. simpl. rewrite fmap_app. apply elem_of_app. left.
    apply list_elem_of_fmap. exists r. split; [reflexivity|exact Hr]. }
  simpl. split; [rewrite Hw3; exact Hon2|].
  intros x Hx. rewrite Hl3, Hl2 in Hx. rewrite Hw3.
  apply elem_of_app in Hx as [Hx|Hx].
  - apply Hx2. exact Hx.
  - apply toUpload_false_iff. left. apply localOnly_by_id. apply Hn3, Hx.
Qed.

Lemma syncTasks_matches (m : Machine World) :
  allMatched m -> allMatched (syncTasks api m).1.
Proof.
  intros [Hon Hall]. destruct (syncTasks_catalog m) as [Hl [Hs Ho]].
  split.
  - intros ep. rewrite Ho. apply Hon.
  - intros x Hx. rewrite Hs. apply Hall. rewrite <- Hl. exact Hx.
Qed.

Lemma reconcile_matches (m : Machine World) :
  reachable (world m) -> allMatched (reconcile api m).1.
Proof.
  intros Hon. pose proof (syncObjectives_matches m Hon) as Hobj.
  unfold reconcile. unfold bind at 1.
  destruct (syncObjectives api m) as [mo [oe|e]]; simpl in *; [|exact Hobj].
  pose proof (syncTasks_matches mo Hobj) as Htask.
  unfold bind. destruct (syncTasks api mo) as [mt [te|e]]; simpl in *; exact Htask.
Qed.

Lemma filter_none {X : Type} (f : X -> bool) (xs : list X) :
  (forall x, x ∈ xs -> f x = false) -> List.filter f xs = [].
Proof.
  induction xs as [|x xs IH]; intros H; simpl; [reflexivity|].
  rewrite (H x (list_elem_of_here _ _)). apply IH.
  intros y Hy. apply H. right. exact Hy.
Qed.

Lemma reconcile_quiet (m : Machine World) :
  allMatched m ->
  exists evs, trace (reconcile api m).1 = trace m ++ evs /\ attempted evs = [].
Proof.
  intros [Hon Hall]. unfold reconcile. unfold bind at 1.
  rewrite (syncObjectives_listed api m _ _ (getObjectives_online (world m) Hon)).
  set (m1 := {| store := store m; world := world m;
                trace := trace m ++ [GetObjectives true] |}).
  unfold uploadObjectives. unfold bind at 1.
  destruct (uploadObjectives_outcome api (srvObjectives (world m))
              (objectives (store m)) [] m1) as [evsU [m2 [errsU [-> [HtU [_ [HaU _]]]]]]].
  change (toLowerCase api) with Str.toLowerCase in HaU.
  rewrite (filter_none _ _ Hall) in HaU.
  unfold bind at 1.
  pose proof (downloadObjectives_quiet api (srvObjectives (world m))
                (objectives (store m)) m2) as [evsD [HtD HqD]].
  destruct (downloadObjectives api (srvObjectives (world m)) (objectives (store m)) m2)
    as [m3 [u|e]]; simpl in HtD |- *.
  - pose proof (syncTasks_quiet api m3) as [evsT [HtT HqT]].
    unfold bind. destruct (syncTasks api m3) as [m4 [te|e]]; simpl in HtT |- *;
      exists ([GetObjectives true] ++ evsU ++ evsD ++ evsT);
      (split; [rewrite HtT, HtD, HtU; unfold m1; simpl; rewrite <- !app_assoc; reflexivity|]);
      rewrite !attempted_app, HaU, (attempted_quiet evsD HqD), (attempted_quiet evsT HqT);
      reflexivity.
  - exists ([GetObjectives true] ++ evsU ++ evsD).
    split; [rewrite HtD, HtU; unfold m1; simpl; rewrite <- !app_assoc; reflexivity|].
    rewrite !attempted_app, HaU, (attempted_quiet evsD HqD). reflexivity.
Qed.

Lemma reconcile_grows (m : Machine World) :
  dom (idMapping (store m)) ⊆ dom (idMapping (store (reconcile api m).1)).
Proof.
  apply (keeps_bind (onStore mappingGrows)).
  - apply syncObjectives_grows.
  - intros oe. apply (keeps_bind (onStore mappingGrows)).
    + apply syncTasks_grows.
    + intros te. apply keeps_ret. typeclasses eauto.
Qed.

End TwoPasses.

(** ** The scenarios, run *)

Example pushDown_ends_in_success :
  let run := syncAll Backend.api Scenario.pushDown in
  List.filter failed (trace run.1) =
    [UpdateTask (Sample.task Sample.uuid3 Sample.uuid1 "Run" (shared completed))
       Sample.uuid3 (UpdateTaskData.mk completed None None) false] /\
  syncState (store run.1) = SyncState.mk success (Some 5000) None /\
  run.2 = Ok (SyncResult.mk true None).
Proof. vm_compute. repeat split. Qed.

Example uploadDown_ends_in_error :
  let run := syncAll Backend.api Scenario.uploadDown in
  attempted (List.filter failed (trace run.1)) = [Sample.objective "local-1" "Fitness"] /\
  syncState (store run.1) = SyncState.mk error (Some 5000) (Some (failedCount [uploadObjectiveError (Sample.objective "local-1" "Fitness")])) /\
  run.2 = Ok (finishedResult
                [uploadObjectiveError (Sample.objective "local-1" "Fitness")]).
Proof. vm_compute. repeat split. Qed.

Example orphan_is_skipped :
  let run := syncTasks Backend.api Scenario.orphaned in
  trace run.1 = [GetTasks (Backend.day 5000) true] /\ run.2 = Ok [].
Proof. vm_compute. repeat split. Qed.

(** * The claims *)

(** C3 (amended). The identity mapping is module-level state that no
    invocation clears. It is empty when the module is loaded; from then
    on every local identifier bound when [syncAll] is invoked is still
    bound when it finishes, which is the state the next invocation begins
    with. Matches are re-derived on every invocation: once the remote
    objectives are fetched, the entry of each local objective matched by
    identifier or by name is overwritten with the identifier derived from
    the fetched list (given pairwise distinct local identifiers and a
    backend that answers a detail request with the objective asked for). *)
Theorem C3_mapping_is_never_cleared :
  (forall objs ts auth, idMapping (loaded objs ts auth) = ∅) /\
  (forall (W : Type) (api : Api W) (m : Machine W), outlives api m).
Proof.
  split.
  - reflexivity.
  - intros W api m. split; [apply (syncAll_grows api m)|].
    intros remoteObjectives w1 local v Hauth Hget Hfaith Hnodup Hin Hder.
    rewrite (syncAll_mapping api m Hauth).
    apply (reconcile_resolves api (beginSync m).1 remoteObjectives w1 local v);
      try assumption.
    apply rederived_derived, Hder.
Qed.

Lemma C3_witness :
  matchedByName Str.toLowerCase [Sample.remoteObjective Sample.uuid1 "fitness"]
    (Sample.objective "local-1" "Fitness")
    (Sample.remoteObjective Sample.uuid1 "fitness") /\
  idMapping (store Scenario.stale) !! "local-1" = Some Sample.uuid3 /\
  idMapping (store (syncAll Backend.api Scenario.stale).1) !! "local-1"
    = Some Sample.uuid1.
Proof.
  assert (Hmatch : matchedByName Str.toLowerCase
                     [Sample.remoteObjective Sample.uuid1 "fitness"]
                     (Sample.objective "local-1" "Fitness")
                     (Sample.remoteObjective Sample.uuid1 "fitness")).
  { split.
    - intros r Hr. apply list_elem_of_singleton in Hr. subst r. discriminate.
    - exists [], []. split; [reflexivity|]. split; [reflexivity|].
      intros r Hr. apply elem_of_nil in Hr. destruct Hr. }
  split; [exact Hmatch|]. split; [vm_compute; reflexivity|].
  apply (proj2 (proj2 C3_mapping_is_never_cleared _ Backend.api Scenario.stale)
           [Sample.remoteObjective Sample.uuid1 "fitness"] (world Scenario.stale)
           (Sample.objective "local-1" "Fitness") Sample.uuid1).
  - reflexivity.
  - reflexivity.
  - exact Backend_detail_faithful.
  - vm_compute. apply NoDup_singleton.
  - vm_compute. left.
  - exact (rederived_by_name Str.toLowerCase _ _ _ Hmatch).
Defined.

(** C3 as stated fails: the second invocation of [syncAll] begins with the
    entry the first one registered. *)
Lemma C3_second_invocation_starts_mapped :
  let secondStart := Backend.rewind (syncAll Backend.api Scenario.namesake).1 in
  idMapping (store secondStart) !! "local-1" = Some Sample.uuid1 /\
  idMapping (store secondStart) <> ∅.
Proof.
  assert (H : idMapping (store (Backend.rewind (syncAll Backend.api Scenario.namesake).1))
                !! "local-1" = Some Sample.uuid1) by (vm_compute; reflexivity).
  split; [exact H|].
  intros Hempty. rewrite Hempty in H. rewrite lookup_empty in H. discriminate.
Qed.

(** C10 (amended). The last-sync timestamp is the completion time of the
    last pass whose two phases both returned: such a pass stores the
    current instant whether its final state is ['success'] or ['error']
    from aggregated per-item failures; a pass that ends by an
    orchestration-level exception leaves the timestamp as it was, and so
    does a call refused as unauthenticated. *)
Theorem C10_lastSyncAt_set_when_phases_return :
  forall (W : Type) (api : Api W) (m : Machine W), lastSyncAtOutcome api m.
Proof.
  intros W api m. unfold lastSyncAtOutcome.
  destruct (isAuthenticated (store m)) eqn:Hauth.
  2:{ rewrite (syncAll_unauthenticated api m Hauth). reflexivity. }
  rewrite (syncAll_authenticated api m Hauth).
  set (m1 := (beginSync m).1).
  assert (Hs1 : syncState (store m1) =
            SyncState.mk syncing (SyncState.lastSyncAt (syncState (store m))) None)
    by reflexivity.
  clearbody m1.
  unfold reconcile, tryCatch, syncBoth, bind.
  pose proof (syncObjectives_syncState api m1) as Ho.
  destruct (syncObjectives api m1) as [mo [oe|e]]; simpl in *.
  - pose proof (syncTasks_syncState api mo) as Ht.
    destruct (syncTasks api mo) as [mt [te|e]]; simpl in *.
    + unfold ask. destruct (now api (world mt)) as [w t]. simpl.
      rewrite !concatIfAny_app. simpl. split; reflexivity.
    + unfold onStore, syncStateKept in *. rewrite Ht, Ho, Hs1. simpl.
      split; reflexivity.
  - unfold onStore, syncStateKept in *. rewrite Ho, Hs1. simpl. split; reflexivity.
Qed.

(** C10 as stated fails: a pass that ends in ['error'] because an upload
    failed still overwrites the timestamp. *)
Lemma C10_error_pass_updates_lastSyncAt :
  let before := syncState (store Scenario.uploadDown) in
  let after := syncState (store (syncAll Backend.api Scenario.uploadDown).1) in
  SyncState.status after = error /\
  SyncState.lastSyncAt before = None /\
  SyncState.lastSyncAt after = Some 5000.
Proof. vm_compute. repeat split. Qed.

(** C4 (amended). When several fetched objectives have names that are
    equal after lower-casing, the by-name index holds the last of them in
    the fetched list (a later entry overwrites an earlier one), and a
    name-based match registers the local identifier to that last
    objective. Lower-casing is the platform's, whatever letters it folds. *)
Theorem C4_index_keeps_last_namesake :
  forall (W : Type) (api : Api W) (earlier later : list ApiObjective.t)
         (o : ApiObjective.t),
    (forall o', o' ∈ later ->
       toLowerCase api (ApiObjective.name o') <> toLowerCase api (ApiObjective.name o)) ->
    indexByName (toLowerCase api) (earlier ++ o :: later)
      !! toLowerCase api (ApiObjective.name o) = Some o /\
    forall (local : Objective.t) (errors : list string) (m : Machine W),
      indexById (earlier ++ o :: later) !! Objective.id local = None ->
      toLowerCase api (Objective.name local) = toLowerCase api (ApiObjective.name o) ->
      uploadObjectiveStep api (indexById (earlier ++ o :: later))
        (indexByName (toLowerCase api) (earlier ++ o :: later)) local errors m =
      ({| store := setMapping (fun ids =>
                     mapPillarsAndRituals (toLowerCase api) local o
                       (<[Objective.id local := ApiObjective.id o]> ids)) (store m);
          world := world m; trace := trace m |}, Ok errors).
Proof.
  intros W api earlier later o Hlater.
  assert (Hidx : indexByName (toLowerCase api) (earlier ++ o :: later)
                   !! toLowerCase api (ApiObjective.name o) = Some o).
  { unfold indexByName. rewrite fmap_app, fmap_cons. apply jsMap_last.
    rewrite <- list_fmap_compose. intros Hin.
    apply list_elem_of_fmap in Hin as [o' [Heq Ho']].
    apply (Hlater o' Ho'). simpl in Heq. congruence. }
  split; [exact Hidx|].
  intros local errors m Hid Hname.
  unfold uploadObjectiveStep. rewrite Hid, Hname, Hidx. reflexivity.
Qed.

Lemma C4_witness :
  (forall o', o' ∈ [] ->
     toLowerCase Backend.api (ApiObjective.name o') <>
     toLowerCase Backend.api
       (ApiObjective.name (Sample.remoteObjective Sample.uuid2 "FITNESS"))) /\
  indexByName (toLowerCase Backend.api)
    ([Sample.remoteObjective Sample.uuid1 "fitness"]
       ++ Sample.remoteObjective Sample.uuid2 "FITNESS" :: [])
    !! toLowerCase Backend.api
         (ApiObjective.name (Sample.remoteObjective Sample.uuid2 "FITNESS"))
  = Some (Sample.remoteObjective Sample.uuid2 "FITNESS").
Proof.
  assert (H : forall o', o' ∈ [] ->
     toLowerCase Backend.api (ApiObjective.name o') <>
     toLowerCase Backend.api
       (ApiObjective.name (Sample.remoteObjective Sample.uuid2 "FITNESS"))).
  { intros o' Ho'. apply elem_of_nil in Ho'. destruct Ho'. }
  split; [exact H|].
  exact (proj1 (C4_index_keeps_last_namesake _ Backend.api
                  [Sample.remoteObjective Sample.uuid1 "fitness"] []
                  (Sample.remoteObjective Sample.uuid2 "FITNESS") H)).
Defined.

(** C4 as stated fails: of two fetched objectives named alike, the index
    holds the second, and the local objective is mapped to it. *)
Lemma C4_first_namesake_is_overwritten :
  indexByName (toLowerCase Backend.api)
    [Sample.remoteObjective Sample.uuid1 "fitness";
     Sample.remoteObjective Sample.uuid2 "FITNESS"] !! "fitness"
    = Some (Sample.remoteObjective Sample.uuid2 "FITNESS") /\
  idMapping (store (syncObjectives Backend.api Scenario.twoNamesakes).1) !! "local-1"
    = Some Sample.uuid2.
Proof. vm_compute. split; reflexivity. Qed.

(** C9. Every status update issued by the task phase is addressed to the
    local task's identifier and carries the translation of the local
    status, in which each of the server's four values stands for itself
    and the local-only ['overdue'] is replaced by ['pending'], together
    with the task's printed completion instant and its skip reason; it is
    issued only for a task that is in the fetched list with a different
    status. *)
Theorem C9_overdue_is_pushed_as_pending :
  forall (W : Type) (api : Api W) (m : Machine W),
    exists evs, trace (syncTasks api m).1 = trace m ++ evs /\
      forall local id data ok, UpdateTask local id data ok ∈ evs ->
        id = Task.id local /\
        translated (Task.status local) (UpdateTaskData.status data) /\
        (Task.status local = overdue -> UpdateTaskData.status data = pending) /\
        printed (Task.completedAt local) (UpdateTaskData.completedAt data) /\
        UpdateTaskData.skippedReason data = Task.skippedReason local /\
        exists remoteTasks remoteTask,
          fetchedTasks api m = Ok remoteTasks /\
          remoteTask ∈ remoteTasks /\
          ApiTask.id remoteTask = id /\
          ApiTask.status remoteTask <> UpdateTaskData.status data.
Proof.
  intros W api m. unfold syncTasks, fetchedTasks.
  unfold bind at 1. unfold getStore at 1.
  unfold bind at 1. unfold ask at 1.
  destruct (now api (world m)) as [w d]. simpl.
  unfold bind at 1. unfold request at 1. simpl.
  destruct (getTasks api (isoDay api d) w) as [w' [remoteTasks|e]]; simpl.
  - destruct (reconcileTasks_pushedRight api remoteTasks (tasks (store m))
                {| store := store m; world := w';
                   trace := trace m ++ [GetTasks (isoDay api d) true] |})
      as [evs [Htrace Hall]].
    simpl in Htrace. exists ([GetTasks (isoDay api d) true] ++ evs).
    split; [rewrite Htrace, app_assoc; reflexivity|].
    intros local id data ok Hin. apply elem_of_app in Hin as [Hin|Hin].
    { apply list_elem_of_singleton in Hin. discriminate. }
    rewrite Forall_forall in Hall. specialize (Hall _ Hin). simpl in Hall.
    destruct Hall as [-> [Htr [Hpr [Hsk [remoteTask [Hlook Hne]]]]]].
    split; [reflexivity|]. split; [exact Htr|].
    split; [intros Hov; rewrite Hov in Htr; inversion Htr; reflexivity|].
    split; [exact Hpr|]. split; [exact Hsk|].
    exists remoteTasks, remoteTask. split; [reflexivity|].
    apply jsMap_Some in Hlook. apply list_elem_of_fmap in Hlook as [x [Heq Hx]].
    inversion Heq; subst. split; [exact Hx|]. split; [symmetry; assumption|exact Hne].
  - exists [GetTasks (isoDay api d) false]. split; [reflexivity|].
    intros local id data ok Hin. apply list_elem_of_singleton in Hin. discriminate.
Qed.

(** C6. Failure handling is asymmetric. If the only requests that fail
    during an invocation are status updates, and every creation request
    of the local store can be built, the published state is ['success']
    and the result is successful; whenever no fatal request fails, the
    aggregated errors are a tally of the invocation's events, which holds
    a message for each failed creation request and for local entities
    whose creation request cannot be built, and none for a failed status
    update; and a failed objective creation always ends in the state
    ['error'] with an unsuccessful result. *)
Theorem C6_status_push_failures_are_swallowed :
  forall (W : Type) (api : Api W) (m : Machine W),
    isAuthenticated (store m) = true -> asymmetric api m.
Proof.
  intros W api m Hauth. unfold asymmetric.
  rewrite (syncAll_authenticated api m Hauth).
  destruct (orchestrated api (beginSync m).1) as [evs [m' [r [-> [Ht Hcases]]]]].
  assert (Hsub : forall msg,
            unsendable (store (beginSync m).1) msg -> unsendable (store m) msg)
    by (intros msg H; exact H).
  exists (Notify (SyncState.mk syncing (SyncState.lastSyncAt (syncState (store m))) None)
            :: evs).
  simpl. split; [rewrite Ht; simpl; rewrite <- app_assoc; reflexivity|].
  split; [|split].
  - intros Honly [HallO HallT].
    assert (Honly' : forall e, e ∈ evs -> failed e = true -> isUpdateTask e = true).
    { intros e He. apply Honly. right. exact He. }
    destruct Hcases as [[Hnf [at_ [errs [Htal [Hst ->]]]]]|[Hfatal _]].
    + assert (Herrs : errs = failures evs).
      { apply (tallied_exact _ _ _ (allSendable_none _ (conj HallO HallT)) Htal). }
      rewrite Hst, Herrs, (failures_nil evs Honly'). split; reflexivity.
    + exfalso. exact (no_fatal evs Honly' Hfatal).
  - intros Hnf. apply Forall_cons in Hnf as [_ Hnf].
    destruct Hcases as [[_ [at_ [errs [Htal [Hst _]]]]]|[Hfatal _]].
    + exists at_, errs. split; [exact Hst|].
      destruct Htal as [dropped [Hm Hu]]. exists dropped. split; [exact Hm|].
      eapply Forall_impl; [exact Hu|exact Hsub].
    + exfalso. apply Exists_exists in Hfatal as [e [He Hf]].
      rewrite Forall_forall in Hnf. specialize (Hnf e He). congruence.
  - intros o d Hin. apply elem_of_cons in Hin as [Hin|Hin]; [discriminate|].
    destruct Hcases as [[_ [at_ [errs [Htal [Hst ->]]]]]|[_ [message [Hst ->]]]].
    + pose proof (failures_cons evs _ _ Hin eq_refl) as Hmem.
      destruct Htal as [dropped [Hm _]].
      pose proof (merged_elem_of_l _ _ _ _ Hm Hmem) as Hin'.
      rewrite Hst. unfold finishedState, finishedResult.
      destruct errs as [|msg rest]; [apply elem_of_nil in Hin'; destruct Hin'|]. simpl.
      split; [reflexivity|]. eexists. reflexivity.
    + split; [exact Hst|]. exists message. reflexivity.
Qed.

Lemma C6_witness :
  isAuthenticated (store Scenario.pushDown) = true /\
  asymmetric Backend.api Scenario.pushDown.
Proof.
  split; [reflexivity|].
  apply (C6_status_push_failures_are_swallowed _ Backend.api Scenario.pushDown).
  reflexivity.
Defined.

(** C7. A local task whose objective has no entry in the identity
    mapping is deferred: its turn in the upload loop issues no request
    and records no error, the task phase issues no creation request for
    it, and the errors of the phase are a tally of its events with other
    tasks: failed creation requests, none of which is for it, and other
    local tasks whose request cannot be built. *)
Theorem C7_unmapped_objective_defers_task :
  forall (W : Type) (api : Api W) (m : Machine W) (t : Task.t),
    idMapping (store m) !! Task.objectiveId t = None -> deferred api m t.
Proof.
  intros W api m t Hnone. split.
  - intros remoteMap errors. unfold uploadTaskStep.
    destruct (remoteMap !! Task.id t); [reflexivity|].
    unfold bind, getStore. rewrite Hnone. reflexivity.
  - assert (Hup : forall remoteTasks, uploadable (idMapping (store m)) remoteTasks t = false).
    { intros remoteTasks. unfold uploadable. rewrite Hnone. apply andb_false_r. }
    destruct (fetchedTasks api m) as [remoteTasks|e] eqn:Hfetch.
    + destruct (syncTasks_run api m remoteTasks Hfetch)
        as [evs [m' [errors [-> [Ht [_ [Ha [Hm _]]]]]]]].
      eexists. simpl. split; [exact Ht|]. split.
      * constructor; [exact I|]. apply attemptedTasks_notCreating.
        rewrite Ha. intros Hin. apply list_elem_of_In, filter_In in Hin as [_ Hpost].
        unfold toPost in Hpost. rewrite Hup in Hpost. discriminate.
      * intros errors' [= <-]. eexists. split; [exact Hm|].
        eapply Forall_impl;
          [apply (dropped_unsent _ _ _ (fun t' => t' <> t))|].
        { intros t' _ Hup' ->. rewrite Hup in Hup'. discriminate. }
        intros msg [t' [Hin [Hne [Hs ->]]]]. exists t'. repeat split; assumption.
    + destruct (syncTasks_refused api m e Hfetch) as [m' [-> Ht]].
      eexists. simpl. split; [exact Ht|]. split.
      * constructor; [exact I|constructor].
      * intros errors. discriminate.
Qed.

Lemma C7_witness :
  idMapping (store Scenario.orphaned) !! Task.objectiveId Scenario.orphan = None /\
  deferred Backend.api Scenario.orphaned Scenario.orphan.
Proof.
  split; [reflexivity|].
  apply (C7_unmapped_objective_defers_task _ Backend.api Scenario.orphaned Scenario.orphan).
  reflexivity.
Defined.

(** C8 (amended). A failed upload is recovered where it happens: the
    upload loop of the objective phase never throws; it issues, in order
    and whatever the outcome of the earlier ones, the creation request of
    every local-only objective whose request can be built; and it returns
    exactly one message per failed request and one per local-only
    objective whose request cannot be built, each kind in order. *)
Theorem C8_failed_uploads_do_not_stop_the_loop :
  forall (W : Type) (api : Api W) (remoteObjectives : list ApiObjective.t)
         (localObjectives : list Objective.t) (m : Machine W),
    exists evs m' errors,
      uploadObjectives api remoteObjectives localObjectives m = (m', Ok errors) /\
      trace m' = trace m ++ evs /\
      attempted evs =
        List.filter (toUpload (toLowerCase api) remoteObjectives) localObjectives /\
      merged (failures evs)
        (uploadObjectiveError <$>
           List.filter (toGiveUp (toLowerCase api) remoteObjectives) localObjectives)
        errors.
Proof.
  intros W api remoteObjectives localObjectives m. unfold uploadObjectives.
  destruct (uploadObjectives_outcome api remoteObjectives localObjectives [] m)
    as [evs [m' [errs [Hr [Ht [_ [Ha Hm]]]]]]].
  exists evs, m', errs. split; [exact Hr|]. split; [exact Ht|].
  split; [exact Ha|exact Hm].
Qed.

(** C8 as stated fails: when the detail of the first objective to
    download cannot be fetched, the objective phase throws, the second
    objective is never asked for, and the invocation ends in ['error']
    with the exception's message instead of a per-item count. *)
Lemma C8_failed_detail_fetch_aborts_the_pass :
  (syncObjectives Backend.api Scenario.detailDown).2 = Threw Backend.unreachable /\
  trace (syncObjectives Backend.api Scenario.detailDown).1 =
    [GetObjectives true; GetObjective Sample.uuid1 false] /\
  syncState (store (syncAll Backend.api Scenario.detailDown).1) =
    SyncState.mk error None (Some Backend.unreachable) /\
  (syncAll Backend.api Scenario.detailDown).2 =
    Ok (SyncResult.mk false (Some Backend.unreachable)).
Proof. vm_compute. repeat split. Qed.

(** C5 (amended). For a local-only objective that is uploaded: if the
    creation request returns the created objective, the identifiers
    minted for the objective and for all its pillars, metrics and rituals
    are registered in one step, so the mapping then has an entry for each
    of them; if the request throws, one per-objective error is recorded
    and the mapping is left exactly as it was, so an identifier without
    an entry before the attempt has none after it; and if the request
    cannot be built because the end date cannot be printed, no request is
    issued, one per-objective error is recorded and the mapping is left
    as it was. *)
Theorem C5_upload_registers_all_or_nothing :
  forall (W : Type) (api : Api W) (remoteObjectives : list ApiObjective.t)
         (local : Objective.t) (errors : list string) (m : Machine W),
    localOnly (toLowerCase api) remoteObjectives local = true ->
    uploadOutcome api remoteObjectives local errors m.
Proof.
  intros W api remoteObjectives local errors m Honly. unfold uploadOutcome.
  destruct (mintIds_run api local m) as [w [ids [Hrun [Hp [Hm Hr]]]]].
  exists w, ids. split; [exact Hrun|].
  assert (Hstep : uploadObjectiveStep api (indexById remoteObjectives)
                    (indexByName (toLowerCase api) remoteObjectives) local errors m =
                  submitObjective api local ids errors
                    {| store := store m; world := w; trace := trace m |}).
  { rewrite localOnly_index in Honly. unfold uploadObjectiveStep.
    destruct (indexById remoteObjectives !! Objective.id local); [discriminate|].
    destruct (indexByName (toLowerCase api) remoteObjectives
                !! toLowerCase api (Objective.name local));
      [discriminate|].
    unfold bind at 1. rewrite Hrun. reflexivity. }
  rewrite Hstep. unfold submitObjective, tryCatch, bind, attempt.
  pose proof (payloadOf_cases local ids) as Hcase.
  destruct (payloadOf local ids) as [data|e].
  - split; [exact Hcase|]. unfold request. simpl.
    destruct (createObjective api data w) as [w' [result|e]]; simpl.
    + destruct (Created.objective result) as [created|]; simpl.
      * split; [reflexivity|]. intros _. split; [reflexivity|].
        intros k Hk. apply elem_of_dom. rewrite registerMinted_dom, Hp, Hm, Hr.
        unfold entityIds in Hk. rewrite elem_of_cons, !elem_of_app in Hk.
        rewrite !elem_of_union, !elem_of_list_to_set, elem_of_singleton. tauto.
      * split; [reflexivity|]. intros [x Hx]. discriminate.
    + split; [reflexivity|]. split; [reflexivity|]. intros k Hk. exact Hk.
  - simpl. split; [exact Hcase|]. repeat split.
Qed.

Lemma C5_witness :
  localOnly (toLowerCase Backend.api) [] (Sample.objective "local-1" "Fitness") = true /\
  uploadOutcome Backend.api [] (Sample.objective "local-1" "Fitness") []
    Scenario.uploadDown.
Proof.
  split; [reflexivity|].
  apply (C5_upload_registers_all_or_nothing _ Backend.api [] _ [] Scenario.uploadDown).
  reflexivity.
Defined.

(** C5 as stated fails: the entry a first invocation registered for a
    local objective is still in the mapping after a later upload of that
    objective has failed. *)
Lemma C5_failed_upload_keeps_earlier_entry :
  let second := syncObjectives Backend.api Scenario.forgotten in
  attempted (trace second.1) =
    [Sample.objective "local-1" "Fitness";
     localObjectiveOf (Sample.remoteObjective Sample.uuid1 "fitness")] /\
  Forall (fun e => failed e = true) (List.tail (trace second.1)) /\
  second.2 = Ok [uploadObjectiveError (Sample.objective "local-1" "Fitness");
                 uploadObjectiveError
                   (localObjectiveOf (Sample.remoteObjective Sample.uuid1 "fitness"))] /\
  idMapping (store second.1) !! "local-1" = Some Sample.uuid1.
Proof.
  vm_compute. repeat split. repeat constructor.
Qed.

(** C2 (amended). Let a local objective with identifier [a] have the
    same name, after lower-casing, as a fetched remote objective, let [a]
    be the canonical identifier of no fetched objective, and let [b] be
    the last fetched objective with that name (the only one, when the
    name is unique). If local identifiers are pairwise distinct and the
    backend answers a detail request with the objective asked for, then
    after one reconciliation pass the identity mapping resolves [a] to
    the identifier of [b], and no creation request is issued for the
    local objective. Names are compared after the platform's
    lower-casing, whatever letters it folds. *)
Theorem C2_name_match_resolves_to_last_namesake :
  forall (W : Type) (api : Api W) (m : Machine W)
         (remoteObjectives : list ApiObjective.t) (w1 : W)
         (local : Objective.t) (b : ApiObjective.t),
    getObjectives api (world m) = (w1, Ok remoteObjectives) ->
    faithfulDetail api ->
    local ∈ objectives (store m) ->
    NoDup (localIds (objectives (store m))) ->
    matchedByName (toLowerCase api) remoteObjectives local b ->
    converges api m remoteObjectives local b.
Proof.
  intros W api m remoteObjectives w1 local b Hget Hfaith Hin Hnodup Hmatch.
  unfold converges.
  destruct (matchedByName_index _ _ _ _ Hmatch) as [Hid Hname].
  assert (Hb : b ∈ remoteObjectives /\
               toLowerCase api (ApiObjective.name b)
                 = toLowerCase api (Objective.name local)).
  { destruct Hmatch as [_ [before [after [-> [Hsame _]]]]].
    split; [apply elem_of_app; right; left|exact Hsame]. }
  destruct Hb as [Hb1 Hb2]. split; [exact Hb1|]. split; [exact Hb2|].
  assert (Hder : derived (toLowerCase api) remoteObjectives local
                   = Some (ApiObjective.id b)).
  { unfold derived. rewrite Hid, Hname. reflexivity. }
  destruct (reconcile_resolves api m remoteObjectives w1 local (ApiObjective.id b)
              Hget Hfaith Hin Hnodup Hder) as [Hmap [evs [Ht Ha]]].
  split; [exact Hmap|]. exists evs. split; [exact Ht|].
  rewrite Ha. intros Hmem. apply list_elem_of_In, filter_In in Hmem as [_ Honly].
  unfold toUpload in Honly. rewrite localOnly_index, Hid, Hname in Honly. discriminate.
Qed.

Lemma C2_witness :
  NoDup (localIds (objectives (store Scenario.namesake))) /\
  faithfulDetail Backend.api /\
  matchedByName (toLowerCase Backend.api)
    [Sample.remoteObjective Sample.uuid1 "fitness"]
    (Sample.objective "local-1" "Fitness")
    (Sample.remoteObjective Sample.uuid1 "fitness") /\
  converges Backend.api Scenario.namesake
    [Sample.remoteObjective Sample.uuid1 "fitness"]
    (Sample.objective "local-1" "Fitness")
    (Sample.remoteObjective Sample.uuid1 "fitness").
Proof.
  assert (Hnd : NoDup (localIds (objectives (store Scenario.namesake)))).
  { vm_compute. apply NoDup_singleton. }
  assert (Hmatch : matchedByName (toLowerCase Backend.api)
                     [Sample.remoteObjective Sample.uuid1 "fitness"]
                     (Sample.objective "local-1" "Fitness")
                     (Sample.remoteObjective Sample.uuid1 "fitness")).
  { split.
    - intros r Hr. apply list_elem_of_singleton in Hr. subst r. discriminate.
    - exists [], []. split; [reflexivity|]. split; [reflexivity|].
      intros r Hr. apply elem_of_nil in Hr. destruct Hr. }
  split; [exact Hnd|]. split; [exact Backend_detail_faithful|].
  split; [exact Hmatch|].
  apply (C2_name_match_resolves_to_last_namesake _ Backend.api Scenario.namesake
           [Sample.remoteObjective Sample.uuid1 "fitness"]
           (world Scenario.namesake)).
  - reflexivity.
  - exact Backend_detail_faithful.
  - vm_compute. left.
  - exact Hnd.
  - exact Hmatch.
Defined.

(** C2 as stated fails. With two namesakes on the server, the local
    objective is mapped to the second one although the first one matches
    its name too. And a local objective whose identifier is the canonical
    identifier of some remote objective is mapped to itself, although a
    remote objective with another identifier carries its name. *)
Lemma C2_only_the_last_namesake_is_resolved :
  let two := (reconcile Backend.api Scenario.twoNamesakes).1 in
  let clash := (reconcile Backend.api Scenario.idClash).1 in
  toLowerCase Backend.api "fitness" = toLowerCase Backend.api "Fitness" /\
  idMapping (store two) !! "local-1" = Some Sample.uuid2 /\
  Sample.uuid2 <> Sample.uuid1 /\
  idMapping (store clash) !! Sample.uuid3 = Some Sample.uuid3 /\
  Sample.uuid3 <> Sample.uuid1.
Proof.
  vm_compute. repeat split; discriminate.
Qed.

(** C1 (amended). On a backend that stores what is submitted under the
    submitted identifier, lists what it stores and answers every request,
    running the full pass twice in succession issues no objective
    creation request during the second run, and every local identifier
    the identity mapping binds after the first run is still bound after
    the second. *)
Theorem C1_second_pass_creates_no_objective :
  forall (s : Store) (w : Backend.World), reachable w -> settled s w.
Proof.
  intros s w Hon. unfold settled.
  set (m1 := (reconcile Backend.api (Backend.boot s w)).1).
  assert (Hm1 : allMatched m1) by (apply reconcile_matches; exact Hon).
  split.
  - destruct (reconcile_quiet (Backend.rewind m1) Hm1) as [evs [Ht Ha]].
    rewrite Ht. simpl. exact Ha.
  - apply (reconcile_grows (Backend.rewind m1)).
Qed.

Lemma C1_witness :
  reachable (world Scenario.offlineWork) /\
  settled (store Scenario.offlineWork) (world Scenario.offlineWork).
Proof.
  assert (Hon : reachable (world Scenario.offlineWork)) by (intros ep; reflexivity).
  split; [exact Hon|].
  apply (C1_second_pass_creates_no_objective (store Scenario.offlineWork)
           (world Scenario.offlineWork) Hon).
Defined.

(** C1 as stated fails: after work done offline has been uploaded, a
    second pass with nothing changed in between asks again for the task
    to be created, and it adds an entry to the identity mapping. *)
Lemma C1_second_pass_recreates_task :
  let m1 := (reconcile Backend.api Scenario.offlineWork).1 in
  let m2 := (reconcile Backend.api (Backend.rewind m1)).1 in
  attemptedTasks (trace m1) = [Scenario.offlineTask] /\
  attemptedTasks (trace m2) = [Scenario.offlineTask] /\
  idMapping (store m1) !! Sample.uuidA = None /\
  idMapping (store m2) !! Sample.uuidA = Some Sample.uuidA.
Proof. vm_compute. repeat split. Qed.

(** * Further properties *)

(** ** Identifier shape *)

Lemma hexRun_iff (n : nat) (k : string -> bool) (s : string) :
  Str.hexRun n k s = true <->
  exists h r, s = h +:+ r /\ String.length h = n /\ allHex h = true /\ k r = true.
Proof.
  revert s. induction n as [|n IH]; intros s; simpl.
  - split.
    + intros Hk. exists EmptyString, s. repeat split. exact Hk.
    + intros [h [r [-> [Hlen [_ Hk]]]]]. destruct h; [exact Hk|discriminate].
  - destruct s as [|c s].
    + split; [discriminate|]. intros [h [r [Heq [Hlen _]]]].
      destruct h; [discriminate|discriminate].
    + rewrite andb_true_iff, IH. split.
      * intros [Hc [h [r [-> [Hlen [Hh Hk]]]]]]. exists (String c h), r.
        repeat split; simpl; [congruence| rewrite Hc, Hh; reflexivity | exact Hk].
      * intros [h [r [Heq [Hlen [Hh Hk]]]]]. destruct h as [|c' h]; [discriminate|].
        simpl in Heq, Hlen, Hh. injection Heq as -> ->.
        apply andb_true_iff in Hh as [Hc Hh]. split; [exact Hc|].
        exists h, r. repeat split; [congruence|exact Hh|exact Hk].
Qed.

Lemma isDash_iff (c : ascii) : Str.isDash c = true <-> c = "-"%char.
Proof.
  unfold Str.isDash. rewrite Nat.eqb_eq. split.
  - intros H. rewrite <- (ascii_nat_embedding c), H. reflexivity.
  - intros ->. reflexivity.
Qed.

Lemma dash_iff (k : string -> bool) (s : string) :
  Str.dash k s = true <-> exists r, s = "-" +:+ r /\ k r = true.
Proof.
  destruct s as [|c s]; simpl.
  - split; [discriminate|]. intros [r [Heq _]]. discriminate.
  - rewrite andb_true_iff, isDash_iff. split.
    + intros [-> Hk]. exists s. split; [reflexivity|exact Hk].
    + intros [r [Heq Hk]]. injection Heq as -> ->. split; [reflexivity|exact Hk].
Qed.

Lemma append_empty_r (s : string) : s +:+ EmptyString = s.
Proof.
  induction s as [|c s IH]; [reflexivity|].
  change (String c (s +:+ EmptyString) = String c s). f_equal. exact IH.
Qed.

Lemma atEnd_iff (s : string) : Str.atEnd s = true <-> s = EmptyString.
Proof. destruct s; simpl; split; congruence. Qed.

(** X1. [isValidUUID] accepts exactly the strings made of five groups of
    8, 4, 4, 4 and 12 hexadecimal digits (in either case) separated by
    single dashes, with nothing before or after. *)
Theorem X1_isValidUUID_accepts_exactly_8_4_4_4_12 :
  forall s : string,
    isValidUUID s = true <->
    exists a b c d e,
      s = a +:+ "-" +:+ b +:+ "-" +:+ c +:+ "-" +:+ d +:+ "-" +:+ e /\
      (String.length a = 8 /\ String.length b = 4 /\ String.length c = 4 /\
       String.length d = 4 /\ String.length e = 12)%nat /\
      allHex a = true /\ allHex b = true /\ allHex c = true /\
      allHex d = true /\ allHex e = true.
Proof.
  intros s. unfold isValidUUID. split.
  - intros H.
    apply hexRun_iff in H as [a [r1 [-> [La [Ha H]]]]].
    apply dash_iff in H as [r2 [-> H]].
    apply hexRun_iff in H as [b [r3 [-> [Lb [Hb H]]]]].
    apply dash_iff in H as [r4 [-> H]].
    apply hexRun_iff in H as [c [r5 [-> [Lc [Hc H]]]]].
    apply dash_iff in H as [r6 [-> H]].
    apply hexRun_iff in H as [d [r7 [-> [Ld [Hd H]]]]].
    apply dash_iff in H as [r8 [-> H]].
    apply hexRun_iff in H as [e [r9 [-> [Le [He H]]]]].
    apply atEnd_iff in H. subst r9.
    exists a, b, c, d, e. rewrite append_empty_r.
    repeat split; assumption.
  - intros [a [b [c [d [e [-> [[La [Lb [Lc [Ld Le]]]] [Ha [Hb [Hc [Hd He]]]]]]]]]]].
    apply hexRun_iff. exists a, ("-" +:+ b +:+ "-" +:+ c +:+ "-" +:+ d +:+ "-" +:+ e).
    repeat split; try assumption.
    apply dash_iff. eexists. split; [reflexivity|].
    apply hexRun_iff. exists b, ("-" +:+ c +:+ "-" +:+ d +:+ "-" +:+ e).
    repeat split; try assumption.
    apply dash_iff. eexists. split; [reflexivity|].
    apply hexRun_iff. exists c, ("-" +:+ d +:+ "-" +:+ e).
    repeat split; try assumption.
    apply dash_iff. eexists. split; [reflexivity|].
    apply hexRun_iff. exists d, ("-" +:+ e).
    repeat split; try assumption.
    apply dash_iff. eexists. split; [reflexivity|].
    apply hexRun_iff. exists e, EmptyString.
    rewrite append_empty_r. repeat split; assumption.
Qed.

Lemma isHex_lower (c : ascii) : Str.isHex (Str.lowerAscii c) = Str.isHex c.
Proof. destruct c as [[] [] [] [] [] [] [] []]; reflexivity. Qed.

Lemma isDash_lower (c : ascii) : Str.isDash (Str.lowerAscii c) = Str.isDash c.
Proof. destruct c as [[] [] [] [] [] [] [] []]; reflexivity. Qed.

Lemma hexRun_lower (n : nat) (k k' : string -> bool) :
  (forall s, k (Str.toLowerCase s) = k' s) ->
  forall s, Str.hexRun n k (Str.toLowerCase s) = Str.hexRun n k' s.
Proof.
  intros Hk. induction n as [|n IH]; intros s; simpl; [apply Hk|].
  destruct s as [|c s]; simpl; [reflexivity|].
  rewrite isHex_lower, IH. reflexivity.
Qed.

Lemma dash_lower (k k' : string -> bool) :
  (forall s, k (Str.toLowerCase s) = k' s) ->
  forall s, Str.dash k (Str.toLowerCase s) = Str.dash k' s.
Proof.
  intros Hk s. destruct s as [|c s]; simpl; [reflexivity|].
  rewrite isDash_lower, Hk. reflexivity.
Qed.

(** X2. [isValidUUID] does not depend on letter case: an identifier and
    its lower-cased form are accepted or rejected together. *)
Theorem X2_isValidUUID_ignores_case :
  forall s : string, isValidUUID (Str.toLowerCase s) = isValidUUID s.
Proof.
  intros s. unfold isValidUUID.
  repeat (first [apply hexRun_lower | apply dash_lower]; intros ?).
  match goal with |- Str.atEnd (Str.toLowerCase ?x) = _ => destruct x; reflexivity end.
Qed.

(** ** Child reconciliation by name *)

Lemma mapByName_cases {L R : Type} (lower : string -> string) (lid lname : L -> string) (rid rname : R -> string)
    (locals : list L) (remotes : option (list R)) (m : gmap string string) (k : string) :
  mapByName lower lid lname rid rname locals remotes m !! k = m !! k \/
  exists l r, l ∈ locals /\ r ∈ default [] remotes /\ lid l = k /\
    mapByName lower lid lname rid rname locals remotes m !! k = Some (rid r) /\
    lower (rname r) = lower (lname l).
Proof.
  unfold mapByName. revert m. induction locals as [|l locals IH]; intros m; simpl.
  { left. reflexivity. }
  destruct (IH (match findByName lower rname remotes (lname l) with
                | Some r => <[lid l := rid r]> m
                | None => m
                end)) as [Hsame|[l' [r' [Hl' [Hr' [Hk [Hv Hn]]]]]]].
  - rewrite Hsame. destruct (findByName lower rname remotes (lname l)) as [r|] eqn:Hfind.
    + destruct (decide (lid l = k)) as [Heq|Hne].
      * right. exists l, r. unfold findByName in Hfind.
        destruct remotes as [rs|]; [|discriminate].
        apply find_some in Hfind as [Hin Hname]. apply String.eqb_eq in Hname.
        split; [left|]. split; [simpl; apply list_elem_of_In; exact Hin|].
        split; [exact Heq|]. split; [|exact Hname].
        rewrite Heq. apply lookup_insert_eq.
      * left. apply lookup_insert_ne. exact Hne.
    + left. reflexivity.
  - right. exists l', r'. split; [right; exact Hl'|]. repeat split; assumption.
Qed.

(** X3. Child reconciliation by name only rebinds identifiers of the
    local objective's own pillars, metrics and rituals, and only to the
    identifier of a remote child of the same kind whose name is the same
    after lower-casing, whatever letters the platform's lower-casing
    folds; every other entry of the mapping is left as it was. *)
Theorem X3_children_are_bound_to_namesakes_only :
  forall (lower : string -> string) (local : Objective.t) (remoteObj : ApiObjective.t)
         (m : gmap string string) (k : string),
    mapPillarsAndRituals lower local remoteObj m !! k = m !! k \/
    exists v, mapPillarsAndRituals lower local remoteObj m !! k = Some v /\
      childMatch lower local remoteObj k v.
Proof.
  intros lower local remoteObj m k. unfold mapPillarsAndRituals.
  set (m1 := mapByName lower Pillar.id Pillar.name ApiPillar.id ApiPillar.name
               (Objective.pillars local) (ApiObjective.pillars remoteObj) m).
  set (m2 := mapByName lower Metric.id Metric.name ApiMetric.id ApiMetric.name
               (Objective.metrics local) (ApiObjective.metrics remoteObj) m1).
  destruct (mapByName_cases lower Ritual.id Ritual.name ApiRitual.id ApiRitual.name
              (Objective.rituals local) (ApiObjective.rituals remoteObj) m2 k)
    as [H3|[r [rr [Hr [Hrr [Hk [Hv Hn]]]]]]].
  2:{ right. exists (ApiRitual.id rr). split; [exact Hv|].
      right. right. exists r, rr. repeat split; assumption. }
  rewrite H3.
  destruct (mapByName_cases lower Metric.id Metric.name ApiMetric.id ApiMetric.name
              (Objective.metrics local) (ApiObjective.metrics remoteObj) m1 k)
    as [H2|[x [rx [Hx [Hrx [Hk [Hv Hn]]]]]]].
  2:{ right. exists (ApiMetric.id rx). split; [exact Hv|].
      right. left. exists x, rx. repeat split; assumption. }
  fold m2 in H2. rewrite H2.
  destruct (mapByName_cases lower Pillar.id Pillar.name ApiPillar.id ApiPillar.name
              (Objective.pillars local) (ApiObjective.pillars remoteObj) m k)
    as [H1|[p [rp [Hp [Hrp [Hk [Hv Hn]]]]]]].
  - left. exact H1.
  - right. exists (ApiPillar.id rp). split; [exact Hv|].
    left. exists p, rp. repeat split; assumption.
Qed.

Lemma find_first {A : Type} (f : A -> bool) (before after : list A) (x : A) :
  f x = true -> (forall y, y ∈ before -> f y = false) ->
  List.find f (before ++ x :: after) = Some x.
Proof.
  intros Hx. induction before as [|y before IH]; intros Hb; simpl.
  - rewrite Hx. reflexivity.
  - rewrite (Hb y (list_elem_of_here _ _)). apply IH.
    intros z Hz. apply Hb. right. exact Hz.
Qed.

Lemma mapByName_first {L R : Type} (lower : string -> string) (lid lname : L -> string) (rid rname : R -> string)
    (lb la : list L) (l : L) (rb ra : list R) (r : R) (m : gmap string string) :
  lid l ∉ lid <$> la ->
  lower (rname r) = lower (lname l) ->
  (forall r', r' ∈ rb -> lower (rname r') <> lower (lname l)) ->
  mapByName lower lid lname rid rname (lb ++ l :: la) (Some (rb ++ r :: ra)) m !! lid l
    = Some (rid r).
Proof.
  intros Hla Hname Hrb.
  assert (Happ : mapByName lower lid lname rid rname (lb ++ l :: la) (Some (rb ++ r :: ra)) m =
                 mapByName lower lid lname rid rname la (Some (rb ++ r :: ra))
                   (<[lid l := rid r]>
                      (mapByName lower lid lname rid rname lb (Some (rb ++ r :: ra)) m))).
  { unfold mapByName. rewrite foldl_app. simpl.
    rewrite (find_first _ rb ra r); [reflexivity| |].
    - apply String.eqb_eq. exact Hname.
    - intros r' Hr'. apply String.eqb_neq. apply Hrb, Hr'. }
  rewrite Happ, mapByName_lookup_ne by exact Hla. apply lookup_insert_eq.
Qed.

(** X4. A local pillar whose identifier is shared by no other child of
    its objective is mapped to the first remote pillar, in the remote
    objective's list, whose name equals its own after lower-casing,
    whatever letters the platform's lower-casing folds. *)
Theorem X4_pillar_is_mapped_to_first_namesake :
  forall (lower : string -> string) (local : Objective.t) (remoteObj : ApiObjective.t)
         (m : gmap string string)
         (p : Pillar.t) (rp : ApiPillar.t) (earlier later : list ApiPillar.t),
    p ∈ Objective.pillars local ->
    NoDup (List.tail (entityIds local)) ->
    ApiObjective.pillars remoteObj = Some (earlier ++ rp :: later) ->
    lower (ApiPillar.name rp) = lower (Pillar.name p) ->
    (forall r', r' ∈ earlier ->
       lower (ApiPillar.name r') <> lower (Pillar.name p)) ->
    mapPillarsAndRituals lower local remoteObj m !! Pillar.id p = Some (ApiPillar.id rp).
Proof.
  intros lower local remoteObj m p rp earlier later Hp Hnd Hremote Hname Hearlier.
  apply list_elem_of_split in Hp as [lb [la Hsplit]].
  unfold entityIds in Hnd. simpl in Hnd. rewrite Hsplit in Hnd.
  rewrite fmap_app, fmap_cons, <- app_assoc in Hnd.
  apply NoDup_app in Hnd as [_ [_ Hnd]]. simpl in Hnd.
  apply NoDup_cons in Hnd as [Hnot _].
  apply not_elem_of_app in Hnot as [Hla Hrest].
  apply not_elem_of_app in Hrest as [Hmetrics Hrituals].
  unfold mapPillarsAndRituals.
  rewrite !mapByName_lookup_ne by assumption.
  rewrite Hsplit, Hremote. apply mapByName_first; assumption.
Qed.

Lemma X4_witness :
  let p := Pillar.mk "p1" "Strength" None 1 0 in
  let rp := ApiPillar.mk Sample.uuid2 Sample.uuid1 "strength" None 1 0 in
  let local := Objective.mk "o1" "Fitness" "health" "d" "t" [p] [] []
                 (Timeframe.mk (Instant 0) None 30) "on_track" 1 false
                 (Instant 0) (Instant 0) in
  let remoteObj := ApiObjective.mk Sample.uuid1 "user" "Fitness" "health" None None
                     (Instant 0) None None "on_track" None None (Instant 0) (Instant 0)
                     (Some ([ApiPillar.mk Sample.uuid3 Sample.uuid1 "Cardio" None 1 0]
                              ++ rp :: [])) None None in
  NoDup (List.tail (entityIds local)) /\
  mapPillarsAndRituals Str.toLowerCase local remoteObj ∅ !! Pillar.id p
    = Some (ApiPillar.id rp).
Proof.
  intros p rp local remoteObj.
  assert (Hnd : NoDup (List.tail (entityIds local))).
  { vm_compute. apply NoDup_singleton. }
  split; [exact Hnd|].
  apply (X4_pillar_is_mapped_to_first_namesake Str.toLowerCase local remoteObj ∅ p rp
           [ApiPillar.mk Sample.uuid3 Sample.uuid1 "Cardio" None 1 0] []).
  - left.
  - exact Hnd.
  - reflexivity.
  - reflexivity.
  - intros r' Hr'. apply list_elem_of_singleton in Hr'. subst r'.
    vm_compute. discriminate.
Defined.

(** ** The shape of an invocation *)

Section Shape.

Context {W : Type} (api : Api W).

Lemma syncObjectives_events : keeps (emitsOnly objectiveEvent) (syncObjectives api).
Proof.
  unfold syncObjectives, uploadObjectives, downloadObjectives,
    uploadObjectiveStep, downloadObjectiveStep, submitObjective, mintIds,
    mintAll, mintId.
  walk ltac:(emitLeaf ltac:(exact I)).
Qed.

Lemma syncTasks_events : keeps (emitsOnly taskEvent) (syncTasks api).
Proof.
  unfold syncTasks, reconcileTasks, uploadTaskStep, statusStep, downloadTaskStep, mintId.
  walk ltac:(emitLeaf ltac:(exact I)).
Qed.

Lemma syncAll_shape (m : Machine W) :
  isAuthenticated (store m) = true ->
  exists evsO evsT m' res,
    syncAll api m = (m', Ok res) /\
    trace m' = trace m
      ++ [Notify (SyncState.mk syncing (SyncState.lastSyncAt (syncState (store m))) None)]
      ++ evsO ++ evsT ++ [Notify (syncState (store m'))] /\
    Forall objectiveEvent evsO /\ Forall taskEvent evsT /\
    (SyncResult.success res = true <->
       SyncState.status (syncState (store m')) = success) /\
    (SyncResult.success res = false -> is_Some (SyncResult.error res)).
Proof.
  intros Hauth. rewrite (syncAll_authenticated api m Hauth).
  set (m1 := (beginSync m).1).
  assert (Ht1 : trace m1 = trace m ++
            [Notify (SyncState.mk syncing (SyncState.lastSyncAt (syncState (store m))) None)])
    by reflexivity.
  clearbody m1.
  unfold tryCatch, syncBoth. unfold bind at 1.
  destruct (syncObjectives_events m1) as [evsO [HtO HO]].
  destruct (syncObjectives api m1) as [mo [oe|e]]; simpl in HtO.
  - unfold bind at 1.
    destruct (syncTasks_events mo) as [evsT [HtT HT]].
    destruct (syncTasks api mo) as [mt [te|e]]; simpl in HtT.
    + unfold bind, ask, modifyStore, notifyListeners, bind, getStore, emit, ret.
      destruct (now api (world mt)) as [w at_]. simpl.
      eexists evsO, evsT, _, _. split; [reflexivity|]. simpl.
      split; [rewrite HtT, HtO, Ht1, <- !app_assoc; reflexivity|].
      split; [exact HO|]. split; [exact HT|].
      unfold finishedResult, finishedState. rewrite !concatIfAny_app. simpl.
      destruct (0 <? length (oe ++ te))%nat; simpl; split; try split;
        try congruence; intros _; eexists; reflexivity.
    + unfold syncFailed, bind, modifyStore, notifyListeners, bind, getStore, emit, ret.
      simpl. eexists evsO, evsT, _, _. split; [reflexivity|]. simpl.
      split; [rewrite HtT, HtO, Ht1, <- !app_assoc; reflexivity|].
      split; [exact HO|]. split; [exact HT|].
      split; [split; discriminate|]. intros _. eexists. reflexivity.
  - unfold syncFailed, bind, modifyStore, notifyListeners, bind, getStore, emit, ret.
    simpl. eexists evsO, [], _, _. split; [reflexivity|]. simpl.
    split; [rewrite HtO, Ht1, <- !app_assoc; reflexivity|].
    split; [exact HO|]. split; [constructor|].
    split; [split; discriminate|]. intros _. eexists. reflexivity.
Qed.

End Shape.

(** X5. An authenticated invocation of [syncAll] notifies the listeners
    exactly twice: first with the ['syncing'] snapshot, which keeps the
    previous timestamp and clears the error text, and last with the final
    state, the one [getSyncState] returns afterwards; everything in
    between is a request. *)
Theorem X5_listeners_are_notified_first_and_last :
  forall (W : Type) (api : Api W) (m : Machine W),
    isAuthenticated (store m) = true -> publishedTwice api m.
Proof.
  intros W api m Hauth.
  destruct (syncAll_shape api m Hauth) as [evsO [evsT [m' [res [Hrun [Ht [HO [HT _]]]]]]]].
  unfold publishedTwice. rewrite Hrun. simpl. exists (evsO ++ evsT). split.
  - rewrite Ht, <- !app_assoc. reflexivity.
  - apply Forall_app. split; eapply Forall_impl; try eassumption;
      intros e He; destruct e; try exact I; destruct He.
Qed.

Lemma X5_witness :
  isAuthenticated (store Scenario.pushDown) = true /\
  publishedTwice Backend.api Scenario.pushDown.
Proof.
  split; [reflexivity|].
  apply (X5_listeners_are_notified_first_and_last _ Backend.api Scenario.pushDown).
  reflexivity.
Defined.

(** X6. [syncAll] never throws: whatever the collaborators do, it returns
    a result. The result is successful exactly when the session is
    authenticated and the published state ends as ['success'], and an
    unsuccessful result always carries an error text. *)
Theorem X6_syncAll_returns_a_result :
  forall (W : Type) (api : Api W) (m : Machine W),
    exists res,
      (syncAll api m).2 = Ok res /\
      (SyncResult.success res = true <->
         isAuthenticated (store m) = true /\
         SyncState.status (syncState (store (syncAll api m).1)) = success) /\
      (SyncResult.success res = false -> is_Some (SyncResult.error res)).
Proof.
  intros W api m. destruct (isAuthenticated (store m)) eqn:Hauth.
  - destruct (syncAll_shape api m Hauth) as [evsO [evsT [m' [res [Hrun [_ [_ [_ [Hs He]]]]]]]]].
    rewrite Hrun. simpl. exists res. split; [reflexivity|].
    split; [|exact He]. rewrite Hs. split; [intros H; split; [reflexivity|exact H]|].
    intros [_ H]. exact H.
  - rewrite (syncAll_unauthenticated api m Hauth). simpl. eexists.
    split; [reflexivity|]. simpl. split.
    + split; [discriminate|]. intros [H _]. discriminate.
    + intros _. eexists. reflexivity.
Qed.

(** X7. Within an invocation the objective phase is over before the task
    phase begins: between the two notifications, every request for
    objectives precedes every request for tasks. *)
Theorem X7_objective_requests_precede_task_requests :
  forall (W : Type) (api : Api W) (m : Machine W),
    isAuthenticated (store m) = true -> phasesInOrder api m.
Proof.
  intros W api m Hauth.
  destruct (syncAll_shape api m Hauth) as [evsO [evsT [m' [res [Hrun [Ht [HO [HT _]]]]]]]].
  unfold phasesInOrder. rewrite Hrun. simpl. eexists evsO, evsT, _, _.
  split; [exact Ht|].
  split; assumption.
Qed.

Lemma X7_witness :
  isAuthenticated (store Scenario.offlineWork) = true /\
  phasesInOrder Backend.api Scenario.offlineWork.
Proof.
  split; [reflexivity|].
  apply (X7_objective_requests_precede_task_requests _ Backend.api Scenario.offlineWork).
  reflexivity.
Defined.

(** ** What each phase writes *)

#[local] Instance storesGrow_preorder : PreOrder storesGrow.
Proof.
  split.
  - intros s. split; reflexivity.
  - intros a b c [H1 H2] [H3 H4]. split; etransitivity; eassumption.
Qed.

#[local] Instance objectiveSideKept_preorder : PreOrder objectiveSideKept.
Proof.
  split.
  - intros s. repeat split.
  - intros a b c [H1 [H2 H3]] [H4 [H5 H6]]. unfold objectiveSideKept.
    rewrite H4, H5, H6. repeat split; assumption.
Qed.

Ltac growLeaf :=
  first
    [ storeLeaf
    | apply keeps_modifyStore; intros ?; unfold onStore, storesGrow; simpl;
      split; first [reflexivity | apply prefix_app_r; reflexivity] ].

Ltac sameLeaf :=
  first
    [ storeLeaf
    | apply keeps_modifyStore; intros ?;
      unfold onStore, tasksKept, objectiveSideKept; simpl; repeat split ].

Section Writes.

Context {W : Type} (api : Api W).

Lemma syncObjectives_storesGrow : keeps (onStore storesGrow) (syncObjectives api).
Proof.
  unfold syncObjectives, uploadObjectives, downloadObjectives,
    uploadObjectiveStep, downloadObjectiveStep, submitObjective, mintIds,
    mintAll, mintId.
  walk growLeaf.
Qed.

Lemma syncTasks_storesGrow : keeps (onStore storesGrow) (syncTasks api).
Proof.
  unfold syncTasks, reconcileTasks, uploadTaskStep, statusStep, downloadTaskStep, mintId.
  walk growLeaf.
Qed.

Lemma syncAll_storesGrow : keeps (onStore storesGrow) (syncAll api).
Proof.
  pose proof syncObjectives_storesGrow. pose proof syncTasks_storesGrow.
  unfold syncAll, beginSync, syncBoth, syncFailed, notifyListeners.
  walk ltac:(first [assumption | growLeaf]).
Qed.

Lemma syncTasks_objectiveSideKept : keeps (onStore objectiveSideKept) (syncTasks api).
Proof.
  unfold syncTasks, reconcileTasks, uploadTaskStep, statusStep, downloadTaskStep, mintId.
  walk sameLeaf.
Qed.

End Writes.

(** X8. An invocation of [syncAll] never removes, reorders or rewrites a
    local objective or task: the objective store and the task store it
    leaves behind start with the ones it found. *)
Theorem X8_local_stores_only_grow :
  forall (W : Type) (api : Api W) (m : Machine W),
    objectives (store m) `prefix_of` objectives (store (syncAll api m).1) /\
    tasks (store m) `prefix_of` tasks (store (syncAll api m).1).
Proof. intros W api m. apply (syncAll_storesGrow api m). Qed.

(** X9. Each phase writes on its own side only: the objective phase
    leaves the task store as it is, and the task phase leaves the
    identity mapping, the objective store and the published state as they
    are (it only reads the mapping). *)
Theorem X9_phases_write_their_own_side :
  forall (W : Type) (api : Api W) (m : Machine W),
    tasks (store (syncObjectives api m).1) = tasks (store m) /\
    idMapping (store (syncTasks api m).1) = idMapping (store m) /\
    objectives (store (syncTasks api m).1) = objectives (store m) /\
    syncState (store (syncTasks api m).1) = syncState (store m).
Proof.
  intros W api m. split.
  - apply (syncObjectives_tasksKept api m).
  - apply (syncTasks_objectiveSideKept api m).
Qed.

(** ** Download of objectives *)

#[local] Instance settledAt_preorder (k : string) : PreOrder (settledAt k).
Proof.
  split.
  - intros s. split; intros; assumption.
  - intros a b c [H1 H2] [H3 H4]. split.
    + intros o Ho. apply H3, H1, Ho.
    + intros H. apply H4, H2, H.
Qed.


Section Materialize.

Context {W : Type} (api : Api W).



End Materialize.



(** ** The task phase *)

Lemma truthy_nonempty (s : string) : Str.truthy s = true -> s <> EmptyString.
Proof. destruct s; [discriminate|]. intros _. discriminate. Qed.

Lemma truthy_false (s : string) : Str.truthy s = false -> s = EmptyString.
Proof. destruct s; [reflexivity|discriminate]. Qed.

Lemma orElse_None_Some (a : option string) (v : string) :
  orElse a None = Some v -> a = Some v /\ Str.truthy v = true.
Proof.
  unfold orElse. destruct a as [s|]; [|discriminate].
  destruct (Str.truthy s) eqn:Ht; [|discriminate]. intros [= ->]. split; [reflexivity|exact Ht].
Qed.

Lemma resolveRef_sent (ids : gmap string string) (ref : option string) :
  refSent ids ref (resolveRef ids ref).
Proof.
  unfold resolveRef. destruct ref as [r|]; [|constructor].
  destruct (Str.truthy r) eqn:Hr.
  2:{ apply truthy_false in Hr. subst r. constructor. }
  apply truthy_nonempty in Hr.
  assert (Hrest : unresolved ids r ->
                  refSent ids (Some r) (if isValidUUID r then Some r else None)).
  { intros Hun. destruct (isValidUUID r) eqn:Hu.
    - apply refSent_itself; assumption.
    - apply refSent_dropped; assumption. }
  unfold orElse. destruct (ids !! r) as [v|] eqn:Hlook.
  - destruct (Str.truthy v) eqn:Hv.
    + apply refSent_mapped; [exact Hr|exact Hlook|apply truthy_nonempty, Hv].
    + apply truthy_false in Hv. subst v. apply Hrest. right. exact Hlook.
  - apply Hrest. left. exact Hlook.
Qed.

Ltac underLeaf tac :=
  first
    [ apply keeps_emit; intros ? HI; split;
      [exact HI | eapply emitsOnly_one; [reflexivity | tac]]
    | apply keeps_request; intros ? ? ? HI; split;
      [exact HI | eapply emitsOnly_one; [reflexivity | tac]]
    | apply keeps_ask; intros ? ? HI; split;
      [exact HI | apply emitsOnly_same; reflexivity]
    | apply keeps_modifyStore; intros ? HI; split;
      [exact HI | apply emitsOnly_same; reflexivity] ].

Section TaskPayload.

Context {W : Type} (api : Api W) (ids : gmap string string).

Lemma mintId_reuses (localId : string) (m : Machine W) :
  exists w serverId,
    mintId api localId m = ({| store := store m; world := w; trace := trace m |}, Ok serverId)
    /\ reusedId localId serverId.
Proof.
  unfold mintId, reusedId. destruct (isValidUUID localId).
  - exists (world m), localId. destruct m; split; reflexivity.
  - unfold ask. destruct (generateId api (world m)) as [w fresh].
    exists w, fresh. split; [reflexivity|discriminate].
Qed.

Lemma uploadTaskStep_sent (remoteMap : gmap string ApiTask.t) (t : Task.t)
    (errors : list string) (m : Machine W) :
  exists evs m' r,
    uploadTaskStep api remoteMap t errors m = (m', r) /\
    store m' = store m /\ trace m' = trace m ++ evs /\
    Forall (sentRight (idMapping (store m))) evs.
Proof.
  unfold uploadTaskStep.
  destruct (remoteMap !! Task.id t).
  { eexists [], _, _. split; [reflexivity|]. simpl. rewrite app_nil_r.
    repeat split. constructor. }
  unfold bind at 1. unfold getStore at 1.
  destruct (orElse (idMapping (store m) !! Task.objectiveId t) None) as [sid|] eqn:Hres.
  2:{ eexists [], _, _. split; [reflexivity|]. simpl. rewrite app_nil_r.
      repeat split. constructor. }
  apply orElse_None_Some in Hres as [Hlook Htruthy].
  unfold bind at 1.
  destruct (mintId_reuses (Task.id t) m) as [w [taskId [-> Hreuse]]].
  unfold tryCatch, bind, attempt.
  destruct (createTaskPayload t taskId sid (resolveRef (idMapping (store m)) (Task.pillarId t))
              (resolveRef (idMapping (store m)) (Task.ritualId t))) as [data|e] eqn:Hdata.
  2:{ simpl. eexists [], _, _. split; [reflexivity|]. simpl. rewrite app_nil_r.
      repeat split. constructor. }
  assert (Hright : forall ok, sentRight (idMapping (store m)) (CreateTask t data ok)).
  { intros ok. unfold createTaskPayload in Hdata.
    destruct (Task.scheduledAt t) as [ms|] eqn:Hsched; simpl in Hdata; [|discriminate].
    injection Hdata as <-. simpl.
    split; [exact Hlook|]. split; [apply truthy_nonempty, Htruthy|].
    split; [exact Hreuse|]. repeat (split; [first [reflexivity|exact Hsched]|]).
    split; apply resolveRef_sent. }
  unfold request. simpl.
  destruct (createTask api data w) as [w' [u|e]]; simpl;
    eexists [_], _, _; (split; [reflexivity|]); simpl;
    (split; [reflexivity|]); (split; [reflexivity|]);
    (constructor; [apply Hright|constructor]).
Qed.

Lemma uploadTaskStep_sends_right (remoteMap : gmap string ApiTask.t) (t : Task.t)
    (errors : list string) :
  keeps (under (fun s => idMapping s = ids) (emitsOnly (sentRight ids)))
    (uploadTaskStep api remoteMap t errors).
Proof.
  intros m HI.
  destruct (uploadTaskStep_sent remoteMap t errors m)
    as [evs [m' [r [-> [Hs [Ht Hall]]]]]].
  simpl. split; [rewrite Hs; exact HI|].
  exists evs. rewrite <- HI. split; assumption.
Qed.

Lemma syncTasks_sends_right :
  keeps (under (fun s => idMapping s = ids) (emitsOnly (sentRight ids))) (syncTasks api).
Proof.
  unfold syncTasks, reconcileTasks, statusStep, downloadTaskStep.
  walk ltac:(first [apply uploadTaskStep_sends_right | underLeaf ltac:(exact I)]).
Qed.

End TaskPayload.

(** X11. Once the day's tasks are fetched, the task phase posts exactly
    the local tasks that no fetched task carries the identifier of, whose
    objective the mapping resolves to a non-empty identifier and whose
    schedule can be printed: one creation request for each, in the order
    of the local store, whatever the outcome of the earlier ones. It
    returns one message per failed request and one per task that
    qualifies but for a schedule that cannot be printed, each kind in
    order. *)
Theorem X11_tasks_posted_are_exactly_the_uploadable_ones :
  forall (W : Type) (api : Api W) (m : Machine W) (remoteTasks : list ApiTask.t),
    fetchedTasks api m = Ok remoteTasks -> taskUploadsExact api m remoteTasks.
Proof.
  intros W api m remoteTasks Hfetch.
  destruct (syncTasks_run api m remoteTasks Hfetch)
    as [evs [m' [errors [Hrun [Ht [_ [Ha [Hm _]]]]]]]].
  unfold taskUploadsExact. rewrite Hrun. simpl.
  exists (GetTasks (isoDay api (now api (world m)).2) true :: evs), errors.
  split; [exact Ht|]. split; [reflexivity|]. split; [exact Ha|exact Hm].
Qed.

Lemma X11_witness :
  fetchedTasks Backend.api Pending.queued = Ok [] /\
  taskUploadsExact Backend.api Pending.queued [].
Proof.
  split; [reflexivity|].
  apply (X11_tasks_posted_are_exactly_the_uploadable_ones _ Backend.api Pending.queued []).
  reflexivity.
Defined.

(** X12. Every task creation request of the task phase carries the
    identifier the mapping holds for the task's objective, which is never
    empty; it reuses the task's own identifier when that has UUID shape;
    it copies title, description, rationale and duration and prints the
    schedule. A pillar or ritual reference is sent as the non-empty
    identifier the mapping holds for it; failing that, as itself when it
    has UUID shape; and it is omitted when it is absent, empty or neither
    applies. *)
Theorem X12_task_payload_carries_resolved_identifiers :
  forall (W : Type) (api : Api W) (m : Machine W),
    exists evs, trace (syncTasks api m).1 = trace m ++ evs /\
      Forall (sentRight (idMapping (store m))) evs.
Proof.
  intros W api m.
  exact (proj2 (syncTasks_sends_right api (idMapping (store m)) m eq_refl)).
Qed.

(** X13. Once the day's tasks are fetched, the task phase cannot throw,
    and it leaves the local task store extended by exactly the fetched
    tasks whose identifier no local task carries, copied field by field
    (status and timestamps included) in the order they were fetched. *)
Theorem X13_unknown_remote_tasks_are_appended :
  forall (W : Type) (api : Api W) (m : Machine W) (remoteTasks : list ApiTask.t),
    fetchedTasks api m = Ok remoteTasks -> taskDownloadsExact api m remoteTasks.
Proof.
  intros W api m remoteTasks Hfetch.
  destruct (syncTasks_run api m remoteTasks Hfetch)
    as [evs [m' [errors [Hrun [_ [_ [_ [_ Hts]]]]]]]].
  unfold taskDownloadsExact. rewrite Hrun. simpl. split; [reflexivity|exact Hts].
Qed.

Lemma X13_witness :
  fetchedTasks Backend.api Scenario.offlineInbox
    = Ok [Sample.remoteTask Sample.uuid3 Sample.uuid1 "Run" pending] /\
  taskDownloadsExact Backend.api Scenario.offlineInbox
    [Sample.remoteTask Sample.uuid3 Sample.uuid1 "Run" pending].
Proof.
  split; [reflexivity|].
  apply (X13_unknown_remote_tasks_are_appended _ Backend.api Scenario.offlineInbox).
  reflexivity.
Defined.

(** ** The payload of an objective creation *)

Lemma Forall2_zip_with_l {A B C : Type} (f : A -> B -> C) (Q : A -> B -> Prop)
    (R : A -> C -> Prop) (xs : list A) (ys : list B) :
  Forall2 Q xs ys -> (forall x y, Q x y -> R x (f x y)) ->
  Forall2 R xs (zip_with f xs ys).
Proof.
  intros H HQR. induction H as [|x y xs ys Hxy _ IH]; simpl.
  - constructor.
  - constructor; [apply HQR, Hxy|exact IH].
Qed.

Lemma resolvePillar_ref (ps : list Pillar.t) (pms : list (string * string))
    (ref : option string) :
  Forall2 (fun p pm => pm.1 = Pillar.id p /\ reusedId pm.1 pm.2) ps pms ->
  pillarRef ps (zip_with newPillar ps pms) ref (resolvePillar pms ref).
Proof.
  intros Hpms. unfold resolvePillar.
  destruct ref as [r|]; [|intros r0; discriminate].
  destruct (Str.truthy r) eqn:Hr.
  2:{ intros r0 [= <-]. left. apply truthy_false, Hr. }
  destruct (List.find (fun pm => String.eqb pm.1 r) pms) as [pm|] eqn:Hfind; simpl.
  - apply find_some in Hfind as [Hin Heq]. apply String.eqb_eq in Heq.
    apply list_elem_of_In, list_elem_of_lookup in Hin as [i Hi].
    destruct (Forall2_lookup_r _ _ _ _ _ Hpms Hi) as [p [Hp [Hid _]]].
    exists i, p, (newPillar p pm). split; [exact Hp|].
    split; [rewrite lookup_zip_with, Hp; simpl; rewrite Hi; reflexivity|].
    split; [congruence|reflexivity].
  - intros r0 [= <-]. right. intros Hin.
    apply list_elem_of_fmap in Hin as [p [Hid Hp]].
    apply list_elem_of_lookup in Hp as [i Hi].
    destruct (Forall2_lookup_l _ _ _ _ _ Hpms Hi) as [pm [Hpm [Hfst _]]].
    assert (Hin : In pm pms) by (apply list_elem_of_In, list_elem_of_lookup; eauto).
    pose proof (find_none _ _ Hfind pm Hin) as Hno. simpl in Hno.
    apply String.eqb_neq in Hno. congruence.
Qed.

Section ObjectivePayload.

Context {W : Type} (api : Api W).

Lemma mintAll_reuses {X : Type} (idOf : X -> string) (xs : list X) (m : Machine W) :
  exists w mappings,
    mintAll api idOf xs m = ({| store := store m; world := w; trace := trace m |}, Ok mappings)
    /\ Forall2 (fun x pm => pm.1 = idOf x /\ reusedId pm.1 pm.2) xs mappings.
Proof.
  unfold mintAll. revert m. induction xs as [|x xs IH]; intros m; simpl.
  - exists (world m), []. destruct m; split; [reflexivity|constructor].
  - unfold bind at 1. unfold bind at 1.
    destruct (mintId_reuses api (idOf x) m) as [w1 [sid [-> Hsid]]].
    unfold ret at 1. unfold bind at 1.
    destruct (IH {| store := store m; world := w1; trace := trace m |})
      as [w2 [mappings [-> Hall]]].
    simpl. exists w2, ((idOf x, sid) :: mappings). split; [reflexivity|].
    constructor; [split; [reflexivity|exact Hsid]|exact Hall].
Qed.

Lemma upload_sends_right (local : Objective.t) (errors : list string) :
  keeps (emitsOnly objectiveSentRight)
    (let* ids := mintIds api local in submitObjective api local ids errors).
Proof.
  intros m. unfold mintIds. unfold bind at 1. unfold bind at 1.
  destruct (mintId_reuses api (Objective.id local) m) as [w1 [oid [-> Ho]]].
  unfold bind at 1.
  destruct (mintAll_reuses Pillar.id (Objective.pillars local)
              {| store := store m; world := w1; trace := trace m |})
    as [w2 [pms [-> Hp]]]. simpl.
  unfold bind at 1.
  destruct (mintAll_reuses Metric.id (Objective.metrics local)
              {| store := store m; world := w2; trace := trace m |})
    as [w3 [mms [-> Hm]]]. simpl.
  unfold bind at 1.
  destruct (mintAll_reuses Ritual.id (Objective.rituals local)
              {| store := store m; world := w3; trace := trace m |})
    as [w4 [rms [-> Hr]]]. simpl.
  destruct (submitObjective_outcome api local (Minted.mk oid pms mms rms) errors
              {| store := store m; world := w4; trace := trace m |})
    as [evs [m' [errs [-> [Ht Hcase]]]]].
  simpl in Ht |- *. exists evs. split; [exact Ht|].
  destruct (sendable local); [|destruct Hcase as [-> _]; constructor].
  destruct Hcase as [data [ok [Hdata [-> _]]]].
  constructor; [|constructor]. unfold payloadOf, createObjectivePayload in Hdata.
  simpl in Hdata.
  destruct (optISOString (Timeframe.endDate (Objective.timeframe local)));
    [|discriminate].
  injection Hdata as <-. simpl.
  split; [exact Ho|]. split; [reflexivity|].
  split; [|split].
  - eapply Forall2_zip_with_l; [exact Hp|]. intros p pm [Hid Hre]. simpl.
    split; [reflexivity|]. rewrite <- Hid. exact Hre.
  - eapply Forall2_zip_with_l; [exact Hm|]. intros x mm [Hid Hre]. simpl.
    split; [reflexivity|]. split; [rewrite <- Hid; exact Hre|].
    apply resolvePillar_ref, Hp.
  - eapply Forall2_zip_with_l; [exact Hr|]. intros r rm [Hid Hre]. simpl.
    split; [reflexivity|]. split; [rewrite <- Hid; exact Hre|].
    apply resolvePillar_ref, Hp.
Qed.

Lemma syncObjectives_sends_right :
  keeps (emitsOnly objectiveSentRight) (syncObjectives api).
Proof.
  unfold syncObjectives, uploadObjectives, downloadObjectives,
    uploadObjectiveStep, downloadObjectiveStep.
  walk ltac:(first [apply upload_sends_right | emitLeaf ltac:(exact I)]).
Qed.

End ObjectivePayload.

(** X14. Every objective creation request of the objective phase is
    self-contained: it carries one pillar, metric and ritual per local
    one, in order and under the same name; an identifier with UUID shape
    is sent unchanged; and the pillar reference of a metric or ritual is
    sent as the identifier given in the same request to a pillar the
    reference names, and omitted when it is empty or names no pillar of
    the objective, so that no request refers to a pillar outside itself. *)
Theorem X14_objective_payload_is_self_contained :
  forall (W : Type) (api : Api W) (m : Machine W),
    exists evs, trace (syncObjectives api m).1 = trace m ++ evs /\
      Forall objectiveSentRight evs.
Proof.
  intros W api m. exact (syncObjectives_sends_right api m).
Qed.

(** ** Direct uploads *)

Lemma sentTasks_app (a b : list Sent) : sentTasks (a ++ b) = sentTasks a ++ sentTasks b.
Proof. unfold sentTasks. apply omap_app. Qed.

Section Direct.

Context {W : Type} (up : Uploads W).

Lemma uploadTasks_loop (ts : list Task.t) (u : unit) (m : Machine (W * list Sent)) :
  exists sent w,
    forAcc (fun task (_ : unit) =>
              tryCatch
                (let* data := attempt (plainTaskPayload task) in
                 post (postTask up data) (SentTask task data) >> ret tt)
                (fun _ => ret tt)) ts u m
      = ({| store := store m; world := (w, (world m).2 ++ sent); trace := trace m |}, Ok tt)
    /\ sentTasks sent = List.filter sendableTask ts /\ Forall sentVerbatim sent.
Proof.
  revert u m. induction ts as [|t ts IH]; intros u m; simpl.
  - destruct u. exists [], (world m).1. rewrite app_nil_r.
    destruct m as [s [w l] tr]. repeat split. constructor.
  - unfold bind at 1. unfold tryCatch at 1. unfold bind at 1. unfold attempt at 1.
    unfold plainTaskPayload at 1, sendableTask at 1.
    destruct (Task.scheduledAt t) as [ms|] eqn:Hsched; simpl.
    + unfold bind at 1. unfold post at 1.
      match goal with |- context [postTask up ?d (world m).1] =>
        assert (Hv : forall ok, sentVerbatim (SentTask t d ok))
          by (intros ok; simpl; split; [reflexivity|exact Hsched]);
        destruct (postTask up d (world m).1) as [w1 [[]|e]]; simpl;
        match goal with |- context [forAcc _ ts tt ?m1] =>
          destruct (IH tt m1) as [sent [w2 [-> [Hs Hall]]]]
        end; simpl;
        [ exists (SentTask t d true :: sent), w2
        | exists (SentTask t d false :: sent), w2 ]
      end;
        (split; [rewrite <- app_assoc; reflexivity|]);
        (split; [simpl; f_equal; exact Hs|]); (constructor; [apply Hv|exact Hall]).
    + destruct (IH tt m) as [sent [w2 [-> [Hs Hall]]]].
      exists sent, w2. repeat split; assumption.
Qed.

End Direct.

(** X15. The direct task upload is best effort: signed in, it posts, once
    and in order, every task of its argument whose schedule can be
    printed, each with its fields as they are (the local objective
    reference is sent unresolved), and neither a request that fails nor a
    schedule that cannot be printed stops the later ones or the caller,
    who always gets a normal return; signed out, it posts nothing. The
    local stores are not touched. *)
Theorem X15_uploadTasks_is_best_effort :
  forall (W : Type) (up : Uploads W) (ts : list Task.t) (m : Machine (W * list Sent)),
    bestEffort up ts m.
Proof.
  intros W up ts m. unfold bestEffort.
  assert (Hrun : uploadTasks up ts m =
                 if isAuthenticated (store m)
                 then forAcc (fun task (_ : unit) =>
                        tryCatch
                          (let* data := attempt (plainTaskPayload task) in
                           post (postTask up data) (SentTask task data) >> ret tt)
                          (fun _ => ret tt)) ts tt m
                 else (m, Ok tt)).
  { unfold uploadTasks. unfold bind at 1. unfold getStore.
    destruct (isAuthenticated (store m)); reflexivity. }
  rewrite Hrun. clear Hrun. destruct (isAuthenticated (store m)).
  - destruct (uploadTasks_loop up ts tt m) as [sent [w [-> [Hs Hv]]]]. simpl.
    exists sent. repeat split; assumption.
  - exists []. rewrite app_nil_r. repeat split. constructor.
Qed.

(** ** The settings screen *)

Lemma orText_nonempty (x : option string) (d : string) :
  d <> EmptyString -> orText x d <> EmptyString.
Proof.
  intros Hd. unfold orText. destruct x as [s|]; [|exact Hd].
  destruct (Str.truthy s) eqn:Hs; [apply truthy_nonempty, Hs|exact Hd].
Qed.

Lemma deliver_last (evs : list Event) (state : SyncState.t) (shown : Shown.t) :
  deliver (evs ++ [Notify state]) shown = onSyncState state shown.
Proof. unfold deliver. rewrite foldl_app. reflexivity. Qed.

(** X16. A press on the sync button never fails and raises exactly one
    alert, with a non-empty text. Rendered signed out, the screen asks to
    sign in and the service is not called. Otherwise the alert is either
    [Sync Complete] or [Sync Failed], and it is [Sync Complete] exactly
    when the session is authenticated and the published state ends as
    ['success']. *)
Theorem X16_handleSync_reports_the_outcome :
  forall (W : Type) (api : Api W) (authenticated : bool) (m : Machine W)
         (alerts : list Alert.t),
    reported api authenticated m alerts.
Proof.
  intros W api authenticated m alerts. unfold reported, handleSync.
  destruct authenticated; simpl negb; cbv iota.
  2:{ eexists. simpl. split; [reflexivity|]. split; [reflexivity|].
      split; [discriminate|]. split; [intros _; split; reflexivity|discriminate]. }
  assert (Hres : exists m' res,
            syncAll api m = (m', Ok res) /\
            (SyncResult.success res = true <->
               isAuthenticated (store m) = true /\
               SyncState.status (syncState (store m')) = success)).
  { destruct (isAuthenticated (store m)) eqn:Hauth.
    - destruct (syncAll_shape api m Hauth)
        as [evsO [evsT [m' [res [Hrun [_ [_ [_ [Hs _]]]]]]]]].
      exists m', res. split; [exact Hrun|]. rewrite Hs.
      split; [intros H; split; [reflexivity|exact H]|intros [_ H]; exact H].
    - rewrite (syncAll_unauthenticated api m Hauth). eexists _, _.
      split; [reflexivity|]. simpl. split; [discriminate|intros [H _]; discriminate]. }
  destruct Hres as [m' [res [-> Hiff]]].
  destruct (SyncResult.success res); simpl.
  - eexists. split; [reflexivity|]. split; [reflexivity|].
    split; [discriminate|]. split; [discriminate|]. intros _.
    split; [left; reflexivity|]. simpl. split; [intros _; apply Hiff; reflexivity|reflexivity].
  - eexists. split; [reflexivity|]. split; [reflexivity|].
    split; [apply orText_nonempty; discriminate|]. split; [discriminate|]. intros _.
    split; [right; reflexivity|]. simpl. split; [discriminate|].
    intros H. apply Hiff in H. discriminate.
Qed.

(** X17. A screen that subscribed when it showed the published state
    shows the published state again when [syncAll] returns: the last
    notification of an invocation carries the state the service is left
    in, and an invocation that publishes nothing changes nothing. *)
Theorem X17_subscribed_screen_is_up_to_date :
  forall (W : Type) (api : Api W) (m : Machine W), mirrored api m.
Proof.
  intros W api m. unfold mirrored.
  destruct (isAuthenticated (store m)) eqn:Hauth.
  - destruct (syncAll_shape api m Hauth)
      as [evsO [evsT [m' [res [Hrun [Ht _]]]]]].
    rewrite Hrun. simpl. eexists. split; [exact Ht|].
    rewrite !app_assoc. rewrite deliver_last. reflexivity.
  - rewrite (syncAll_unauthenticated api m Hauth). simpl.
    exists []. rewrite app_nil_r. split; reflexivity.
Qed.

(** ** The result and the published state *)

Section Agreement.

Context {W : Type} (api : Api W).

Lemma syncAll_agrees (m : Machine W) :
  isAuthenticated (store m) = true ->
  exists m' res, syncAll api m = (m', Ok res) /\ errorsAgree res (syncState (store m')).
Proof.
  intros Hauth. rewrite (syncAll_authenticated api m Hauth).
  generalize ((beginSync m).1). intros m1.
  unfold tryCatch, syncBoth. unfold bind at 1.
  destruct (syncObjectives api m1) as [mo [oe|e]].
  - unfold bind at 1.
    destruct (syncTasks api mo) as [mt [te|e]].
    + unfold bind, ask, modifyStore, notifyListeners, bind, getStore, emit, ret.
      destruct (now api (world mt)) as [w at_]. simpl.
      eexists _, _. split; [reflexivity|]. simpl.
      unfold errorsAgree, finishedResult, finishedState. rewrite !concatIfAny_app. simpl.
      destruct (0 <? length (oe ++ te))%nat; simpl.
      * split; [reflexivity|]. split; [reflexivity|]. right. reflexivity.
      * split; reflexivity.
    + unfold syncFailed, bind, modifyStore, notifyListeners, bind, getStore, emit, ret.
      simpl. eexists _, _. split; [reflexivity|]. unfold errorsAgree. simpl.
      split; [reflexivity|]. split; [reflexivity|]. left. reflexivity.
  - unfold syncFailed, bind, modifyStore, notifyListeners, bind, getStore, emit, ret.
    simpl. eexists _, _. split; [reflexivity|]. unfold errorsAgree. simpl.
    split; [reflexivity|]. split; [reflexivity|]. left. reflexivity.
Qed.

End Agreement.

(** X18. An authenticated invocation returns what it publishes: either
    the result is a success without error text and the published state is
    ['success'] without error text, or the result is a failure, the
    published state is ['error'], and the two error texts are the same,
    up to the hint [. Check console for details.] that the result appends
    to the count of failed items. *)
Theorem X18_result_and_published_state_agree :
  forall (W : Type) (api : Api W) (m : Machine W),
    isAuthenticated (store m) = true -> resultMatchesState api m.
Proof.
  intros W api m Hauth.
  destruct (syncAll_agrees api m Hauth) as [m' [res [Hrun Hag]]].
  unfold resultMatchesState. rewrite Hrun. simpl. exists res.
  split; [reflexivity|exact Hag].
Qed.

Lemma X18_witness :
  isAuthenticated (store Scenario.uploadDown) = true /\
  resultMatchesState Backend.api Scenario.uploadDown.
Proof.
  split; [reflexivity|].
  apply (X18_result_and_published_state_agree _ Backend.api Scenario.uploadDown).
  reflexivity.
Defined.
